(** * middlewared/service.py: the service data contract

    A shallow embedding of the generic service layer of the middleware
    daemon: the CRUD and Config service base classes, the wrappers that put
    them on a clustered tdb backend, the dependency guard of deletions and
    the admission control of locked jobs.

    The middleware object every service talks to ([self.middleware]) is an
    external collaborator: it is the interface [Middleware] below, and every
    theorem holds for every implementation of it.  Python values are the
    JSON-like trees [value]; where the identity of a mutable object matters
    (the [tdb_defaults] attribute and what is copied from it) objects live in
    an explicit heap. *)

From Stdlib Require Import ZArith QArith String Ascii List Bool Lia Lqa DecimalString.
From stdpp Require Import base list strings gmap.
Import ListNotations.
Set Warnings "-register-all".
Close Scope Q_scope.
Open Scope string_scope.

(** ** Python values *)

(** The values that cross the middleware boundary: [None], booleans,
    integers, strings, lists (tuples are read as lists) and dictionaries with
    string keys, in insertion order. *)
Inductive value : Type :=
| VNone
| VBool (b : bool)
| VInt (z : Z)
| VStr (s : string)
| VList (xs : list value)
| VDict (kvs : list (string * value)).

(** The exceptions the module raises or catches.  All of them derive from
    [Exception]; [OtherError] stands for any other subclass of it. *)
Inductive exn : Type :=
| IndexError
| KeyError (key : value)
| TypeError
| ValueError
| AttributeError
| RecursionError
| NotImplementedError (msg : string)
| CallError (errmsg : string) (errno : option Z) (extra : value)
| InstanceNotFound (errmsg : string)
| OtherError (name : string).

Inductive res (A : Type) : Type :=
| Ok (a : A)
| Raise (e : exn).
Arguments Ok {A} a.
Arguments Raise {A} e.

Definition EBUSY : Z := 16.

(** [bool(v)] *)
Definition truthy (v : value) : bool :=
  match v with
  | VNone => false
  | VBool b => b
  | VInt z => negb (z =? 0)%Z
  | VStr s => negb (String.eqb s "")
  | VList xs => match xs with [] => false | _ => true end
  | VDict kvs => match kvs with [] => false | _ => true end
  end.

(** *** Dictionaries as association lists in insertion order *)

Fixpoint dict_get {A : Type} (k : string) (kvs : list (string * A)) : option A :=
  match kvs with
  | [] => None
  | (k', v) :: rest => if String.eqb k k' then Some v else dict_get k rest
  end.

(** [d[k] = v]: an existing key keeps its place, a new one goes last. *)
Fixpoint dict_set {A : Type} (k : string) (v : A) (kvs : list (string * A))
  : list (string * A) :=
  match kvs with
  | [] => [(k, v)]
  | (k', v') :: rest =>
      if String.eqb k k' then (k', v) :: rest else (k', v') :: dict_set k v rest
  end.

(** [d.pop(k, None)], the dictionary that is left. *)
Fixpoint dict_pop {A : Type} (k : string) (kvs : list (string * A))
  : list (string * A) :=
  match kvs with
  | [] => []
  | (k', v') :: rest =>
      if String.eqb k k' then dict_pop k rest else (k', v') :: dict_pop k rest
  end.

Definition dict_keys {A : Type} (kvs : list (string * A)) : list string :=
  map fst kvs.

Definition dict_values {A : Type} (kvs : list (string * A)) : list A :=
  map snd kvs.

(** [d1.update(d2)] *)
Definition dict_update {A : Type} (d1 d2 : list (string * A)) : list (string * A) :=
  fold_left (fun d kv => dict_set (fst kv) (snd kv) d) d2 d1.

(** *** Equality, [str] and [repr] *)

(** [v1 == v2].  Dictionaries compare as maps, whatever the order of their
    keys, and [True == 1]. *)
Fixpoint py_eqb (v1 v2 : value) : bool :=
  match v1, v2 with
  | VNone, VNone => true
  | VBool a, VBool b => Bool.eqb a b
  | VBool a, VInt z | VInt z, VBool a => (z =? (if a then 1 else 0))%Z
  | VInt a, VInt b => (a =? b)%Z
  | VStr a, VStr b => String.eqb a b
  | VList xs, VList ys =>
      (fix go (xs ys : list value) : bool :=
         match xs, ys with
         | [], [] => true
         | x :: xs', y :: ys' => py_eqb x y && go xs' ys'
         | _, _ => false
         end) xs ys
  | VDict d1, VDict d2 =>
      Nat.eqb (length d1) (length d2) &&
      (fix go (d : list (string * value)) : bool :=
         match d with
         | [] => true
         | (k, v) :: d' =>
             match dict_get k d2 with
             | Some v' => py_eqb v v' && go d'
             | None => false
             end
         end) d1
  | _, _ => false
  end.

Definition string_of_Z (z : Z) : string := NilZero.string_of_int (Z.to_int z).

Fixpoint join (sep : string) (parts : list string) : string :=
  match parts with
  | [] => ""
  | [p] => p
  | p :: rest => p ++ sep ++ join sep rest
  end.

Fixpoint string_mem (c : ascii) (s : string) : bool :=
  match s with
  | EmptyString => false
  | String c' s' => Ascii.eqb c c' || string_mem c s'
  end.

Definition hex_digit (n : nat) : ascii :=
  match n with
  | 0 => "0" | 1 => "1" | 2 => "2" | 3 => "3" | 4 => "4" | 5 => "5" | 6 => "6"
  | 7 => "7" | 8 => "8" | 9 => "9" | 10 => "a" | 11 => "b" | 12 => "c"
  | 13 => "d" | 14 => "e" | _ => "f"
  end%char.

(** One character of [repr(s)] inside the quotes [q]. *)
Definition repr_char (q c : ascii) : string :=
  let n := nat_of_ascii c in
  if Ascii.eqb c q || Ascii.eqb c "\"%char then String "\"%char (String c "")
  else if Nat.eqb n 9 then "\t"
  else if Nat.eqb n 10 then "\n"
  else if Nat.eqb n 13 then "\r"
  else if Nat.ltb n 32 || Nat.eqb n 127
       then String "\"%char (String "x"%char
              (String (hex_digit (n / 16)) (String (hex_digit (n mod 16)) "")))
  else String c "".

Fixpoint repr_chars (q : ascii) (s : string) : string :=
  match s with
  | EmptyString => ""
  | String c s' => repr_char q c ++ repr_chars q s'
  end.

Definition double_quote : ascii := ascii_of_nat 34.

(** [repr(s)] of a string: single quotes, unless the string holds a single
    quote and no double quote.  Bytes above 127 are taken as printable. *)
Definition repr_str (s : string) : string :=
  let q := if string_mem "'"%char s && negb (string_mem double_quote s)
           then double_quote else "'"%char in
  String q (repr_chars q s ++ String q "").

Fixpoint py_repr (v : value) : string :=
  match v with
  | VNone => "None"
  | VBool true => "True"
  | VBool false => "False"
  | VInt z => string_of_Z z
  | VStr s => repr_str s
  | VList xs => "[" ++ join ", " (map py_repr xs) ++ "]"
  | VDict kvs =>
      "{" ++ join ", " (map (fun kv => repr_str (fst kv) ++ ": " ++ py_repr (snd kv)) kvs)
          ++ "}"
  end.

(** [str(v)], what an f-string puts for [{v}]. *)
Definition py_str (v : value) : string :=
  match v with
  | VStr s => s
  | _ => py_repr v
  end.

Definition upper_char (c : ascii) : ascii :=
  let n := nat_of_ascii c in
  if Nat.leb 97 n && Nat.leb n 122 then ascii_of_nat (n - 32) else c.

Definition lower_char (c : ascii) : ascii :=
  let n := nat_of_ascii c in
  if Nat.leb 65 n && Nat.leb n 90 then ascii_of_nat (n + 32) else c.

Fixpoint string_map (f : ascii -> ascii) (s : string) : string :=
  match s with
  | EmptyString => ""
  | String c s' => String (f c) (string_map f s')
  end.

(** [s.capitalize()] *)
Definition capitalize (s : string) : string :=
  match s with
  | EmptyString => ""
  | String c s' => String (upper_char c) (string_map lower_char s')
  end.

(** [s.startswith(p)] is [String.prefix p s]; [s[n:]]: *)
Fixpoint string_drop (n : nat) (s : string) : string :=
  match n, s with
  | O, _ => s
  | S n', String _ s' => string_drop n' s'
  | S _, EmptyString => ""
  end.

(** ** The heap of mutable objects *)

(** A location is an index into the heap. *)
Abbreviation loc := nat (only parsing).

(** A Python value as a variable holds it: an immutable atom or a reference
    to a dictionary or a list on the heap. *)
Inductive pval : Type :=
| PNone
| PBool (b : bool)
| PInt (z : Z)
| PStr (s : string)
| PRef (l : loc).

Inductive pobj : Type :=
| ODict (kvs : list (string * pval))
| OList (xs : list pval).

(** ** The middleware interface *)

(** What a service sees of the daemon it runs in.  [Env] is the state of
    everything outside the service (datastore, tdb backend, other services,
    the clock).  Arguments and results cross this boundary as trees. *)
Class Middleware : Type := {
  Env : Type;
  (** [await self.middleware.call(name, *args)] *)
  mw_call : string -> list value -> Env -> res value * Env;
  (** [await self.middleware._call(name, self, self.do_xxx, args)]: the
      service's own [do_create], [do_update] or [do_delete] *)
  mw_method : string -> list value -> Env -> res value * Env;
  (** [await self.middleware.call_hook(name, *args)] *)
  mw_hook : string -> list value -> Env -> res unit * Env;
  (** [time.monotonic()] *)
  monotonic : Env -> Q;
  (** [middlewared.utils.filter_list(rows, filters, options)] *)
  filter_list : value -> value -> value -> res value;
}.

Inductive log_level : Type := LWarning | LError.

(** What a service does to the outside, in the order it does it. *)
Inductive event : Type :=
| ECall (name : string) (args : list value) (r : res value)
| EMethod (name : string) (args : list value) (r : res value)
| EHook (name : string) (args : list value) (r : res unit)
| ESend (name : string) (event_type : string) (kwargs : list (string * value))
| ELog (lv : log_level) (fmt : string) (args : list value)
| EAcquire (lock_name : string)
| ERelease (lock_name : string).

(** ** The service monad: state and exceptions *)

Section Monad.
Context {mw : Middleware}.

(** The world a service method runs in: the outside, the heap, the two
    attributes a wrapper instance caches its health check in, and the
    trace of what was done so far. *)
Record World : Type := mkWorld {
  env : Env;
  heap : list pobj;
  status : pval;
  last_check : Q;
  log : list event;
}.

Definition M (A : Type) : Type := World -> res A * World.

Definition ret {A : Type} (a : A) : M A := fun w => (Ok a, w).

Definition raise {A : Type} (e : exn) : M A := fun w => (Raise e, w).

Definition bind {A B : Type} (m : M A) (k : A -> M B) : M B :=
  fun w =>
    match m w with
    | (Ok a, w') => k a w'
    | (Raise e, w') => (Raise e, w')
    end.

(** [try: m  except ...: h e], where [h] says which exceptions it takes. *)
Definition catch {A : Type} (m : M A) (h : exn -> option (M A)) : M A :=
  fun w =>
    match m w with
    | (Ok a, w') => (Ok a, w')
    | (Raise e, w') =>
        match h e with
        | Some k => k w'
        | None => (Raise e, w')
        end
    end.

Definition lift_res {A : Type} (r : res A) : M A := fun w => (r, w).

Definition set_env (e : Env) (w : World) : World :=
  mkWorld e (heap w) (status w) (last_check w) (log w).

Definition set_heap (h : list pobj) (w : World) : World :=
  mkWorld (env w) h (status w) (last_check w) (log w).

Definition add_log (ev : event) (w : World) : World :=
  mkWorld (env w) (heap w) (status w) (last_check w) (log w ++ [ev]).

Definition emit (ev : event) : M unit := fun w => (Ok tt, add_log ev w).

(** [await self.middleware.call(name, *args)] *)
Definition call (name : string) (args : list value) : M value :=
  fun w =>
    let (r, e') := mw_call name args (env w) in
    (r, add_log (ECall name args r) (set_env e' w)).

(** [await self.middleware._call(name, self, method, args)] *)
Definition call_method (name : string) (args : list value) : M value :=
  fun w =>
    let (r, e') := mw_method name args (env w) in
    (r, add_log (EMethod name args r) (set_env e' w)).

(** [await self.middleware.call_hook(name, *args)] *)
Definition call_hook (name : string) (args : list value) : M unit :=
  fun w =>
    let (r, e') := mw_hook name args (env w) in
    (r, add_log (EHook name args r) (set_env e' w)).

(** [self.middleware.send_event(name, event_type, **kwargs)] *)
Definition send_event (name event_type : string) (kwargs : list (string * value))
  : M unit :=
  emit (ESend name event_type kwargs).

Definition logger (lv : log_level) (fmt : string) (args : list value) : M unit :=
  emit (ELog lv fmt args).
End Monad.

Declare Scope monad_scope.
Delimit Scope monad_scope with monad.
Notation "x <- c1 ;; c2" := (bind c1 (fun x => c2))
  (at level 100, c1 at next level, right associativity) : monad_scope.
Notation "c1 ;;; c2" := (bind c1 (fun _ => c2))
  (at level 100, right associativity) : monad_scope.
Open Scope monad_scope.

(** ** Subscripts and methods of values *)

(** [v[k]] for a string [k] *)
Definition getitem (v : value) (k : string) : res value :=
  match v with
  | VDict kvs =>
      match dict_get k kvs with
      | Some x => Ok x
      | None => Raise (KeyError (VStr k))
      end
  | _ => Raise TypeError
  end.

(** [v[k] = x], the value [v] names afterwards *)
Definition setitem (v : value) (k : string) (x : value) : res value :=
  match v with
  | VDict kvs => Ok (VDict (dict_set k x kvs))
  | VList _ => Raise TypeError
  | _ => Raise TypeError
  end.

(** [v.get(k)] *)
Definition dot_get (v : value) (k : string) : res value :=
  match v with
  | VDict kvs =>
      match dict_get k kvs with
      | Some x => Ok x
      | None => Ok VNone
      end
  | _ => Raise AttributeError
  end.

(** [v[0]] *)
Definition getitem0 (v : value) : res value :=
  match v with
  | VList (x :: _) => Ok x
  | VList [] => Raise IndexError
  | VStr (String c _) => Ok (VStr (String c ""))
  | VStr EmptyString => Raise IndexError
  | VDict _ => Raise (KeyError (VInt 0))
  | _ => Raise TypeError
  end.

Fixpoint chars_of (s : string) : list value :=
  match s with
  | EmptyString => []
  | String c s' => VStr (String c "") :: chars_of s'
  end.

(** What [for x in v] runs over. *)
Definition iter_values (v : value) : res (list value) :=
  match v with
  | VList xs => Ok xs
  | VDict kvs => Ok (map VStr (dict_keys kvs))
  | VStr s => Ok (chars_of s)
  | _ => Raise TypeError
  end.

Definition opt_value (o : option string) : value :=
  match o with
  | Some s => VStr s
  | None => VNone
  end.

(** ** Service descriptors *)

(** [self._config], as [service_config] fills it in (the attributes the
    methods below read). *)
Record Config : Type := mkConfig {
  datastore : option string;
  datastore_prefix : string;
  datastore_extend : option string;
  datastore_extend_context : option string;
  datastore_primary_key : string;
  event_send : bool;
  service : option string;
  namespace : string;
  verbose_name : string;
}.

Definition opt_truthy (o : option string) : bool := truthy (opt_value o).

Definition nl : string := String (ascii_of_nat 10) "".

(** ** CRUDService *)

Module CRUDService.
Section Methods.
Context {mw : Middleware}.
Variable self : Config.

Definition get_options (options : value) : M value :=
  let options := if truthy options then options else VDict [] in
  options <- lift_res (setitem options "extend" (opt_value (datastore_extend self)));;
  options <- lift_res (setitem options "extend_context"
                         (opt_value (datastore_extend_context self)));;
  options <- lift_res (setitem options "prefix" (VStr (datastore_prefix self)));;
  ret options.

(** [options.copy()] without its [count] and [get] keys *)
Definition datastore_options_of (options : value) : value :=
  match options with
  | VDict kvs => VDict (dict_pop "get" (dict_pop "count" kvs))
  | _ => options
  end.

Definition query (filters options : value) : M value :=
  if negb (opt_truthy (datastore self)) then
    raise (NotImplementedError
             (namespace self ++ ".query must be implemented or a "
                ++ "`datastore` Config attribute provided."))
  else
    let filters := if truthy filters then filters else VList [] in
    options <- get_options options;;
    force_sql_filters <- lift_res (getitem options "force_sql_filters");;
    extend <- (if truthy force_sql_filters then ret VNone
               else lift_res (getitem options "extend"));;
    if negb (truthy force_sql_filters) && truthy extend then
      let datastore_options := datastore_options_of options in
      result <- call "datastore.query"
                  [opt_value (datastore self); VList []; datastore_options];;
      lift_res (filter_list result filters options)
    else
      call "datastore.query" [opt_value (datastore self); filters; options].

(** [isinstance(rv, dict) and 'id' in rv], with [rv['id']] *)
Definition id_of (rv : value) : option value :=
  match rv with
  | VDict kvs => dict_get "id" kvs
  | _ => None
  end.

Definition create (data : value) : M value :=
  rv <- call_method (namespace self ++ ".create") [data];;
  call_hook (namespace self ++ ".post_create") [rv];;;
  (if event_send self then
     match id_of rv with
     | Some i => send_event (namespace self ++ ".query") "ADDED"
                   [("id", i); ("fields", rv)]
     | None => ret tt
     end
   else ret tt);;;
  ret rv.

Definition update (id data : value) : M value :=
  rv <- call_method (namespace self ++ ".update") [id; data];;
  call_hook (namespace self ++ ".post_update") [rv];;;
  (if event_send self then
     match id_of rv with
     | Some i => send_event (namespace self ++ ".query") "CHANGED"
                   [("id", i); ("fields", rv)]
     | None => ret tt
     end
   else ret tt);;;
  ret rv.

Definition delete (id : value) (args : list value) : M value :=
  rv <- call_method (namespace self ++ ".delete") (id :: args);;
  call_hook (namespace self ++ ".post_delete") [rv];;;
  (if event_send self then
     send_event (namespace self ++ ".query") "CHANGED"
       [("id", id); ("cleared", VBool true)];;;
     send_event (namespace self ++ ".query") "REMOVED" [("id", id)]
   else ret tt);;;
  ret rv.

Definition get_instance (id options : value) : M value :=
  instance <- call (namespace self ++ ".query")
                [VList [VList [VStr (datastore_primary_key self); VStr "="; id]];
                 options];;
  if negb (truthy instance) then
    raise (InstanceNotFound
             (verbose_name self ++ " " ++ py_str id ++ " does not exist"))
  else lift_res (getitem0 instance).

(** [self.middleware.call_sync] makes the same call from a worker thread. *)
Definition get_instance__sync (id options : value) : M value :=
  instance <- call (namespace self ++ ".query")
                [VList [VList [VStr (datastore_primary_key self); VStr "="; id]];
                 options];;
  if negb (truthy instance) then
    raise (InstanceNotFound
             (verbose_name self ++ " " ++ py_str id ++ " does not exist"))
  else lift_res (getitem0 instance).

(** *** Dependencies *)

(** The comprehension that indexes the registered services by their
    datastore.  A key that is not a string can never be looked up by the
    (string) name of a datastore and is left out; a list or a dictionary
    is not hashable. *)
Fixpoint services_by_datastore (items : list (string * value))
    (acc : list (string * (string * value)))
  : res (list (string * (string * value))) :=
  match items with
  | [] => Ok acc
  | (name, service) :: rest =>
      match getitem service "config" with
      | Raise e => Raise e
      | Ok c =>
          match dot_get c "datastore" with
          | Raise e => Raise e
          | Ok ds =>
              if truthy ds then
                match ds with
                | VStr d => services_by_datastore rest (dict_set d (name, service) acc)
                | VList _ | VDict _ => Raise TypeError
                | _ => services_by_datastore rest acc
                end
              else services_by_datastore rest acc
          end
      end
  end.

(** [for datastore, fk in ...]: one element of the back references; the
    names of datastores and columns are strings. *)
Definition unpack_backref (item : value) : res (string * string) :=
  match iter_values item with
  | Ok [VStr d; VStr fk] => Ok (d, fk)
  | Ok [_; _] => Raise TypeError
  | Ok _ => Raise ValueError
  | Raise e => Raise e
  end.

(** [[object['id'] for object in objects]] *)
Fixpoint object_ids (objects : list value) : res (list value) :=
  match objects with
  | [] => Ok []
  | o :: rest =>
      match getitem o "id" with
      | Raise e => Raise e
      | Ok i =>
          match object_ids rest with
          | Raise e => Raise e
          | Ok ids => Ok (i :: ids)
          end
      end
  end.

(** [query_col], the foreign key without the datastore prefix of the
    service. *)
Definition strip_prefix (prefix : value) (fk : string) : res string :=
  if truthy prefix then
    match prefix with
    | VStr p => Ok (if String.prefix p fk then string_drop (String.length p) fk else fk)
    | _ => Raise TypeError
    end
  else Ok fk.

(** What is recorded about a datastore that refers to the object: the
    rows found, or, when a service owns the datastore, the column (config
    services) or the entries of the service (crud services). *)
Definition dependency_data (service : option (string * value * value))
    (fk : string) (objects : value) : M (list (string * value)) :=
  match service with
  | None => ret [("objects", objects)]
  | Some (name, type, svc) =>
      c <- lift_res (getitem svc "config");;
      prefix <- lift_res (dot_get c "datastore_prefix");;
      query_col <- lift_res (strip_prefix prefix fk);;
      let data := if py_eqb type (VStr "config")
                  then [("key", VStr query_col)]
                  else [("objects", objects)] in
      if py_eqb type (VStr "crud") then
        ids <- lift_res match iter_values objects with
                        | Ok os => object_ids os
                        | Raise e => Raise e
                        end;;
        objs <- call (name ++ ".query")
                  [VList [VList [VStr "id"; VStr "in"; VList ids]]];;
        ret [("objects", objs)]
      else ret data
  end.

Definition service_name (service : option (string * value * value)) : value :=
  match service with
  | Some (name, _, _) => VStr name
  | None => VNone
  end.

(** The body of the loop over the back references. *)
Definition dependency_step (id : value) (ignored : gset string)
    (services : list (string * (string * value)))
    (dependencies : list (string * value)) (item : value)
  : M (list (string * value)) :=
  backref <- lift_res (unpack_backref item);;
  let datastore := fst backref in
  let fk := snd backref in
  if bool_decide (datastore ∈ ignored) then ret dependencies
  else
    service <- match dict_get datastore services with
               | Some (name, svc) =>
                   type <- lift_res (getitem svc "type");;
                   ret (Some (name, type, svc))
               | None => ret None
               end;;
    if match service with
       | Some (name, _, _) => bool_decide (name ∈ ignored)
       | None => false
       end
    then ret dependencies
    else
      objects <- call "datastore.query"
                   [VStr datastore; VList [VList [VStr fk; VStr "="; id]]];;
      if truthy objects then
        data <- dependency_data service fk objects;;
        ret (dict_set datastore
               (VDict (dict_update
                         [("datastore", VStr datastore);
                          ("service", service_name service)]
                         data))
               dependencies)
      else ret dependencies.

Fixpoint dependency_loop (id : value) (ignored : gset string)
    (services : list (string * (string * value)))
    (dependencies : list (string * value)) (backrefs : list value)
  : M (list (string * value)) :=
  match backrefs with
  | [] => ret dependencies
  | item :: rest =>
      dependencies <- dependency_step id ignored services dependencies item;;
      dependency_loop id ignored services dependencies rest
  end.

Definition get_dependencies (id : value) (ignored : gset string)
  : M (list (string * value)) :=
  registered <- call "core.get_services" [];;
  services <- lift_res match registered with
                       | VDict items => services_by_datastore items []
                       | _ => Raise AttributeError
                       end;;
  backrefs <- call "datastore.get_backrefs" [opt_value (datastore self)];;
  items <- lift_res (iter_values backrefs);;
  dependency_loop id ignored services [] items.

(** One line of the message per dependency, numbered from [index + 1]. *)
Fixpoint dependency_lines (index : nat) (dependencies : list value) : res string :=
  match dependencies with
  | [] => Ok ""
  | dependency :: rest =>
      match getitem dependency "service" with
      | Raise e => Raise e
      | Ok s =>
          let key := if truthy s then "service" else "datastore" in
          match getitem dependency key with
          | Raise e => Raise e
          | Ok named =>
              match dependency_lines (S index) rest with
              | Raise e => Raise e
              | Ok lines =>
                  Ok (string_of_Z (Z.of_nat (index + 1)) ++ ") " ++ py_repr named
                        ++ " " ++ capitalize key ++ nl ++ lines)
              end
          end
      end
  end.

Definition check_dependencies (id : value) (ignored : gset string) : M value :=
  dependencies <- get_dependencies id ignored;;
  match dependencies with
  | [] => ret VNone
  | _ =>
      lines <- lift_res (dependency_lines 0 (dict_values dependencies));;
      raise (CallError
               ("This object is being used by following service(s):" ++ nl ++ lines)
               (Some EBUSY)
               (VDict [("dependencies", VList (dict_values dependencies))]))
  end.
End Methods.
End CRUDService.

(** ** ConfigService *)

Module ConfigService.
Section Methods.
Context {mw : Middleware}.
Variable self : Config.

(** [get_or_insert_lock], the one lock of the module, as the sequential
    run of a method sees it: taken and given back around the body, also
    when the body raises. *)
Definition with_get_or_insert_lock {A : Type} (body : M A) : M A :=
  fun w =>
    let (r, w') := body (add_log (EAcquire "get_or_insert_lock") w) in
    (r, add_log (ERelease "get_or_insert_lock") w').

Definition only_IndexError {A : Type} (k : M A) (e : exn) : option (M A) :=
  match e with
  | IndexError => Some k
  | _ => None
  end.

Definition _get_or_insert (datastore options : value) : M value :=
  catch (call "datastore.config" [datastore; options])
    (only_IndexError
       (with_get_or_insert_lock
          (catch (call "datastore.config" [datastore; options])
             (only_IndexError
                (call "datastore.insert" [datastore; VDict []];;;
                 call "datastore.config" [datastore; options]))))).

Definition config : M value :=
  let options :=
    VDict [("extend", opt_value (datastore_extend self));
           ("extend_context", opt_value (datastore_extend_context self));
           ("prefix", VStr (datastore_prefix self))] in
  _get_or_insert (opt_value (datastore self)) options.

Definition update (data : value) : M value :=
  rv <- call_method (namespace self ++ ".update") [data];;
  call_hook (namespace self ++ ".post_update") [rv];;;
  ret rv.
End Methods.
End ConfigService.

(** ** Concurrent first calls of [ConfigService.config]

    Coroutines run [_get_or_insert] on one event loop.  Control changes hands
    only at an [await]; each datastore call is one step of the table.  A
    coroutine is at one of the program points of [_get_or_insert]. *)

Module GetOrInsert.

Inductive pc : Type :=
| FirstRead      (* before the first [datastore.config] *)
| WantLock       (* [IndexError] seen, before [async with get_or_insert_lock] *)
| SecondRead     (* holding the lock, before the second [datastore.config] *)
| Insert         (* holding the lock, before [datastore.insert] *)
| ThirdRead      (* holding the lock, before the last [datastore.config] *)
| Returned (row : value)
| Raised (e : exn).

Record state : Type := mkState {
  table : list value;          (* the rows of the datastore *)
  lock : option nat;           (* the coroutine holding [get_or_insert_lock] *)
  pcs : list pc;               (* one program point per coroutine *)
  inserts : nat;               (* how many [datastore.insert] calls were made *)
}.

(** Modelled from the spec: the datastore boundary of section 6,
    [datastore.config] gives the one row of the table and raises
    [IndexError] when there is none; [datastore.insert] of the empty
    record adds a row, with the next free [id]. *)
Definition datastore_config (t : list value) : res value :=
  match t with
  | row :: _ => Ok row
  | [] => Raise IndexError
  end.

Definition datastore_insert (t : list value) : list value :=
  t ++ [VDict [("id", VInt (Z.of_nat (S (length t))))]].

Definition set_pc (i : nat) (p : pc) (s : state) : state :=
  mkState (table s) (lock s) (<[i := p]> (pcs s)) (inserts s).

Definition release (s : state) : state :=
  mkState (table s) None (pcs s) (inserts s).

Definition acquire (i : nat) (s : state) : state :=
  mkState (table s) (Some i) (pcs s) (inserts s).

(** One step of coroutine [i], when it has one. *)
Definition step (i : nat) (s : state) : option state :=
  match pcs s !! i with
  | Some FirstRead =>
      match datastore_config (table s) with
      | Ok row => Some (set_pc i (Returned row) s)
      | Raise IndexError => Some (set_pc i WantLock s)
      | Raise e => Some (set_pc i (Raised e) s)
      end
  | Some WantLock =>
      match lock s with
      | None => Some (set_pc i SecondRead (acquire i s))
      | Some _ => None
      end
  | Some SecondRead =>
      match datastore_config (table s) with
      | Ok row => Some (set_pc i (Returned row) (release s))
      | Raise IndexError => Some (set_pc i Insert s)
      | Raise e => Some (set_pc i (Raised e) (release s))
      end
  | Some Insert =>
      Some (set_pc i ThirdRead
              (mkState (datastore_insert (table s)) (lock s) (pcs s) (S (inserts s))))
  | Some ThirdRead =>
      match datastore_config (table s) with
      | Ok row => Some (set_pc i (Returned row) (release s))
      | Raise e => Some (set_pc i (Raised e) (release s))
      end
  | Some (Returned _) | Some (Raised _) | None => None
  end.

(** The event loop resumes the coroutines in the order [schedule]; a
    coroutine that cannot move is passed over. *)
Fixpoint run (schedule : list nat) (s : state) : state :=
  match schedule with
  | [] => s
  | i :: rest =>
      match step i s with
      | Some s' => run rest s'
      | None => run rest s
      end
  end.

(** [n] callers of [config()] and an empty table. *)
Definition init (n : nat) : state :=
  mkState [] None (replicate n FirstRead) 0.

Definition finished (p : pc) : bool :=
  match p with
  | Returned _ | Raised _ => true
  | _ => false
  end.

Definition returned (p : pc) : bool :=
  match p with
  | Returned _ => true
  | _ => false
  end.

Definition holds_lock (p : pc) : bool :=
  match p with
  | SecondRead | Insert | ThirdRead => true
  | _ => false
  end.

(** The steps a coroutine at [p] still has to make, at most. *)
Definition remaining (p : pc) : nat :=
  match p with
  | FirstRead => 5
  | WantLock => 4
  | SecondRead => 3
  | Insert => 2
  | ThirdRead => 1
  | Returned _ | Raised _ => 0
  end.

Definition all_returned (s : state) : bool := forallb returned (pcs s).
End GetOrInsert.

(** ** Objects on the heap *)

(** [store t h] builds the tree [t] out of new objects at the end of [h]. *)
Fixpoint store (t : value) (h : list pobj) {struct t} : list pobj * pval :=
  match t with
  | VNone => (h, PNone)
  | VBool b => (h, PBool b)
  | VInt z => (h, PInt z)
  | VStr s => (h, PStr s)
  | VList xs =>
      let (h', ps) :=
        (fix go (xs : list value) (h : list pobj) : list pobj * list pval :=
           match xs with
           | [] => (h, [])
           | x :: xs' =>
               let (h1, p) := store x h in
               let (h2, ps) := go xs' h1 in
               (h2, p :: ps)
           end) xs h in
      ((h' ++ [OList ps])%list, PRef (length h'))
  | VDict kvs =>
      let (h', ps) :=
        (fix go (kvs : list (string * value)) (h : list pobj)
           : list pobj * list (string * pval) :=
           match kvs with
           | [] => (h, [])
           | kv :: kvs' =>
               let (h1, p) := store (snd kv) h in
               let (h2, ps) := go kvs' h1 in
               (h2, (fst kv, p) :: ps)
           end) kvs h in
      ((h' ++ [ODict ps])%list, PRef (length h'))
  end.

(** [load fuel h p] reads the tree under [p], through at most [fuel]
    references one inside the other. *)
Fixpoint load (fuel : nat) (h : list pobj) (p : pval) : option value :=
  match p with
  | PNone => Some VNone
  | PBool b => Some (VBool b)
  | PInt z => Some (VInt z)
  | PStr s => Some (VStr s)
  | PRef l =>
      match fuel with
      | O => None
      | S f =>
          match h !! l with
          | Some (OList ps) => VList <$> mapM (load f h) ps
          | Some (ODict kvs) =>
              VDict <$> mapM (fun kv => pair (fst kv) <$> load f h (snd kv)) kvs
          | None => None
          end
      end
  end.

(** The value a variable holds: the tree under it, read with all the fuel
    an acyclic heap of this size can need. *)
Definition denotes (h : list pobj) (p : pval) (t : value) : Prop :=
  load (length h) h p = Some t.

(** The objects one can get to from a value. *)
Inductive reachable (h : list pobj) : pval -> loc -> Prop :=
| reach_here (l : loc) : reachable h (PRef l) l
| reach_item (l : loc) (ps : list pval) (p : pval) (l' : loc) :
    h !! l = Some (OList ps) -> p ∈ ps -> reachable h p l' ->
    reachable h (PRef l) l'
| reach_value (l : loc) (kvs : list (string * pval)) (k : string) (p : pval) (l' : loc) :
    h !! l = Some (ODict kvs) -> (k, p) ∈ kvs -> reachable h p l' ->
    reachable h (PRef l) l'.

(** [bool(p)] *)
Definition ptruthy (h : list pobj) (p : pval) : bool :=
  match p with
  | PNone => false
  | PBool b => b
  | PInt z => negb (z =? 0)%Z
  | PStr s => negb (String.eqb s "")
  | PRef l =>
      match h !! l with
      | Some (OList []) | Some (ODict []) => false
      | _ => true
      end
  end.

Definition is_none (p : pval) : bool :=
  match p with
  | PNone => true
  | _ => false
  end.

Section HeapMonad.
Context {mw : Middleware}.

Definition store_val (t : value) : M pval :=
  fun w => let (h', p) := store t (heap w) in (Ok p, set_heap h' w).

(** Reading a structure that never ends is Python's [RecursionError]. *)
Definition load_val (p : pval) : M value :=
  fun w =>
    match load (length (heap w)) (heap w) p with
    | Some t => (Ok t, w)
    | None => (Raise RecursionError, w)
    end.

(** [copy.deepcopy(p)] of JSON-like data: the same tree, built of new
    objects. *)
Definition deepcopy (p : pval) : M pval :=
  t <- load_val p;; store_val t.

(** A call whose result the caller goes on to use as an object. *)
Definition pcall (name : string) (args : list value) : M pval :=
  r <- call name args;; store_val r.

Definition truthy_of (p : pval) : M bool :=
  fun w => (Ok (ptruthy (heap w) p), w).

(** [p[k]] for a string [k] *)
Definition psubscript (p : pval) (k : string) : M pval :=
  fun w =>
    match p with
    | PRef l =>
        match heap w !! l with
        | Some (ODict kvs) =>
            match dict_get k kvs with
            | Some v => (Ok v, w)
            | None => (Raise (KeyError (VStr k)), w)
            end
        | _ => (Raise TypeError, w)
        end
    | _ => (Raise TypeError, w)
    end.

(** [p.pop(k, default)] *)
Definition ppop (p : pval) (k : string) (default : pval) : M pval :=
  fun w =>
    match p with
    | PRef l =>
        match heap w !! l with
        | Some (ODict kvs) =>
            (Ok (match dict_get k kvs with Some v => v | None => default end),
             set_heap (<[l := ODict (dict_pop k kvs)]> (heap w)) w)
        | Some (OList _) => (Raise TypeError, w)
        | None => (Raise AttributeError, w)
        end
    | _ => (Raise AttributeError, w)
    end.

(** [p.update(q)] for a dictionary [q] *)
Definition pupdate (p q : pval) : M unit :=
  fun w =>
    match p with
    | PRef l =>
        match heap w !! l with
        | Some (ODict kvs) =>
            match q with
            | PRef l' =>
                match heap w !! l' with
                | Some (ODict kvs') =>
                    (Ok tt, set_heap (<[l := ODict (dict_update kvs kvs')]> (heap w)) w)
                | _ => (Raise TypeError, w)
                end
            | _ => (Raise TypeError, w)
            end
        | _ => (Raise AttributeError, w)
        end
    | _ => (Raise AttributeError, w)
    end.

(** What [for x in p] runs over. *)
Definition piter (p : pval) : M (list pval) :=
  fun w =>
    match p with
    | PRef l =>
        match heap w !! l with
        | Some (OList ps) => (Ok ps, w)
        | Some (ODict kvs) => (Ok (map PStr (dict_keys kvs)), w)
        | None => (Raise TypeError, w)
        end
    | PStr s =>
        (Ok (map (fun v => match v with VStr c => PStr c | _ => PNone end) (chars_of s)),
         w)
    | _ => (Raise TypeError, w)
    end.

Definition get_status : M pval := fun w => (Ok (status w), w).
Definition get_last_check : M Q := fun w => (Ok (last_check w), w).
Definition get_monotonic : M Q := fun w => (Ok (monotonic (env w)), w).

Definition set_status (p : pval) : M unit :=
  fun w => (Ok tt, mkWorld (env w) (heap w) p (last_check w) (log w)).

Definition set_last_check (t : Q) : M unit :=
  fun w => (Ok tt, mkWorld (env w) (heap w) (status w) t (log w)).

(** What the logger prints for an object. *)
Definition shown (p : pval) : M value :=
  fun w =>
    match load (length (heap w)) (heap w) p with
    | Some t => (Ok t, w)
    | None => (Ok (VStr "..."), w)
    end.

(** [except Exception:] *)
Definition any_exception {A : Type} (k : M A) (e : exn) : option (M A) := Some k.
End HeapMonad.

(** ** The wrappers for a clustered backend *)

(** The class attributes of a wrapper. *)
Record TDB : Type := mkTDB {
  service_version : value;
  tdb_defaults : pval;
  cluster_healthy_fn : string;
  is_clustered_fn : option string;     (* [None] is [NotImplemented] *)
  time_offset : Q;
  tdb_options : value;
}.

Definition base_service_version : value :=
  VDict [("major", VInt 0); ("minor", VInt 1)].

Definition base_tdb_options (tdb_type : string) : value :=
  VDict [("cluster", VBool true); ("tdb_type", VStr tdb_type);
         ("read_backoff", VInt 1); ("service_version", base_service_version)].

(** The attributes as the two base classes give them; [defaults] is where
    the class keeps its [tdb_defaults], an empty dictionary or list. *)
Definition base_tdb (tdb_type : string) (defaults : pval) : TDB :=
  mkTDB base_service_version defaults "ctdb.general.healthy" None 30%Q
        (base_tdb_options tdb_type).

Definition unhealthy_message : string :=
  "Clustered configuration may not be altered while cluster is unhealthy.".

(** [p == s] for a string [s] *)
Definition pstr_eqb (p : pval) (s : string) : bool :=
  match p with
  | PStr s' => String.eqb s' s
  | _ => false
  end.

(** What the two wrappers share word for word. *)
Section TDBCommon.
Context {mw : Middleware}.
Variable self : Config.
Variable cls : TDB.

Definition _default_cluster_check : M pval :=
  ha_mode <- pcall "smb.get_smb_ha_mode" [];;
  ret (PBool (pstr_eqb ha_mode "CLUSTERED")).

Definition is_clustered : M pval :=
  match is_clustered_fn cls with
  | None => _default_cluster_check
  | Some fn => pcall fn []
  end.

Definition cluster_healthy : M pval :=
  now <- get_monotonic;;
  last <- get_last_check;;
  if negb (Qle_bool (last + time_offset cls) now) then get_status
  else
    status <- catch (pcall (cluster_healthy_fn cls) [])
                (any_exception
                   (logger LWarning "%s: cluster health check [%s] failed."
                      [VStr (namespace self); VStr (cluster_healthy_fn cls)];;;
                    ret (PBool false)));;
    set_status status;;;
    set_last_check now;;;
    ret status.

(** [db_healthy], on the tdb file [name]. *)
Definition db_healthy_of (name : value) : M pval :=
  health <- catch (health <- pcall "tdb.health"
                               [VDict [("name", name);
                                       ("tdb-options", tdb_options cls)]];;
                   ret (Some health))
              (any_exception
                 (logger LWarning "%s: ctdb volume health status check failed."
                    [opt_value (service self)];;;
                  ret None));;
  match health with
  | Some health =>
      if pstr_eqb health "OK" then ret (PBool true)
      else
        h <- shown health;;
        logger LWarning "%s: health status is [%s] returning default value"
          [opt_value (service self); h];;;
        ret (PBool false)
  | None => ret (PBool false)
  end.

(** [not await self.cluster_healthy() and not await self.db_healthy()] *)
Definition unhealthy_of (name : value) : M bool :=
  healthy <- cluster_healthy;;
  healthy <- truthy_of healthy;;
  if healthy then ret false
  else
    healthy <- db_healthy_of name;;
    healthy <- truthy_of healthy;;
    ret (negb healthy).

(** [version and self.service_version != version] *)
Definition version_mismatch (version : pval) : M bool :=
  present <- truthy_of version;;
  if present then
    version <- load_val version;;
    ret (negb (py_eqb (service_version cls) version))
  else ret false.

Definition mismatch_logged : M unit :=
  logger LError
    ("%s: Service version mismatch. Service update migration is required. "
       ++ "Returning default values.")
    [VStr (namespace self)].

(** [f'{self.service_version["major"]}.{self.service_version["minor"]}'] *)
Definition node_version : M string :=
  major <- lift_res (getitem (service_version cls) "major");;
  minor <- lift_res (getitem (service_version cls) "minor");;
  ret (py_str major ++ "." ++ py_str minor).
End TDBCommon.

Module TDBWrapConfigService.
Section Methods.
Context {mw : Middleware}.
Variable self : Config.
Variable cls : TDB.

Definition db_healthy : M pval := db_healthy_of self cls (opt_value (service self)).

Definition tdb_args : value :=
  VDict [("name", opt_value (service self)); ("tdb-options", tdb_options cls)].

Definition config : M pval :=
  clustered <- is_clustered cls;;
  clustered <- truthy_of clustered;;
  if negb clustered then
    r <- ConfigService.config self;; store_val r
  else
    unhealthy <- unhealthy_of self cls (opt_value (service self));;
    if unhealthy then deepcopy (tdb_defaults cls)
    else
      tdb_config <- pcall "tdb.config" [tdb_args];;
      version <- psubscript tdb_config "version";;
      data <- psubscript tdb_config "data";;
      data <- (if is_none data then deepcopy (tdb_defaults cls) else ret data);;
      mismatch <- version_mismatch cls version;;
      data <- (if mismatch then mismatch_logged self;;; deepcopy (tdb_defaults cls)
               else ret data);;
      match datastore_extend self with
      | Some extend =>
          if truthy (VStr extend) then
            data <- load_val data;; pcall extend [data]
          else ret data
      | None => ret data
      end.

Definition direct_update (data : pval) : M pval :=
  clustered <- is_clustered cls;;
  clustered <- truthy_of clustered;;
  if negb clustered then
    id <- ppop data "id" (PInt 1);;
    id <- load_val id;;
    d <- load_val data;;
    call "datastore.update"
      [opt_value (datastore self); id; d;
       VDict [("prefix", VStr (datastore_prefix self))]];;;
    config
  else
    healthy <- cluster_healthy self cls;;
    healthy <- truthy_of healthy;;
    if negb healthy then raise (CallError unhealthy_message None VNone)
    else
      old <- pcall "tdb.config" [tdb_args];;
      version <- psubscript old "version";;
      new <- psubscript old "data";;
      new <- (if is_none new then deepcopy (tdb_defaults cls) else ret new);;
      pupdate new data;;;
      payload <- load_val new;;
      catch
        (call "tdb.config_update"
           [VDict [("name", opt_value (service self));
                   ("payload", VDict [("version", service_version cls);
                                      ("data", payload)]);
                   ("tdb-options", tdb_options cls)]];;;
         ret tt)
        (fun e =>
           match e with
           | ValueError =>
               Some (node <- node_version cls;;
                     major <- psubscript version "major";;
                     major <- load_val major;;
                     minor <- psubscript version "minor";;
                     minor <- load_val minor;;
                     raise (CallError
                              (namespace self ++ ": service version mismatch. "
                                 ++ "Node: " ++ node
                                 ++ "cluster: " ++ py_str major ++ "." ++ py_str minor)
                              None VNone))
           | _ => None
           end);;;
      tdb_config <- pcall "tdb.config" [tdb_args];;
      data <- psubscript tdb_config "data";;
      match datastore_extend self with
      | Some extend =>
          if truthy (VStr extend) then
            data <- load_val data;; pcall extend [data]
          else ret data
      | None => ret data
      end.

Definition do_update (data : pval) : M pval := direct_update data.
End Methods.
End TDBWrapConfigService.

Module TDBWrapCRUDService.
Section Methods.
Context {mw : Middleware}.
Variable self : Config.
Variable cls : TDB.

Definition tdb_args : value :=
  VDict [("name", VStr (namespace self)); ("tdb-options", tdb_options cls)].

Definition db_healthy : M pval := db_healthy_of self cls (VStr (namespace self)).

(** One [SET] per entry of the defaults. *)
Fixpoint default_ops (entries : list value) : res (list value) :=
  match entries with
  | [] => Ok []
  | entry :: rest =>
      match getitem entry "id" with
      | Raise e => Raise e
      | Ok i =>
          let val := match entry with
                     | VDict kvs => VDict (dict_pop "id" kvs)
                     | _ => entry
                     end in
          match default_ops rest with
          | Raise e => Raise e
          | Ok ops =>
              Ok (VDict [("action", VStr "SET");
                         ("key", VStr (namespace self ++ "_" ++ py_str i));
                         ("val", val)] :: ops)
          end
      end
  end.

Definition insert_defaults : M unit :=
  defaults <- load_val (tdb_defaults cls);;
  entries <- lift_res (iter_values defaults);;
  payload <- lift_res (default_ops entries);;
  call "tdb.batch_ops"
    [VDict [("name", VStr (namespace self)); ("ops", VList payload);
            ("tdb-options", tdb_options cls)]];;;
  ret tt.

(** [filter_list] on objects of the heap; the result is a new object. *)
Definition pfilter_list (rows filters options : pval) : M pval :=
  rows <- load_val rows;;
  filters <- load_val filters;;
  options <- load_val options;;
  r <- lift_res (filter_list rows filters options);;
  store_val r.

(** The loop that passes every entry through the extend method. *)
Fixpoint extend_all (extend : string) (entries : list pval) : M (list pval) :=
  match entries with
  | [] => ret []
  | entry :: rest =>
      entry <- load_val entry;;
      extended <- pcall extend [entry];;
      others <- extend_all extend rest;;
      ret (extended :: others)
  end.

Definition alloc (o : pobj) : M pval :=
  fun w => (Ok (PRef (length (heap w))), set_heap (heap w ++ [o]) w).

Definition query (filters options : pval) : M pval :=
  clustered <- is_clustered cls;;
  clustered <- truthy_of clustered;;
  if negb clustered then
    f <- load_val filters;;
    o <- load_val options;;
    res <- CRUDService.query self f o;;
    store_val res
  else
    unhealthy <- unhealthy_of self cls (VStr (namespace self));;
    if unhealthy then deepcopy (tdb_defaults cls)
    else
      res <- pcall "tdb.query" [tdb_args];;
      version <- psubscript res "version";;
      data <- psubscript res "data";;
      if is_none data then deepcopy (tdb_defaults cls)
      else
        mismatch <- version_mismatch cls version;;
        if mismatch then mismatch_logged self;;; deepcopy (tdb_defaults cls)
        else
          if negb (opt_truthy (datastore_extend self)) then
            pfilter_list data filters options
          else
            entries <- piter data;;
            extended <- extend_all (default "" (datastore_extend self)) entries;;
            have_defaults <- truthy_of (tdb_defaults cls);;
            to_filter <- (match extended with
                          | [] =>
                              if have_defaults
                              then insert_defaults;;; deepcopy (tdb_defaults cls)
                              else alloc (OList extended)
                          | _ => alloc (OList extended)
                          end);;
            pfilter_list to_filter filters options.

Definition version_error : M pval :=
  node <- node_version cls;;
  raise (CallError
           (namespace self ++ ": service version mismatch. " ++ "Node: " ++ node)
           None VNone).

Definition only_ValueError {A : Type} (k : M A) (e : exn) : option (M A) :=
  match e with
  | ValueError => Some k
  | _ => None
  end.

Definition direct_create (data : pval) : M pval :=
  clustered <- is_clustered cls;;
  clustered <- truthy_of clustered;;
  if negb clustered then
    d <- load_val data;;
    pcall "datastore.insert"
      [opt_value (datastore self); d;
       VDict [("prefix", VStr (datastore_prefix self))]]
  else
    healthy <- cluster_healthy self cls;;
    healthy <- truthy_of healthy;;
    if negb healthy then raise (CallError unhealthy_message None VNone)
    else
      d <- load_val data;;
      catch
        (pcall "tdb.create"
           [VDict [("name", VStr (namespace self));
                   ("payload", VDict [("version", service_version cls); ("data", d)]);
                   ("tdb-options", tdb_options cls)]])
        (only_ValueError version_error).

Definition do_create (data : pval) : M pval := direct_create data.

Definition direct_update (id data : pval) : M pval :=
  clustered <- is_clustered cls;;
  clustered <- truthy_of clustered;;
  if negb clustered then
    i <- load_val id;;
    d <- load_val data;;
    pcall "datastore.update"
      [opt_value (datastore self); i; d;
       VDict [("prefix", VStr (datastore_prefix self))]]
  else
    healthy <- cluster_healthy self cls;;
    healthy <- truthy_of healthy;;
    if negb healthy then raise (CallError unhealthy_message None VNone)
    else
      i <- load_val id;;
      d <- load_val data;;
      catch
        (pcall "tdb.update"
           [VDict [("name", VStr (namespace self));
                   ("id", i);
                   ("payload", VDict [("version", service_version cls); ("data", d)]);
                   ("tdb-options", tdb_options cls)]])
        (only_ValueError version_error).

Definition do_update (id data : pval) : M pval := direct_update id data.

Definition direct_delete (id : pval) : M pval :=
  clustered <- is_clustered cls;;
  clustered <- truthy_of clustered;;
  if negb clustered then
    i <- load_val id;;
    pcall "datastore.delete" [opt_value (datastore self); i]
  else
    healthy <- cluster_healthy self cls;;
    healthy <- truthy_of healthy;;
    if negb healthy then raise (CallError unhealthy_message None VNone)
    else
      i <- load_val id;;
      pcall "tdb.delete"
        [VDict [("name", VStr (namespace self));
                ("id", i);
                ("tdb-options", tdb_options cls)]].

Definition do_delete (id : pval) : M pval := direct_delete id.
End Methods.
End TDBWrapCRUDService.

(** ** Jobs and their locks *)

Module Jobs.

(** [lock] of [@job]: nothing, a constant name, or a function of the
    arguments of the call. *)
Inductive lock_spec : Type :=
| NoLock
| LockName (name : string)
| LockOf (f : list value -> string).

(** [fn._job], what the decorator [job] leaves on a method. *)
Record JobOptions : Type := mkJobOptions {
  lock : lock_spec;
  lock_queue_size : option nat;
  logs : bool;
  process : bool;
  pipes : list string;
  check_pipes : bool;
  transient : bool;
  description : option (list value -> string);
  abortable : bool;
}.

Definition job (lock : lock_spec) (lock_queue_size : option nat) (logs process : bool)
    (pipes : option (list string)) (check_pipes transient : bool)
    (description : option (list value -> string)) (abortable : bool) : JobOptions :=
  mkJobOptions lock lock_queue_size logs process (default [] pipes) check_pipes
    transient description abortable.

(** [@job()] with every default. *)
Definition job_defaults : JobOptions :=
  job NoLock None false false None true false None false.

Inductive State : Type := WAITING | RUNNING | SUCCESS | FAILED | ABORTED.

Record Job : Type := mkJob {
  id : nat;
  method : string;
  job_lock : option string;
  state : State;
}.

(** Modelled from the spec: the lock of section 3, a current holder and a
    FIFO wait queue of job ids.  The scheduler itself
    ([middlewared/job.py]) is not among the sources. *)
Record Lock : Type := mkLock {
  holder : option nat;
  queue : list nat;
}.

Record Scheduler : Type := mkScheduler {
  jobs : list Job;
  locks : gmap string Lock;
  next_id : nat;
}.

Definition empty : Scheduler := mkScheduler [] ∅ 1.

Definition lock_name (options : JobOptions) (args : list value) : option string :=
  match lock options with
  | NoLock => None
  | LockName name => Some name
  | LockOf f => Some (f args)
  end.

(** A lock is made, free, the first time its key is used. *)
Definition lock_of (s : Scheduler) (key : string) : Lock :=
  default (mkLock None []) (locks s !! key).

Definition add_job (j : Job) (s : Scheduler) : Scheduler :=
  mkScheduler (jobs s ++ [j]) (locks s) (S (next_id s)).

Definition set_lock (key : string) (l : Lock) (s : Scheduler) : Scheduler :=
  mkScheduler (jobs s) (<[key := l]> (locks s)) (next_id s).

(** Modelled from the spec: the admission of section 4.2.  A job without
    a lock runs at once; with a free lock it takes the lock and runs; with
    a held lock it waits at the end of the queue, unless the queue already
    has the declared maximum length: then no job is made and the id of the
    job at the tail of the queue is the answer. *)
Definition submit (name : string) (options : JobOptions) (args : list value)
    (s : Scheduler) : option nat * Scheduler :=
  match lock_name options args with
  | None =>
      (Some (next_id s), add_job (mkJob (next_id s) name None RUNNING) s)
  | Some key =>
      let l := lock_of s key in
      match holder l with
      | None =>
          (Some (next_id s),
           add_job (mkJob (next_id s) name (Some key) RUNNING)
             (set_lock key (mkLock (Some (next_id s)) (queue l)) s))
      | Some _ =>
          let full := match lock_queue_size options with
                      | Some n => (n <=? length (queue l))%nat
                      | None => false
                      end in
          if full then (last (queue l), s)
          else
            (Some (next_id s),
             add_job (mkJob (next_id s) name (Some key) WAITING)
               (set_lock key (mkLock (holder l) (queue l ++ [next_id s])) s))
      end
  end.

Definition set_state (i : nat) (st : State) (s : Scheduler) : Scheduler :=
  mkScheduler
    (map (fun j => if (id j =? i)%nat then mkJob (id j) (method j) (job_lock j) st else j)
       (jobs s))
    (locks s) (next_id s).

(** Modelled from the spec: when the holder of a lock completes, the head
    of the queue is taken off and runs. *)
Definition finish (i : nat) (st : State) (s : Scheduler) : Scheduler :=
  let s := set_state i st s in
  match list_find (fun j => id j = i) (jobs s) with
  | Some (_, j) =>
      match job_lock j with
      | Some key =>
          match queue (lock_of s key) with
          | next :: rest => set_state next RUNNING (set_lock key (mkLock (Some next) rest) s)
          | [] => set_lock key (mkLock None []) s
          end
      | None => s
      end
  | None => s
  end.

Definition is_waiting (st : State) : bool :=
  match st with
  | WAITING => true
  | _ => false
  end.

(** The jobs that are [WAITING] on a lock, oldest first. *)
Definition waiting_on (key : string) (s : Scheduler) : list nat :=
  map id (List.filter
            (fun j => bool_decide (job_lock j = Some key) && is_waiting (state j))
            (jobs s)).

Definition state_of (i : nat) (s : Scheduler) : option State :=
  state <$> (snd <$> list_find (fun j => id j = i) (jobs s)).
End Jobs.

(** * Theorems *)

(** ** Running the monad *)

Ltac run_monad :=
  unfold bind, ret, raise, lift_res, catch, emit, send_event, logger,
    call, call_method, call_hook in *; simpl in *.

Lemma bind_run {mw : Middleware} {A B : Type} (m : M A) (k : A -> M B) (w : World) :
  bind m k w = match m w with
               | (Ok a, w') => k a w'
               | (Raise e, w') => (Raise e, w')
               end.
Proof. reflexivity. Qed.

Lemma bind_ok {mw : Middleware} {A B : Type} (m : M A) (k : A -> M B) (w w' : World)
    (a : A) :
  m w = (Ok a, w') -> bind m k w = k a w'.
Proof. intros H. now rewrite bind_run, H. Qed.

Lemma bind_raise {mw : Middleware} {A B : Type} (m : M A) (k : A -> M B) (w w' : World)
    (e : exn) :
  m w = (Raise e, w') -> bind m k w = (Raise e, w').
Proof. intros H. now rewrite bind_run, H. Qed.

(** [big] contains [small]. *)
Definition contains (big small : string) : Prop :=
  exists before after, big = before ++ small ++ after.

Lemma string_app_cons (ch : ascii) (a b : string) : String ch a ++ b = String ch (a ++ b).
Proof. reflexivity. Qed.

Lemma string_app_nil_r (a : string) : a ++ "" = a.
Proof.
  induction a as [|ch a IH]; [reflexivity|].
  now rewrite string_app_cons, IH.
Qed.

Lemma string_app_assoc (a b c : string) : (a ++ b) ++ c = a ++ (b ++ c).
Proof.
  induction a as [|ch a IH]; [reflexivity|].
  now rewrite !string_app_cons, IH.
Qed.

Lemma contains_app_l (a b small : string) : contains a small -> contains (a ++ b) small.
Proof.
  intros (p & q & ->). exists p, (q ++ b).
  now rewrite !string_app_assoc.
Qed.

Lemma contains_app_r (a b small : string) : contains b small -> contains (a ++ b) small.
Proof.
  intros (p & q & ->). exists (a ++ p), q.
  now rewrite !string_app_assoc.
Qed.

Lemma contains_refl (s : string) : contains s s.
Proof.
  exists "", "". now rewrite string_app_nil_r.
Qed.

(** ** A small middleware to run the methods on

    A datastore of one table of disks and one of shares whose [disk_id]
    refers to a disk, a tdb file, a clock, and switches for what can fail. *)

Module Demo.

Record env : Type := mkEnv {
  clock : Q;
  disks : list value;
  shares : list value;
  settings : list value;        (* the table of a Config service *)
  hooks_fail : bool;            (* whether a post-hook raises *)
  ctdb_healthy : res value;     (* what [ctdb.general.healthy] answers *)
  tdb_health : res value;       (* what [tdb.health] answers *)
  tdb_file : value;             (* what [tdb.config] and [tdb.query] give *)
  tdb_rejects : bool;           (* whether a tdb write is rejected *)
}.

Definition disk (i : Z) (name : string) : value :=
  VDict [("id", VInt i); ("name", VStr name)].

Definition share (i disk_id : Z) : value :=
  VDict [("id", VInt i); ("disk_id", VInt disk_id)].

(** The rows whose column [k] is [v]. *)
Definition select (k : string) (v : value) (rows : list value) : list value :=
  List.filter (fun row => match getitem row k with
                          | Ok x => py_eqb x v
                          | Raise _ => false
                          end) rows.

Definition rows_of (e : env) (table : value) : list value :=
  match table with
  | VStr "storage.disk" => disks e
  | VStr "sharing.share" => shares e
  | _ => []
  end.

(** Filters of the one shape the methods here send: [[[k, "=", v]]]. *)
Definition apply_filters (filters : value) (rows : list value) : list value :=
  match filters with
  | VList [VList [VStr k; VStr "="; v]] => select k v rows
  | _ => rows
  end.

(** The extend method of the disks: [is_locked], which no column of the
    table holds, is true of disk 2. *)
Definition lock_extend (row : value) : value :=
  match row with
  | VDict kvs =>
      VDict (kvs ++ [("is_locked",
                      VBool (match dict_get "id" kvs with
                             | Some i => py_eqb i (VInt 2)
                             | None => false
                             end))])
  | _ => row
  end.

Definition set_disks (rows : list value) (e : env) : env :=
  mkEnv (clock e) rows (shares e) (settings e) (hooks_fail e) (ctdb_healthy e)
    (tdb_health e) (tdb_file e) (tdb_rejects e).

Definition set_settings (rows : list value) (e : env) : env :=
  mkEnv (clock e) (disks e) (shares e) rows (hooks_fail e) (ctdb_healthy e)
    (tdb_health e) (tdb_file e) (tdb_rejects e).

Definition set_tdb_file (v : value) (e : env) : env :=
  mkEnv (clock e) (disks e) (shares e) (settings e) (hooks_fail e) (ctdb_healthy e)
    (tdb_health e) v (tdb_rejects e).

Definition registered : value :=
  VDict [("disk", VDict [("type", VStr "crud");
                         ("config", VDict [("datastore", VStr "storage.disk")])]);
         ("share", VDict [("type", VStr "crud");
                          ("config", VDict [("datastore", VStr "sharing.share");
                                            ("datastore_prefix", VStr "")])])].

Definition demo_call (name : string) (args : list value) (e : env) : res value * env :=
  match name, args with
  | "disk.query", filters :: _ => (Ok (VList (apply_filters filters (disks e))), e)
  | "share.query", _ => (Ok (VList (shares e)), e)
  | "datastore.query", table :: filters :: rest =>
      let rows := apply_filters filters (rows_of e table) in
      (Ok (VList (match rest with
                  | options :: _ =>
                      match dot_get options "extend" with
                      | Ok (VStr "lock.extend") => map lock_extend rows
                      | _ => rows
                      end
                  | [] => rows
                  end)), e)
  | "datastore.config", _ =>
      (match settings e with
       | row :: _ => Ok row
       | [] => Raise IndexError
       end, e)
  | "datastore.insert", _ =>
      (Ok (VInt 1), set_settings (settings e ++ [VDict [("id", VInt 1)]]) e)
  | "datastore.get_backrefs", [VStr "storage.disk"] =>
      (Ok (VList [VList [VStr "sharing.share"; VStr "disk_id"]]), e)
  | "datastore.get_backrefs", _ => (Ok (VList []), e)
  | "core.get_services", _ => (Ok registered, e)
  | "smb.get_smb_ha_mode", _ => (Ok (VStr "CLUSTERED"), e)
  | "ctdb.general.healthy", _ => (ctdb_healthy e, e)
  | "tdb.health", _ => (tdb_health e, e)
  | "tdb.config", _ => (Ok (tdb_file e), e)
  | "tdb.query", _ => (Ok (tdb_file e), e)
  | "tdb.config_update", [VDict [_; ("payload", payload); _]] =>
      if tdb_rejects e then (Raise ValueError, e)
      else (Ok VNone, set_tdb_file payload e)
  | "lock.extend", [row] => (Ok (lock_extend row), e)
  | _, _ => (Raise (OtherError "unknown method"), e)
  end.

(** [do_create] appends the record with the next id, [do_update] gives
    the record back, [do_delete] drops the record. *)
Definition demo_method (name : string) (args : list value) (e : env)
  : res value * env :=
  match name, args with
  | "disk.create", [VDict kvs] =>
      let row := VDict (("id", VInt (Z.of_nat (S (length (disks e))))) :: kvs) in
      (Ok row, set_disks (disks e ++ [row]) e)
  | "disk.update", [i; VDict kvs] => (Ok (VDict (("id", i) :: kvs)), e)
  | "disk.delete", i :: _ =>
      (Ok (VBool true),
       set_disks (List.filter (fun row => negb (match getitem row "id" with
                                                | Ok x => py_eqb x i
                                                | Raise _ => false
                                                end)) (disks e)) e)
  | _, _ => (Raise (OtherError "unknown method"), e)
  end.

Definition demo_hook (name : string) (args : list value) (e : env) : res unit * env :=
  if hooks_fail e then (Raise (OtherError "hook failed"), e) else (Ok tt, e).

(** [filter_list], for what is needed here: the [get] and [count]
    options on rows filtered by [apply_filters]. *)
Definition demo_filter_list (rows filters options : value) : res value :=
  match rows with
  | VList rs =>
      let rs := apply_filters filters rs in
      if match dot_get options "count" with Ok v => truthy v | Raise _ => false end
      then Ok (VInt (Z.of_nat (length rs)))
      else if match dot_get options "get" with Ok v => truthy v | Raise _ => false end
           then match rs with
                | r :: _ => Ok r
                | [] => Raise (InstanceNotFound "no match")
                end
           else Ok (VList rs)
  | _ => Raise TypeError
  end.

Definition mw : Middleware :=
  Build_Middleware env demo_call demo_method demo_hook clock demo_filter_list.

Definition env0 : env :=
  mkEnv 100%Q [disk 1 "sda"; disk 2 "sdb"] [share 1 2] [] false
    (Ok (VBool true)) (Ok (VStr "OK")) (VDict [("version", VNone); ("data", VNone)])
    false.

Definition world (e : env) : @World mw := @mkWorld mw e [] PNone 0%Q [].

Definition disk_service : Config :=
  mkConfig (Some "storage.disk") "" None None "id" true None "disk" "Disk".

Definition locking_disk_service : Config :=
  mkConfig (Some "storage.disk") "" (Some "lock.extend") None "id" true None "disk"
    "Disk".
End Demo.

(** ** CRUDService: reading one record *)

Section GetInstance.
Context {mw : Middleware}.
Variable self : Config.

(** The filter [[[pk, "=", id]]]. *)
Definition by_primary_key (id : value) : value :=
  VList [VList [VStr (datastore_primary_key self); VStr "="; id]].

(** C8.  [get_instance(id)] makes one call, the query of its own
    namespace filtered by the primary key equal to [id].  When the query
    gives no row it raises [InstanceNotFound], with the verbose name of the
    service and the id in the message; otherwise it returns the first row
    of what the query gave (the query is where the extend method runs).
    [get_instance__sync] does the same. *)
Theorem get_instance_by_primary_key (id options : value) (w : World)
    (rows : list value) (e' : Env) :
  mw_call (namespace self ++ ".query") [by_primary_key id; options] (env w)
    = (Ok (VList rows), e') ->
  let w' := add_log (ECall (namespace self ++ ".query") [by_primary_key id; options]
                       (Ok (VList rows))) (set_env e' w) in
  let outcome :=
    match rows with
    | [] => Raise (InstanceNotFound
                     (verbose_name self ++ " " ++ py_str id ++ " does not exist"))
    | first :: _ => Ok first
    end in
  CRUDService.get_instance self id options w = (outcome, w') /\
  CRUDService.get_instance__sync self id options w = (outcome, w').
Proof.
  intros Hq. unfold CRUDService.get_instance, CRUDService.get_instance__sync.
  unfold by_primary_key in Hq. run_monad. rewrite Hq.
  destruct rows as [|first rest]; simpl; split; reflexivity.
Qed.
End GetInstance.

(** On the demo middleware: disk 2 is found, disk 7 is not. *)
Lemma get_instance_by_primary_key_witness :
  @CRUDService.get_instance Demo.mw Demo.disk_service (VInt 2) (VDict [])
     (Demo.world Demo.env0)
    = (Ok (Demo.disk 2 "sdb"),
       add_log (ECall "disk.query" [VList [VList [VStr "id"; VStr "="; VInt 2]]; VDict []]
                  (Ok (VList [Demo.disk 2 "sdb"])))
         (Demo.world Demo.env0)) /\
  fst (@CRUDService.get_instance Demo.mw Demo.disk_service (VInt 7) (VDict [])
         (Demo.world Demo.env0))
    = Raise (InstanceNotFound "Disk 7 does not exist").
Proof.
  split.
  - apply (@get_instance_by_primary_key Demo.mw Demo.disk_service (VInt 2) (VDict [])
             (Demo.world Demo.env0) [Demo.disk 2 "sdb"] Demo.env0).
    reflexivity.
  - pose proof (@get_instance_by_primary_key Demo.mw Demo.disk_service (VInt 7) (VDict [])
                  (Demo.world Demo.env0) [] Demo.env0 eq_refl) as [H _].
    rewrite H. reflexivity.
Defined.

(** ** CRUDService: create, update and delete *)

Section Mutations.
Context {mw : Middleware}.
Variable self : Config.

Inductive operation : Type :=
| Create (data : value)
| Update (id data : value)
| Delete (id : value) (args : list value).

Definition perform (op : operation) : M value :=
  match op with
  | Create data => CRUDService.create self data
  | Update id data => CRUDService.update self id data
  | Delete id args => CRUDService.delete self id args
  end.

(** The [do_*] method an operation runs, its arguments, and the hook that
    follows it. *)
Definition do_name (op : operation) : string :=
  namespace self ++ match op with
                    | Create _ => ".create"
                    | Update _ _ => ".update"
                    | Delete _ _ => ".delete"
                    end.

Definition do_args (op : operation) : list value :=
  match op with
  | Create data => [data]
  | Update id data => [id; data]
  | Delete id args => id :: args
  end.

Definition post_hook (op : operation) : string :=
  namespace self ++ match op with
                    | Create _ => ".post_create"
                    | Update _ _ => ".post_update"
                    | Delete _ _ => ".post_delete"
                    end.

Definition is_send (ev : event) : bool :=
  match ev with
  | ESend _ _ _ => true
  | _ => false
  end.

Lemma perform_unfold (op : operation) (w : World) :
  perform op w =
    let (r1, e1) := mw_method (do_name op) (do_args op) (env w) in
    let w1 := add_log (EMethod (do_name op) (do_args op) r1) (set_env e1 w) in
    match r1 with
    | Raise x => (Raise x, w1)
    | Ok rv =>
        let (r2, e2) := mw_hook (post_hook op) [rv] e1 in
        let w2 := add_log (EHook (post_hook op) [rv] r2) (set_env e2 w1) in
        match r2 with
        | Raise x => (Raise x, w2)
        | Ok _ =>
            (Ok rv,
             if event_send self then
               match op with
               | Create _ =>
                   match CRUDService.id_of rv with
                   | Some i => add_log (ESend (namespace self ++ ".query") "ADDED"
                                          [("id", i); ("fields", rv)]) w2
                   | None => w2
                   end
               | Update _ _ =>
                   match CRUDService.id_of rv with
                   | Some i => add_log (ESend (namespace self ++ ".query") "CHANGED"
                                          [("id", i); ("fields", rv)]) w2
                   | None => w2
                   end
               | Delete id _ =>
                   add_log (ESend (namespace self ++ ".query") "REMOVED" [("id", id)])
                     (add_log (ESend (namespace self ++ ".query") "CHANGED"
                                 [("id", id); ("cleared", VBool true)]) w2)
               end
             else w2)
        end
    end.
Proof.
  destruct op; unfold perform, CRUDService.create, CRUDService.update,
    CRUDService.delete, do_name, do_args, post_hook; run_monad.
  all: destruct (mw_method _ _ (env w)) as [[rv|x] e1]; simpl; [|reflexivity].
  all: destruct (mw_hook _ _ e1) as [[[]|x] e2]; simpl; [|reflexivity].
  all: destruct (event_send self); simpl; [|reflexivity].
  1,2: destruct (CRUDService.id_of rv); reflexivity.
  reflexivity.
Qed.

(** C1.  With event sending on, each of create, update and delete first
    runs its [do_*] method; when that raises, nothing else happens.  When
    it returns, the post-hook runs on what it returned; when the hook
    raises, the error goes to the caller, no notification is sent, and the
    outside stays as [do_*] and the hook left it: nothing is called to
    undo the change.  Only when the hook returns are notifications sent,
    all of them after the hook in the trace: [ADDED] for create and
    [CHANGED] for update (when the result is a record with an [id], and
    nothing when it is not), [CHANGED] with [cleared] and then [REMOVED]
    for delete. *)
Theorem notification_follows_post_hook (op : operation) (w : World) :
  event_send self = true ->
  let (r1, e1) := mw_method (do_name op) (do_args op) (env w) in
  let done := EMethod (do_name op) (do_args op) r1 in
  let (r, w') := perform op w in
  match r1 with
  | Raise x => r = Raise x /\ env w' = e1 /\ log w' = (log w ++ [done])%list
  | Ok rv =>
      let (r2, e2) := mw_hook (post_hook op) [rv] e1 in
      let hooked := EHook (post_hook op) [rv] r2 in
      env w' = e2 /\
      match r2 with
      | Raise x => r = Raise x /\ log w' = (log w ++ [done; hooked])%list
      | Ok _ =>
          r = Ok rv /\
          exists sent,
            log w' = (log w ++ [done; hooked] ++ sent)%list /\
            forallb is_send sent = true /\
            sent =
              match op with
              | Create _ =>
                  match CRUDService.id_of rv with
                  | Some i => [ESend (namespace self ++ ".query") "ADDED"
                                 [("id", i); ("fields", rv)]]
                  | None => []
                  end
              | Update _ _ =>
                  match CRUDService.id_of rv with
                  | Some i => [ESend (namespace self ++ ".query") "CHANGED"
                                 [("id", i); ("fields", rv)]]
                  | None => []
                  end
              | Delete id _ =>
                  [ESend (namespace self ++ ".query") "CHANGED"
                     [("id", id); ("cleared", VBool true)];
                   ESend (namespace self ++ ".query") "REMOVED" [("id", id)]]
              end
      end
  end.
Proof.
  intros Hsend. rewrite perform_unfold, Hsend.
  destruct (mw_method _ _ (env w)) as [[rv|x] e1]; simpl.
  2: { repeat split. }
  destruct (mw_hook _ _ e1) as [[[]|x] e2]; simpl.
  2: { repeat split. now rewrite <- app_assoc. }
  destruct op; simpl.
  1,2: destruct (CRUDService.id_of rv) as [i|] eqn:Hid; simpl.
  all: repeat split; eexists; split; [now rewrite <- !app_assoc|];
    split; reflexivity.
Qed.
End Mutations.

(** On the demo middleware: a create whose post-hook fails raises, sends
    nothing, and the new disk stays in the table. *)
Lemma notification_follows_post_hook_witness :
  let e := Demo.mkEnv 100%Q [Demo.disk 1 "sda"] [] [] true (Ok (VBool true))
             (Ok (VStr "OK")) VNone false in
  let new_disk := VDict [("id", VInt 2); ("name", VStr "sdb")] in
  event_send Demo.disk_service = true /\
  let (r, w') := @perform Demo.mw Demo.disk_service (Create (VDict [("name", VStr "sdb")]))
                   (Demo.world e) in
  Demo.disks (env w') = [Demo.disk 1 "sda"; new_disk] /\
  r = Raise (OtherError "hook failed") /\
  log w' = [EMethod "disk.create" [VDict [("name", VStr "sdb")]] (Ok new_disk);
            EHook "disk.post_create" [new_disk] (Raise (OtherError "hook failed"))].
Proof.
  intros e new_disk. split; [reflexivity|].
  pose proof (@notification_follows_post_hook Demo.mw Demo.disk_service
                (Create (VDict [("name", VStr "sdb")])) (Demo.world e) eq_refl) as H.
  revert H. vm_compute. intros (He & Hr & Hl).
  split; [reflexivity|]. split; [exact Hr | exact Hl].
Defined.

(** ** Dictionaries *)

Lemma dict_get_set_eq {A : Type} (k : string) (v : A) (d : list (string * A)) :
  dict_get k (dict_set k v d) = Some v.
Proof.
  induction d as [|[k' v'] d IH]; simpl.
  - now rewrite String.eqb_refl.
  - destruct (String.eqb k k') eqn:E; simpl; rewrite E; [reflexivity | exact IH].
Qed.

Lemma dict_get_set_ne {A : Type} (k k' : string) (v : A) (d : list (string * A)) :
  k <> k' -> dict_get k' (dict_set k v d) = dict_get k' d.
Proof.
  intros Hne. induction d as [|[k0 v0] d IH]; simpl.
  - destruct (String.eqb_spec k' k); congruence.
  - destruct (String.eqb_spec k k0) as [->|]; simpl.
    + destruct (String.eqb_spec k' k0); congruence.
    + destruct (String.eqb_spec k' k0); [reflexivity | exact IH].
Qed.

Lemma dict_get_pop_eq {A : Type} (k : string) (d : list (string * A)) :
  dict_get k (dict_pop k d) = None.
Proof.
  induction d as [|[k' v'] d IH]; simpl; [reflexivity|].
  destruct (String.eqb k k') eqn:E; simpl; [exact IH | now rewrite E].
Qed.

Lemma dict_get_pop_ne {A : Type} (k k' : string) (d : list (string * A)) :
  k <> k' -> dict_get k' (dict_pop k d) = dict_get k' d.
Proof.
  intros Hne. induction d as [|[k0 v0] d IH]; simpl; [reflexivity|].
  destruct (String.eqb_spec k k0) as [->|]; simpl.
  - destruct (String.eqb_spec k' k0); congruence.
  - destruct (String.eqb_spec k' k0); [reflexivity | exact IH].
Qed.

Lemma dict_set_not_nil {A : Type} (k : string) (v : A) (d : list (string * A)) :
  dict_set k v d <> [].
Proof. destruct d as [|[k' v'] d]; simpl; [|destruct (String.eqb k k')]; discriminate. Qed.

(** ** CRUDService: where the filters are applied *)

Section Query.
Context {mw : Middleware}.
Variable self : Config.

(** The options after [get_options]. *)
Definition all_options (kvs : list (string * value)) : list (string * value) :=
  dict_set "prefix" (VStr (datastore_prefix self))
    (dict_set "extend_context" (opt_value (datastore_extend_context self))
       (dict_set "extend" (opt_value (datastore_extend self)) kvs)).

Lemma get_options_dict (kvs : list (string * value)) (w : World) :
  CRUDService.get_options self (VDict kvs) w = (Ok (VDict (all_options kvs)), w).
Proof.
  unfold CRUDService.get_options. destruct kvs; reflexivity.
Qed.

Lemma all_options_extend (kvs : list (string * value)) :
  dict_get "extend" (all_options kvs) = Some (opt_value (datastore_extend self)).
Proof.
  unfold all_options.
  rewrite !dict_get_set_ne by discriminate. apply dict_get_set_eq.
Qed.

Lemma all_options_other (kvs : list (string * value)) (k : string) :
  k <> "extend" -> k <> "extend_context" -> k <> "prefix" ->
  dict_get k (all_options kvs) = dict_get k kvs.
Proof.
  intros H1 H2 H3. unfold all_options.
  now rewrite !dict_get_set_ne by congruence.
Qed.

Lemma query_run (fs : list value) (kvs : list (string * value))
    (fsf : value) (ds : string) (w : World) :
  datastore self = Some ds -> ds <> "" ->
  dict_get "force_sql_filters" kvs = Some fsf ->
  CRUDService.query self (VList fs) (VDict kvs) w =
    if negb (truthy fsf) && opt_truthy (datastore_extend self) then
      (result <- call "datastore.query"
                   [VStr ds; VList [];
                    VDict (dict_pop "get" (dict_pop "count" (all_options kvs)))];;
       lift_res (filter_list result (VList fs) (VDict (all_options kvs)))) w
    else
      call "datastore.query" [VStr ds; VList fs; VDict (all_options kvs)] w.
Proof.
  intros Hds Hne Hfsf.
  assert (Hf : dict_get "force_sql_filters" (all_options kvs) = Some fsf).
  { now rewrite all_options_other by discriminate. }
  assert (Htr : opt_truthy (datastore self) = true).
  { rewrite Hds. unfold opt_truthy. simpl. now destruct (String.eqb_spec ds ""). }
  assert (Hfs : (if truthy (VList fs) then VList fs else VList []) = VList fs).
  { now destruct fs. }
  unfold CRUDService.query. rewrite Htr, Hfs, Hds. cbn [negb opt_value].
  rewrite (bind_ok _ _ _ _ _ (get_options_dict kvs w)).
  rewrite (bind_ok _ _ w w fsf) by (unfold lift_res; simpl; now rewrite Hf).
  destruct (truthy fsf) eqn:Efsf.
  - reflexivity.
  - rewrite (bind_ok _ _ w w (opt_value (datastore_extend self)))
      by (unfold lift_res; simpl; now rewrite all_options_extend).
    unfold opt_truthy.
    destruct (truthy (opt_value (datastore_extend self))); reflexivity.
Qed.

(** C4.  A service with a datastore, called with a list of filters and
    options that carry [force_sql_filters].  [get_options] adds the extend
    method of the service to the options and leaves the caller's other
    options as they are.  When there is an extend method and
    [force_sql_filters] is not set, the one call to the datastore has no
    filters and options without [get] and [count] (the rest, the extend
    method among them, as in the options), and the result of the query is
    [filter_list] of the rows the datastore gave, with the caller's
    filters and the full options.  Otherwise the caller's filters and the
    options go to the datastore and its answer is the result. *)
Theorem query_filters_after_extend (fs : list value) (kvs : list (string * value))
    (fsf : value) (ds : string) (w : World) :
  datastore self = Some ds -> ds <> "" ->
  dict_get "force_sql_filters" kvs = Some fsf ->
  let options := all_options kvs in
  dict_get "extend" options = Some (opt_value (datastore_extend self)) /\
  dict_get "get" options = dict_get "get" kvs /\
  dict_get "count" options = dict_get "count" kvs /\
  if negb (truthy fsf) && opt_truthy (datastore_extend self) then
    let datastore_options := dict_pop "get" (dict_pop "count" options) in
      dict_get "get" datastore_options = None /\
      dict_get "count" datastore_options = None /\
      (forall k, k <> "get" -> k <> "count" ->
                 dict_get k datastore_options = dict_get k options) /\
      let sent := [VStr ds; VList []; VDict datastore_options] in
      let (r, e') := mw_call "datastore.query" sent (env w) in
      CRUDService.query self (VList fs) (VDict kvs) w =
        (match r with
         | Ok rows => filter_list rows (VList fs) (VDict options)
         | Raise e => Raise e
         end,
         add_log (ECall "datastore.query" sent r) (set_env e' w))
  else
    let sent := [VStr ds; VList fs; VDict options] in
    let (r, e') := mw_call "datastore.query" sent (env w) in
    CRUDService.query self (VList fs) (VDict kvs) w =
      (r, add_log (ECall "datastore.query" sent r) (set_env e' w)).
Proof.
  intros Hds Hne Hfsf options.
  split; [apply all_options_extend|].
  split; [now apply all_options_other|].
  split; [now apply all_options_other|].
  rewrite (query_run fs kvs fsf ds w Hds Hne Hfsf). fold options.
  destruct (negb (truthy fsf) && opt_truthy (datastore_extend self)).
  - intros datastore_options. subst datastore_options.
    split; [apply dict_get_pop_eq|].
    split; [rewrite dict_get_pop_ne by discriminate; apply dict_get_pop_eq|].
    split.
    { intros k Hg Hc. now rewrite !dict_get_pop_ne by congruence. }
    unfold bind, call, lift_res. simpl.
    destruct (mw_call _ _ (env w)) as [[rows|e] e']; reflexivity.
  - unfold call. simpl.
    destruct (mw_call _ _ (env w)) as [r e']. reflexivity.
Qed.
End Query.

(** On the demo middleware: [is_locked] is a field only the extend method
    gives; the filter on it finds disk 2, because it is applied to the
    extended rows. *)
Lemma query_filters_after_extend_witness :
  fst (@CRUDService.query Demo.mw Demo.locking_disk_service
         (VList [VList [VStr "is_locked"; VStr "="; VBool true]])
         (VDict [("force_sql_filters", VBool false)]) (Demo.world Demo.env0))
    = Ok (VList [VDict [("id", VInt 2); ("name", VStr "sdb"); ("is_locked", VBool true)]]).
Proof.
  pose proof (@query_filters_after_extend Demo.mw Demo.locking_disk_service
                [VList [VStr "is_locked"; VStr "="; VBool true]]
                [("force_sql_filters", VBool false)] (VBool false) "storage.disk"
                (Demo.world Demo.env0) eq_refl ltac:(discriminate) eq_refl)
    as (_ & _ & _ & H).
  simpl in H. destruct H as (_ & _ & _ & H).
  rewrite H. reflexivity.
Defined.

(** ** Jobs: a full wait queue *)

Section LockQueue.
Import Jobs.

(** C9.  A method whose [@job] declares the lock [key] with
    [lock_queue_size] [n]; the lock is held and [n] jobs, the last of them
    [tail], are in its wait queue.  Submitting the method once more changes
    nothing in the scheduler: no job is made, no id is used up, the queue is
    as it was; the answer is the id of [tail]. *)
Theorem full_queue_returns_tail (name : string) (options : JobOptions)
    (args : list value) (s : Scheduler) (key : string) (n : nat)
    (running : nat) (waiting : list nat) (tail : nat) :
  lock_name options args = Some key ->
  lock_queue_size options = Some n ->
  locks s !! key = Some (mkLock (Some running) (waiting ++ [tail])) ->
  length (waiting ++ [tail]) = n ->
  submit name options args s = (Some tail, s).
Proof.
  intros Hkey Hsize Hlock Hlen. unfold submit, lock_of.
  rewrite Hkey, Hlock, Hsize. simpl.
  rewrite <- Hlen, Nat.leb_refl.
  now rewrite last_snoc.
Qed.
End LockQueue.

(** The scenario of the specification: lock [disk:sda], queue size 1.  Job
    1 takes the lock and runs, job 2 waits, and the third submission is
    answered with 2, whatever its arguments. *)
Definition wipe_options : Jobs.JobOptions :=
  Jobs.job (Jobs.LockName "disk:sda") (Some 1) false false None true false None false.

Definition two_wipes : Jobs.Scheduler :=
  snd (Jobs.submit "disk.wipe" wipe_options [VStr "sda"]
         (snd (Jobs.submit "disk.wipe" wipe_options [VStr "sda"] Jobs.empty))).

Lemma full_queue_returns_tail_witness :
  Jobs.state_of 1 two_wipes = Some Jobs.RUNNING /\
  Jobs.state_of 2 two_wipes = Some Jobs.WAITING /\
  Jobs.waiting_on "disk:sda" two_wipes = [2] /\
  Jobs.submit "disk.wipe" wipe_options [VStr "sda"; VStr "QUICK"] two_wipes
    = (Some 2, two_wipes).
Proof.
  split; [reflexivity|]. split; [reflexivity|]. split; [reflexivity|].
  apply (full_queue_returns_tail "disk.wipe" wipe_options [VStr "sda"; VStr "QUICK"]
           two_wipes "disk:sda" 1 1 [] 2); reflexivity.
Defined.

(** ** CRUDService: the dependency guard *)

Lemma dict_set_in {A : Type} (k : string) (v : A) (d : list (string * A)) (k' : string)
    (v' : A) :
  In (k', v') (dict_set k v d) -> (k' = k /\ v' = v) \/ In (k', v') d.
Proof.
  induction d as [|[k0 v0] d IH]; simpl.
  - intros [[= <- <-]|[]]. now left.
  - destruct (String.eqb_spec k k0) as [->|]; simpl.
    + intros [[= <- <-]|H]; [now left | right; now right].
    + intros [H|H]; [right; now left|].
      destruct (IH H) as [?|?]; [now left | right; now right].
Qed.

Lemma dict_keys_set {A : Type} (k : string) (v : A) (d : list (string * A)) (k' : string) :
  In k' (dict_keys (dict_set k v d)) <-> k' = k \/ In k' (dict_keys d).
Proof.
  unfold dict_keys. induction d as [|[k0 v0] d IH]; simpl.
  - intuition.
  - destruct (String.eqb_spec k k0) as [->|]; simpl; [intuition|].
    rewrite IH. intuition.
Qed.

Section Dependencies.
Context {mw : Middleware}.
Variable self : Config.
Variable id : value.
Variable ignored : gset string.
Variable services : list (string * (string * value)).

(** The query that looks for the rows of datastore [d] whose column [fk]
    refers to the object. *)
Definition backref_query (d fk : string) : list value :=
  [VStr d; VList [VList [VStr fk; VStr "="; id]]].

(** Whether a datastore is passed over: it is ignored, or the service that
    owns it is. *)
Definition skipped (d : string) : bool :=
  bool_decide (d ∈ ignored) ||
  match dict_get d services with
  | Some (name, _) => bool_decide (name ∈ ignored)
  | None => false
  end.

(** The name the message gives a dependency: the service that owns the
    datastore, when there is one with a name, or else the datastore. *)
Definition owner (d : string) : string :=
  match dict_get d services with
  | Some (name, _) => if String.eqb name "" then d else name
  | None => d
  end.

Definition owner_kind (d : string) : string :=
  match dict_get d services with
  | Some (name, _) => if String.eqb name "" then "Datastore" else "Service"
  | None => "Datastore"
  end.

(** The shape of an entry of the dependencies. *)
Definition dependency_of (d : string) (dep : value) : Prop :=
  exists rest,
    dep = VDict (("datastore", VStr d)
                 :: ("service", match dict_get d services with
                                | Some (name, _) => VStr name
                                | None => VNone
                                end) :: rest).

Definition one_argument (ev : event) : Prop :=
  exists name a r, ev = ECall name [a] r.

(** What the loop over the back references did: which of them it passed
    over, what the queries of the others gave, and what it recorded. *)
Inductive loop_trace
  : list value -> list (string * value) -> list (string * value) -> list event -> Prop :=
| trace_done deps : loop_trace [] deps deps []
| trace_skipped item d fk items deps deps' new :
    CRUDService.unpack_backref item = Ok (d, fk) ->
    skipped d = true ->
    loop_trace items deps deps' new ->
    loop_trace (item :: items) deps deps' new
| trace_unused item d fk objs items deps deps' new :
    CRUDService.unpack_backref item = Ok (d, fk) ->
    skipped d = false ->
    truthy objs = false ->
    loop_trace items deps deps' new ->
    loop_trace (item :: items) deps deps'
      (ECall "datastore.query" (backref_query d fk) (Ok objs) :: new)
| trace_used item d fk objs extra dep items deps deps' new :
    CRUDService.unpack_backref item = Ok (d, fk) ->
    skipped d = false ->
    truthy objs = true ->
    Forall one_argument extra ->
    dependency_of d dep ->
    loop_trace items (dict_set d dep deps) deps' new ->
    loop_trace (item :: items) deps deps'
      (ECall "datastore.query" (backref_query d fk) (Ok objs) :: extra ++ new).

Lemma log_add_log (ev : event) (w : World) : log (add_log ev w) = (log w ++ [ev])%list.
Proof. reflexivity. Qed.

Lemma dependency_data_trace (service : option (string * value * value)) (fk : string)
    (objects : value) (w w' : World) (data : list (string * value)) :
  CRUDService.dependency_data service fk objects w = (Ok data, w') ->
  exists k v extra,
    data = [(k, v)] /\ (k = "objects" \/ k = "key") /\
    log w' = (log w ++ extra)%list /\ Forall one_argument extra.
Proof.
  unfold CRUDService.dependency_data.
  destruct service as [[[name type] svc]|].
  2: { intros [= <- <-]. exists "objects", objects, []. rewrite app_nil_r. auto. }
  run_monad.
  destruct (getitem svc "config") as [c|]; [|discriminate].
  destruct (dot_get c "datastore_prefix") as [prefix|]; [|discriminate].
  destruct (CRUDService.strip_prefix prefix fk) as [col|]; [|discriminate].
  destruct (py_eqb type (VStr "crud")).
  - destruct (match iter_values objects with
              | Ok os => CRUDService.object_ids os
              | Raise e => Raise e
              end) as [ids|]; [|discriminate].
    unfold call.
    destruct (mw_call _ _ (env w)) as [[objs|] e']; [|discriminate].
    intros [= <- <-]. exists "objects", objs, [ECall (name ++ ".query")
      [VList [VList [VStr "id"; VStr "in"; VList ids]]] (Ok objs)].
    repeat split; auto. constructor; [|constructor].
    now eexists _, _, _.
  - intros [= <- <-].
    destruct (py_eqb type (VStr "config")); eexists _, _, [];
      rewrite app_nil_r; repeat split; auto.
Qed.

Lemma dependency_step_trace (deps deps' : list (string * value)) (item : value)
    (items : list value) (final : list (string * value)) (new : list event)
    (w w' : World) :
  CRUDService.dependency_step id ignored services deps item w = (Ok deps', w') ->
  loop_trace items deps' final new ->
  exists step, log w' = (log w ++ step)%list /\
               loop_trace (item :: items) deps final (step ++ new).
Proof.
  unfold CRUDService.dependency_step. intros Hstep Hrest.
  rewrite bind_run in Hstep. unfold lift_res at 1 in Hstep.
  destruct (CRUDService.unpack_backref item) as [[d fk]|] eqn:Hitem; [|discriminate].
  cbv zeta in Hstep. cbn [fst snd] in Hstep.
  destruct (bool_decide (d ∈ ignored)) eqn:Hd.
  { unfold ret in Hstep; injection Hstep as <- <-. exists []. rewrite app_nil_r. split; [reflexivity|].
    eapply trace_skipped; eauto. unfold skipped. now rewrite Hd. }
  rewrite bind_run in Hstep.
  destruct (dict_get d services) as [[name svc]|] eqn:Hsvc.
  - rewrite bind_run in Hstep. unfold lift_res at 1 in Hstep.
    destruct (getitem svc "type") as [type|]; [|discriminate].
    unfold ret at 1 in Hstep.
    destruct (bool_decide (name ∈ ignored)) eqn:Hname.
    { unfold ret in Hstep; injection Hstep as <- <-. exists []. rewrite app_nil_r. split; [reflexivity|].
      eapply trace_skipped; eauto. unfold skipped. now rewrite Hd, Hsvc, Hname. }
    assert (Hskip : skipped d = false) by (unfold skipped; now rewrite Hd, Hsvc, Hname).
    rewrite bind_run in Hstep. unfold call at 1 in Hstep.
    destruct (mw_call _ _ (env w)) as [[objs|] e']; [|discriminate].
    destruct (truthy objs) eqn:Hobjs.
    + rewrite bind_run in Hstep.
      destruct (CRUDService.dependency_data _ _ _ _) as [[data|] w1] eqn:Hdata;
        [|discriminate].
      unfold ret in Hstep; injection Hstep as <- <-.
      apply dependency_data_trace in Hdata as (k & v & extra & -> & Hk & Hlog & Hextra).
      rewrite log_add_log in Hlog. simpl in Hlog.
      eexists (_ :: extra). split.
      { rewrite Hlog, <- app_assoc. reflexivity. }
      simpl. eapply trace_used; eauto.
      unfold dependency_of. rewrite Hsvc.
      destruct Hk as [-> | ->]; simpl; eauto.
    + unfold ret in Hstep; injection Hstep as <- <-. eexists [_]. split; [reflexivity|].
      simpl. eapply trace_unused; eauto.
  - unfold ret at 1 in Hstep.
    assert (Hskip : skipped d = false) by (unfold skipped; now rewrite Hd, Hsvc).
    rewrite bind_run in Hstep. unfold call at 1 in Hstep.
    destruct (mw_call _ _ (env w)) as [[objs|] e']; [|discriminate].
    destruct (truthy objs) eqn:Hobjs.
    + unfold ret in Hstep; injection Hstep as <- <-. eexists [_]. split; [reflexivity|].
      simpl. eapply (trace_used _ _ _ _ []); eauto.
      unfold dependency_of. rewrite Hsvc. simpl. eauto.
    + unfold ret in Hstep; injection Hstep as <- <-. eexists [_]. split; [reflexivity|].
      simpl. eapply trace_unused; eauto.
Qed.

Lemma dependency_loop_trace (items : list value) (deps final : list (string * value))
    (w w' : World) :
  CRUDService.dependency_loop id ignored services deps items w = (Ok final, w') ->
  exists new, log w' = (log w ++ new)%list /\ loop_trace items deps final new.
Proof.
  revert deps w. induction items as [|item items IH]; intros deps w; simpl.
  - intros [= <- <-]. exists []. rewrite app_nil_r. split; [reflexivity|constructor].
  - rewrite bind_run.
    destruct (CRUDService.dependency_step _ _ _ _ _ _) as [[deps1|] w1] eqn:Hstep;
      [|discriminate].
    intros Hloop. destruct (IH _ _ Hloop) as (new & Hlog & Htrace).
    destruct (dependency_step_trace _ _ _ _ _ _ _ _ Hstep Htrace) as (step & Hlog1 & Ht).
    exists (step ++ new)%list. split; [|exact Ht].
    now rewrite Hlog, Hlog1, <- app_assoc.
Qed.

Lemma one_argument_not_backref (extra : list event) (d : string) (fl : value)
    (r : res value) :
  Forall one_argument extra -> ~ In (ECall "datastore.query" [VStr d; fl] r) extra.
Proof.
  intros Hall Hin. rewrite Forall_forall in Hall.
  destruct (Hall _ (proj2 (list_elem_of_In _ _) Hin)) as (name & a & r' & [=]).
Qed.

(** Every back reference that is not passed over is queried. *)
Lemma trace_consulted (items : list value) (deps final : list (string * value))
    (new : list event) :
  loop_trace items deps final new ->
  forall item d fk,
    In item items -> CRUDService.unpack_backref item = Ok (d, fk) ->
    skipped d = false ->
    exists objs, In (ECall "datastore.query" (backref_query d fk) (Ok objs)) new.
Proof.
  induction 1 as [deps|item0 d0 fk0 items deps deps' new Hu Hs _ IH
                 |item0 d0 fk0 objs items deps deps' new Hu Hs Ht _ IH
                 |item0 d0 fk0 objs extra dep items deps deps' new Hu Hs Ht He Hd _ IH];
    intros item d fk Hin Hitem Hskip.
  - destruct Hin.
  - destruct Hin as [<-|Hin]; [congruence | eauto].
  - destruct Hin as [<-|Hin].
    + rewrite Hu in Hitem. injection Hitem as <- <-. exists objs. now left.
    + destruct (IH _ _ _ Hin Hitem Hskip) as [o Ho]. exists o. now right.
  - destruct Hin as [<-|Hin].
    + rewrite Hu in Hitem. injection Hitem as <- <-. exists objs. now left.
    + destruct (IH _ _ _ Hin Hitem Hskip) as [o Ho]. exists o. right.
      apply in_or_app. now right.
Qed.

(** No datastore that is passed over is queried. *)
Lemma trace_skips_ignored (items : list value) (deps final : list (string * value))
    (new : list event) :
  loop_trace items deps final new ->
  forall d fl r, In (ECall "datastore.query" [VStr d; fl] r) new -> skipped d = false.
Proof.
  induction 1 as [deps|item0 d0 fk0 items deps deps' new Hu Hs _ IH
                 |item0 d0 fk0 objs items deps deps' new Hu Hs Ht _ IH
                 |item0 d0 fk0 objs extra dep items deps deps' new Hu Hs Ht He Hd _ IH];
    intros d fl r Hin.
  - destruct Hin.
  - eauto.
  - destruct Hin as [[= <- <- <-]|Hin]; eauto.
  - destruct Hin as [[= <- <- <-]|Hin]; [assumption|].
    apply in_app_or in Hin as [Hin|Hin]; [|eauto].
    now apply one_argument_not_backref in Hin.
Qed.

(** The dependencies are the datastores whose query gave rows. *)
Lemma trace_keys (items : list value) (deps final : list (string * value))
    (new : list event) :
  loop_trace items deps final new ->
  forall d,
    In d (dict_keys final) <->
    In d (dict_keys deps) \/
    exists fk objs,
      In (ECall "datastore.query" (backref_query d fk) (Ok objs)) new /\
      truthy objs = true.
Proof.
  induction 1 as [deps|item0 d0 fk0 items deps deps' new Hu Hs _ IH
                 |item0 d0 fk0 objs items deps deps' new Hu Hs Ht _ IH
                 |item0 d0 fk0 objs extra dep items deps deps' new Hu Hs Ht He Hd _ IH];
    intros d.
  - split; [now left|]. intros [H|(fk & objs & [] & _)]. exact H.
  - apply IH.
  - rewrite IH. split; (intros [H|(fk & o & Hin & Ho)]; [now left|right]).
    + exists fk, o. split; [now right | exact Ho].
    + destruct Hin as [[= <- <- <-]|Hin]; [congruence|]. eauto.
  - rewrite IH, dict_keys_set. split.
    + intros [[->|H]|(fk & o & Hin & Ho)].
      * right. exists fk0, objs. split; [now left | exact Ht].
      * now left.
      * right. exists fk, o. split; [|exact Ho]. right. apply in_or_app. now right.
    + intros [H|(fk & o & Hin & Ho)]; [left; now right|].
      destruct Hin as [[= <- <- <-]|Hin]; [left; now left|].
      apply in_app_or in Hin as [Hin|Hin].
      * now apply one_argument_not_backref in Hin.
      * right. eauto.
Qed.

Lemma trace_entries (items : list value) (deps final : list (string * value))
    (new : list event) :
  loop_trace items deps final new ->
  (forall d dep, In (d, dep) deps -> dependency_of d dep) ->
  forall d dep, In (d, dep) final -> dependency_of d dep.
Proof.
  induction 1 as [deps|item0 d0 fk0 items deps deps' new Hu Hs _ IH
                 |item0 d0 fk0 objs items deps deps' new Hu Hs Ht _ IH
                 |item0 d0 fk0 objs extra dep0 items deps deps' new Hu Hs Ht He Hd _ IH];
    intros Hdeps; auto.
  apply IH. intros d dep Hin.
  apply dict_set_in in Hin as [[-> ->]|Hin]; auto.
Qed.

(** The lines of the message, one for each entry, each with the name of
    the service or datastore between quotes and what it is. *)
Lemma dependency_lines_named (vals : list value) :
  (forall dep, In dep vals -> exists d, dependency_of d dep) ->
  forall index, exists lines,
    CRUDService.dependency_lines index vals = Ok lines /\
    forall dep d, In dep vals -> dependency_of d dep ->
      contains lines (repr_str (owner d) ++ " " ++ owner_kind d).
Proof.
  induction vals as [|dep vals IH]; intros Hall index.
  - exists "". split; [reflexivity|]. intros ? ? [].
  - destruct (IH (fun dep' H => Hall dep' (or_intror H)) (S index)) as (lines & Hl & Hn).
    destruct (Hall dep (or_introl eq_refl)) as (d & rest & ->).
    simpl CRUDService.dependency_lines. unfold owner, owner_kind in *.
    destruct (dict_get d services) as [[name svc]|] eqn:Hsvc; simpl truthy.
    + destruct (String.eqb name "") eqn:Hname; cbn [negb]; simpl getitem; rewrite Hl.
      all: eexists; split; [reflexivity|].
      all: intros dep' d' [<-|Hin] Hdep';
        [|repeat apply contains_app_r; eauto].
      all: destruct Hdep' as (rest' & Hdep'); injection Hdep' as <- _; rewrite Hsvc, Hname.
      all: do 2 apply contains_app_r.
      all: rewrite <- !string_app_assoc; do 2 apply contains_app_l; apply contains_refl.
    + simpl getitem. rewrite Hl. eexists; split; [reflexivity|].
      intros dep' d' [<-|Hin] Hdep';
        [|repeat apply contains_app_r; eauto].
      destruct Hdep' as (rest' & Hdep'); injection Hdep' as <- _. rewrite Hsvc.
      do 2 apply contains_app_r.
      rewrite <- !string_app_assoc; do 2 apply contains_app_l; apply contains_refl.
Qed.
End Dependencies.

Section DependencyGuard.
Context {mw : Middleware}.
Variable self : Config.

Lemma in_dict_keys {A : Type} (k : string) (d : list (string * A)) :
  In k (dict_keys d) -> exists v, In (k, v) d.
Proof.
  unfold dict_keys. rewrite in_map_iff. intros ([k' v] & <- & H). now exists v.
Qed.

Lemma in_dict_values {A : Type} (k : string) (v : A) (d : list (string * A)) :
  In (k, v) d -> In v (dict_values d).
Proof. intros H. unfold dict_values. apply in_map_iff. now exists (k, v). Qed.

(** C6.  When [get_dependencies] returns, it has asked for the registered
    services and for the back references of the datastore of this service,
    and then, in [new]: it has queried, for rows that refer to [id], every
    back reference whose datastore is not passed over, and no datastore that
    is passed over, a datastore being passed over when it or the service
    that owns it is in [ignored].  The dependencies it returns are the
    datastores whose query gave rows.  [check_dependencies] returns
    normally when there are none; otherwise it raises a [CallError] with
    errno [EBUSY] that carries the list of the dependencies and whose
    message has, for each of them, the name of the owning service, or of the
    datastore when no service owns it, between quotes. *)
Theorem dependencies_refuse_delete (id : value) (ignored : gset string) (w w' : World)
    (deps : list (string * value)) :
  CRUDService.get_dependencies self id ignored w = (Ok deps, w') ->
  exists registered services backrefs items new,
    log w' = (log w ++ [ECall "core.get_services" [] (Ok (VDict registered));
                        ECall "datastore.get_backrefs" [opt_value (datastore self)]
                          (Ok backrefs)] ++ new)%list /\
    CRUDService.services_by_datastore registered [] = Ok services /\
    iter_values backrefs = Ok items /\
    (forall item d fk,
        In item items -> CRUDService.unpack_backref item = Ok (d, fk) ->
        skipped ignored services d = false ->
        exists objs, In (ECall "datastore.query" (backref_query id d fk) (Ok objs)) new) /\
    (forall d fl r,
        In (ECall "datastore.query" [VStr d; fl] r) new ->
        skipped ignored services d = false) /\
    (forall d,
        In d (dict_keys deps) <->
        exists fk objs,
          In (ECall "datastore.query" (backref_query id d fk) (Ok objs)) new /\
          truthy objs = true) /\
    match deps with
    | [] => CRUDService.check_dependencies self id ignored w = (Ok VNone, w')
    | _ =>
        exists msg,
          CRUDService.check_dependencies self id ignored w =
            (Raise (CallError msg (Some EBUSY)
                      (VDict [("dependencies", VList (dict_values deps))])), w') /\
          forall d, In d (dict_keys deps) ->
            contains msg (repr_str (owner services d) ++ " " ++ owner_kind services d)
    end.
Proof.
  intros Hget. pose proof Hget as Hrun.
  unfold CRUDService.get_dependencies in Hrun.
  rewrite bind_run in Hrun. unfold call at 1 in Hrun.
  destruct (mw_call "core.get_services" [] (env w)) as [[registered|] e1]; [|discriminate].
  rewrite bind_run in Hrun. unfold lift_res at 1 in Hrun.
  destruct registered as [| | | | |registered]; try discriminate.
  destruct (CRUDService.services_by_datastore registered []) as [services|] eqn:Hsvc;
    [|discriminate].
  rewrite bind_run in Hrun. unfold call at 1 in Hrun. simpl env in Hrun.
  destruct (mw_call "datastore.get_backrefs" _ e1) as [[backrefs|] e2]; [|discriminate].
  rewrite bind_run in Hrun. unfold lift_res at 1 in Hrun.
  destruct (iter_values backrefs) as [items|] eqn:Hitems; [|discriminate].
  apply dependency_loop_trace in Hrun as (new & Hlog & Htrace).
  exists registered, services, backrefs, items, new.
  split. { rewrite Hlog. simpl. now rewrite <- !app_assoc. }
  split; [exact Hsvc|]. split; [exact Hitems|].
  split; [exact (trace_consulted _ _ _ _ _ _ _ Htrace)|].
  split; [exact (trace_skips_ignored _ _ _ _ _ _ _ Htrace)|].
  split.
  { intros d. rewrite (trace_keys _ _ _ _ _ _ _ Htrace d). simpl. intuition. }
  assert (Hentries : forall d dep, In (d, dep) deps -> dependency_of services d dep).
  { apply (trace_entries _ _ _ _ _ _ _ Htrace). intros ? ? []. }
  unfold CRUDService.check_dependencies. rewrite bind_run, Hget.
  destruct deps as [|[d0 dep0] deps]; [reflexivity|].
  remember ((d0, dep0) :: deps) as all eqn:Hall.
  destruct (dependency_lines_named services (dict_values all)) with (index := 0)
    as (lines & Hlines & Hnamed).
  { intros dep Hin. unfold dict_values in Hin. apply in_map_iff in Hin as ([d dep'] & <- & Hin).
    exists d. now apply Hentries. }
  rewrite bind_run. unfold lift_res at 1. rewrite Hlines.
  eexists. split; [reflexivity|].
  intros d Hd. apply in_dict_keys in Hd as [dep Hd].
  do 2 apply contains_app_r.
  apply (Hnamed dep d); [now apply in_dict_values with d | now apply Hentries].
Qed.
End DependencyGuard.

(** On the demo middleware: disk 2 is used by a share, and the message
    says so; with the share service ignored the check passes. *)
Definition demo_dependencies : list (string * value) :=
  [("sharing.share",
    VDict [("datastore", VStr "sharing.share"); ("service", VStr "share");
           ("objects", VList [Demo.share 1 2])])].

Definition after_dependencies (ignored : gset string) : @World Demo.mw :=
  snd (@CRUDService.get_dependencies Demo.mw Demo.disk_service (VInt 2) ignored
         (Demo.world Demo.env0)).

Lemma dependencies_refuse_delete_witness :
  (exists msg extra,
      fst (@CRUDService.check_dependencies Demo.mw Demo.disk_service (VInt 2) ∅
             (Demo.world Demo.env0))
        = Raise (CallError msg (Some EBUSY) extra) /\
      contains msg "'share' Service") /\
  fst (@CRUDService.check_dependencies Demo.mw Demo.disk_service (VInt 2) {["share"]}
         (Demo.world Demo.env0)) = Ok VNone.
Proof.
  split.
  - destruct (@dependencies_refuse_delete Demo.mw Demo.disk_service (VInt 2) ∅
                (Demo.world Demo.env0) (after_dependencies ∅) demo_dependencies)
      as (registered & services & backrefs & items & new & Hlog & Hsvc & _ & _ & _ & _ & H).
    { reflexivity. }
    cbv [after_dependencies] in Hlog. simpl log in Hlog.
    injection Hlog as <- _ _.
    vm_compute in Hsvc. injection Hsvc as <-.
    destruct H as (msg & Hcheck & Hmsg).
    exists msg. eexists.
    split; [rewrite Hcheck; reflexivity|].
    exact (Hmsg "sharing.share" (or_introl eq_refl)).
  - destruct (@dependencies_refuse_delete Demo.mw Demo.disk_service (VInt 2) {["share"]}
                (Demo.world Demo.env0) (after_dependencies {["share"]}) [])
      as (_ & _ & _ & _ & _ & _ & _ & _ & _ & _ & _ & H).
    { reflexivity. }
    now rewrite H.
Defined.

(** ** ConfigService: the first calls of [config] *)

Section GetOrInsertSequence.
Context {mw : Middleware}.
Variable self : Config.

(** One caller on its own: the order of what [_get_or_insert] does. *)
Lemma get_or_insert_sequence (ds options : value) (w : World) :
  let read := [ds; options] in
  let (r1, e1) := mw_call "datastore.config" read (env w) in
  let w1 := add_log (ECall "datastore.config" read r1) (set_env e1 w) in
  ConfigService._get_or_insert ds options w =
    match r1 with
    | Raise IndexError =>
        let w2 := add_log (EAcquire "get_or_insert_lock") w1 in
        let (r2, e2) := mw_call "datastore.config" read e1 in
        let w3 := add_log (ECall "datastore.config" read r2) (set_env e2 w2) in
        match r2 with
        | Raise IndexError =>
            let (r3, e3) := mw_call "datastore.insert" [ds; VDict []] e2 in
            let w4 := add_log (ECall "datastore.insert" [ds; VDict []] r3)
                        (set_env e3 w3) in
            match r3 with
            | Ok _ =>
                let (r4, e4) := mw_call "datastore.config" read e3 in
                (r4, add_log (ERelease "get_or_insert_lock")
                       (add_log (ECall "datastore.config" read r4) (set_env e4 w4)))
            | Raise e => (Raise e, add_log (ERelease "get_or_insert_lock") w4)
            end
        | _ => (r2, add_log (ERelease "get_or_insert_lock") w3)
        end
    | _ => (r1, w1)
    end.
Proof.
  unfold ConfigService._get_or_insert, ConfigService.with_get_or_insert_lock,
    ConfigService.only_IndexError, catch, bind, call. simpl.
  destruct (mw_call "datastore.config" [ds; options] (env w)) as [[row|e] e1];
    [reflexivity|].
  destruct e; try reflexivity. simpl.
  destruct (mw_call "datastore.config" [ds; options] e1) as [[row|e] e2];
    [reflexivity|].
  destruct e; try reflexivity. simpl.
  destruct (mw_call "datastore.insert" [ds; VDict []] e2) as [[i|e] e3];
    [|reflexivity]. simpl.
  destruct (mw_call "datastore.config" [ds; options] e3) as [r4 e4]. reflexivity.
Qed.
End GetOrInsertSequence.

Section GetOrInsertRace.
Import GetOrInsert.

(** What holds of every state the callers can get to. *)
Record invariant (s : state) : Prop := mkInvariant {
  holder_is_locked : forall i p, pcs s !! i = Some p -> holds_lock p = true ->
                                 lock s = Some i;
  locked_is_holder : forall i, lock s = Some i ->
                               exists p, pcs s !! i = Some p /\ holds_lock p = true;
  inserts_are_rows : inserts s = length (table s);
  at_most_one_row : length (table s) <= 1;
  insert_on_empty : forall i, pcs s !! i = Some Insert -> table s = [];
  reread_finds : forall i, pcs s !! i = Some ThirdRead -> table s <> [];
  returned_the_row : forall i row, pcs s !! i = Some (Returned row) -> table s = [row];
  never_raised : forall i e, pcs s !! i <> Some (Raised e);
}.

Lemma invariant_init (n : nat) : invariant (init n).
Proof.
  split; simpl; try lia; try reflexivity.
  - intros i p H. apply lookup_replicate in H as [-> _]. discriminate.
  - intros i [=].
  - intros i H. apply lookup_replicate in H as [[=] _].
  - intros i row H. apply lookup_replicate in H as [[=] _].
  - intros i e H. apply lookup_replicate in H as [[=] _].
Qed.

Lemma lookup_insert_cases (l : list pc) (i j : nat) (p p0 q : pc) :
  l !! i = Some p0 -> <[i := p]> l !! j = Some q ->
  (j = i /\ q = p) \/ (j <> i /\ l !! j = Some q).
Proof.
  intros Hi Hj. destruct (decide (i = j)) as [<-|Hne].
  - rewrite list_lookup_insert_eq in Hj by (now apply lookup_lt_Some in Hi).
    injection Hj as <-. now left.
  - rewrite list_lookup_insert_ne in Hj by assumption. right. split; congruence.
Qed.

Lemma lookup_insert_holder (l : list pc) (i k : nat) (p p0 q : pc) :
  l !! i = Some p0 -> holds_lock p0 = false ->
  l !! k = Some q -> holds_lock q = true ->
  <[i := p]> l !! k = Some q.
Proof.
  intros Hi Hp0 Hk Hq. rewrite list_lookup_insert_ne; [exact Hk|].
  intros ->. congruence.
Qed.

Ltac by_cases Hi :=
  repeat match goal with
    | H : <[_ := _]> _ !! _ = Some _ |- _ =>
        destruct (lookup_insert_cases _ _ _ _ _ _ Hi H) as [[-> ?]|[? ?]]; clear H
    end;
  subst; try discriminate; try congruence; eauto.

Ltac keep_holder Hi Hlock :=
  match goal with
  | H : lock _ = Some ?k |- exists p, _ =>
      destruct (Hlock _ H) as (?q & ?Hq & ?Hh); exists q; split;
      [eapply lookup_insert_holder; eauto | assumption]
  end.

Ltac not_raised Hi Hnever :=
  match goal with
  | |- _ <> Some (Raised _) =>
      let Hj := fresh "Hj" in intros Hj; by_cases Hi; eapply Hnever; eauto
  end.

(** The row a read returned is the only row. *)
Ltac only_row Hi Hone :=
  match goal with
  | H : <[_ := _]> _ !! _ = Some (Returned _) |- _ :: ?t = [_] =>
      destruct (lookup_insert_cases _ _ _ _ _ _ Hi H) as [[-> E]|[? ?]];
      [injection E as ->; destruct t; [reflexivity | simpl in Hone; lia] | eauto]
  end.

(** Two coroutines cannot both be where the lock is held. *)
Ltac one_holder Hi Hhold Hme :=
  match goal with
  | H : <[_ := _]> _ !! ?j = Some ?p, Hp : holds_lock ?p = true |- _ =>
      destruct (lookup_insert_cases _ _ _ _ _ _ Hi H) as [[-> E]|[Hne Hj]];
      [subst; try discriminate; try reflexivity
      |pose proof (Hhold _ _ Hj Hp); congruence]
  | H : <[_ := _]> _ !! ?j = Some Insert |- _ =>
      destruct (lookup_insert_cases _ _ _ _ _ _ Hi H) as [[-> E]|[Hne Hj]];
      [discriminate | pose proof (Hhold _ _ Hj eq_refl); congruence]
  end.

(** The coroutine that moved still holds the lock. *)
Ltac still_holder Hi Hme :=
  match goal with
  | H : lock _ = Some ?k |- exists p, <[_ := ?q]> _ !! _ = Some p /\ _ =>
      rewrite Hme in H; injection H as <-; exists q; split;
      [apply list_lookup_insert_eq; now apply lookup_lt_Some in Hi | reflexivity]
  | H : Some _ = Some ?k |- exists p, <[_ := ?q]> _ !! _ = Some p /\ _ =>
      injection H as <-; exists q; split;
      [apply list_lookup_insert_eq; now apply lookup_lt_Some in Hi | reflexivity]
  end.

Lemma invariant_step (i : nat) (s s' : state) :
  invariant s -> step i s = Some s' -> invariant s'.
Proof.
  intros [Hhold Hlock Hins Hone Hempty Hfind Hret Hnever] Hstep.
  unfold step in Hstep.
  destruct (pcs s !! i) as [p|] eqn:Hi; [|discriminate].
  destruct p; try discriminate.
  - (* FirstRead *)
    destruct (table s) as [|row t] eqn:Ht; simpl in Hstep; injection Hstep as <-.
    all: split; simpl; rewrite ?Ht; auto; intros.
    all: try (by_cases Hi; fail).
    all: try (keep_holder Hi Hlock; fail).
    all: try (not_raised Hi Hnever; fail).
    only_row Hi Hone.
  - (* WantLock *)
    destruct (lock s) as [k|] eqn:Hk; [discriminate|]. injection Hstep as <-.
    split; simpl; auto; intros.
    all: try (by_cases Hi; fail).
    all: try (not_raised Hi Hnever; fail).
    + one_holder Hi Hhold Hk.
    + still_holder Hi Hk.
  - (* SecondRead *)
    assert (Hme : lock s = Some i) by (eapply Hhold; eauto).
    destruct (table s) as [|row t] eqn:Ht; simpl in Hstep; injection Hstep as <-.
    all: split; simpl; rewrite ?Ht; auto; intros.
    all: try (by_cases Hi; fail).
    all: try (not_raised Hi Hnever; fail).
    + still_holder Hi Hme.
    + one_holder Hi Hhold Hme.
    + only_row Hi Hone.
  - (* Insert *)
    assert (Hme : lock s = Some i) by (eapply Hhold; eauto).
    assert (Ht : table s = []) by eauto.
    injection Hstep as <-.
    split; simpl; rewrite ?Ht; auto; intros.
    all: try (by_cases Hi; fail).
    all: try (not_raised Hi Hnever; fail).
    + still_holder Hi Hme.
    + rewrite Ht in Hins. unfold datastore_insert. simpl in *. lia.
    + one_holder Hi Hhold Hme.
    + by_cases Hi. match goal with H : pcs s !! _ = Some (Returned _) |- _ =>
        apply Hret in H; congruence end.
  - (* ThirdRead *)
    assert (Hme : lock s = Some i) by (eapply Hhold; eauto).
    assert (Hrow : table s <> []) by eauto.
    destruct (table s) as [|row t] eqn:Ht; [congruence|].
    simpl in Hstep; injection Hstep as <-.
    split; simpl; rewrite ?Ht; auto; intros.
    all: try (by_cases Hi; fail).
    all: try (not_raised Hi Hnever; fail).
    + one_holder Hi Hhold Hme.
    + only_row Hi Hone.
Qed.

Lemma invariant_run (schedule : list nat) (s : state) :
  invariant s -> invariant (run schedule s).
Proof.
  revert s. induction schedule as [|i rest IH]; intros s Hs; simpl; [exact Hs|].
  destruct (step i s) as [s'|] eqn:Hstep; eauto using invariant_step.
Qed.

Lemma step_pcs (i : nat) (s s' : state) :
  step i s = Some s' ->
  exists p p', pcs s !! i = Some p /\ pcs s' = <[i := p']> (pcs s) /\
               remaining p' < remaining p.
Proof.
  unfold step. intros Hstep.
  destruct (pcs s !! i) as [p|] eqn:Hi; [|discriminate].
  exists p. destruct p; try discriminate.
  - destruct (datastore_config (table s)) as [row|[]]; injection Hstep as <-;
      eexists; (split; [reflexivity|]); (split; [reflexivity|]); simpl; lia.
  - destruct (lock s); [discriminate|]. injection Hstep as <-.
    eexists; (split; [reflexivity|]); (split; [reflexivity|]); simpl; lia.
  - destruct (datastore_config (table s)) as [row|[]]; injection Hstep as <-;
      eexists; (split; [reflexivity|]); (split; [reflexivity|]); simpl; lia.
  - injection Hstep as <-.
    eexists; (split; [reflexivity|]); (split; [reflexivity|]); simpl; lia.
  - destruct (datastore_config (table s)) as [row|e]; injection Hstep as <-;
      eexists; (split; [reflexivity|]); (split; [reflexivity|]); simpl; lia.
Qed.

(** The steps all the coroutines together still have to make, at most. *)
Definition work (s : state) : nat := list_sum (map remaining (pcs s)).

Lemma work_insert (l : list pc) (i : nat) (p p' : pc) :
  l !! i = Some p -> remaining p' < remaining p ->
  list_sum (map remaining (<[i := p']> l)) < list_sum (map remaining l).
Proof.
  revert i. induction l as [|q l IH]; intros [|i] Hi Hlt; try discriminate; simpl in *.
  - injection Hi as ->. lia.
  - specialize (IH i Hi Hlt). lia.
Qed.

Lemma step_work (i : nat) (s s' : state) : step i s = Some s' -> work s' < work s.
Proof.
  intros Hstep. destruct (step_pcs _ _ _ Hstep) as (p & p' & Hi & Hs & Hlt).
  unfold work. rewrite Hs. eauto using work_insert.
Qed.

Lemma step_length (i : nat) (s s' : state) :
  step i s = Some s' -> length (pcs s') = length (pcs s).
Proof.
  intros Hstep. destruct (step_pcs _ _ _ Hstep) as (p & p' & Hi & Hs & Hlt).
  rewrite Hs. apply length_insert.
Qed.

Lemma run_length (schedule : list nat) (s : state) :
  length (pcs (run schedule s)) = length (pcs s).
Proof.
  revert s. induction schedule as [|i rest IH]; intros s; simpl; [reflexivity|].
  destruct (step i s) as [s'|] eqn:Hstep; [|apply IH].
  rewrite IH. eauto using step_length.
Qed.

Lemma unfinished (l : list pc) :
  forallb finished l = false -> exists i p, l !! i = Some p /\ finished p = false.
Proof.
  induction l as [|q l IH]; simpl; [discriminate|].
  destruct (finished q) eqn:Hq; simpl.
  - intros H. destruct (IH H) as (i & p & Hi & Hp). now exists (S i), p.
  - intros _. now exists 0, q.
Qed.

(** A coroutine can always move while one of them has not finished: there is
    no deadlock. *)
Lemma progress (s : state) :
  invariant s -> forallb finished (pcs s) = false -> exists i s', step i s = Some s'.
Proof.
  intros Hinv Hsome. apply unfinished in Hsome as (i & p & Hi & Hp).
  destruct (lock s) as [k|] eqn:Hk.
  - destruct (locked_is_holder _ Hinv k Hk) as (q & Hq & Hh).
    exists k. unfold step. rewrite Hq.
    destruct q; try discriminate.
    + destruct (datastore_config (table s)) as [row|[]]; eauto.
    + eauto.
    + destruct (datastore_config (table s)) as [row|e]; eauto.
  - exists i. unfold step. rewrite Hi, Hk.
    destruct p; try discriminate.
    + destruct (datastore_config (table s)) as [row|[]]; eauto.
    + eauto.
    + pose proof (holder_is_locked _ Hinv i _ Hi eq_refl). congruence.
    + pose proof (holder_is_locked _ Hinv i _ Hi eq_refl). congruence.
    + pose proof (holder_is_locked _ Hinv i _ Hi eq_refl). congruence.
Qed.

Lemma finished_returned (s : state) :
  invariant s -> forallb finished (pcs s) = true -> all_returned s = true.
Proof.
  intros Hinv. unfold all_returned. rewrite !forallb_forall.
  intros Hall p Hp. specialize (Hall p Hp).
  destruct p; try discriminate; [reflexivity|].
  apply list_elem_of_In, list_elem_of_lookup in Hp as [i Hi].
  now destruct (never_raised _ Hinv i e).
Qed.

(** Every run can be brought to its end, where every caller has returned. *)
Lemma completion (n : nat) (s : state) :
  invariant s -> work s <= n -> exists rest, all_returned (run rest s) = true.
Proof.
  revert s. induction n as [|n IH]; intros s Hinv Hwork.
  - destruct (forallb finished (pcs s)) eqn:Hfin.
    + exists []. now apply finished_returned.
    + destruct (progress s Hinv Hfin) as (i & s' & Hstep).
      apply step_work in Hstep. lia.
  - destruct (forallb finished (pcs s)) eqn:Hfin.
    + exists []. now apply finished_returned.
    + destruct (progress s Hinv Hfin) as (i & s' & Hstep).
      destruct (IH s') as [rest Hrest].
      * eauto using invariant_step.
      * apply step_work in Hstep. lia.
      * exists (i :: rest). simpl. now rewrite Hstep.
Qed.

(** C5.  A caller of [config()] on its own reads the row; when the read
    raises [IndexError] it takes [get_or_insert_lock] and reads again; only
    when that read raises [IndexError] too does it insert the empty record,
    and then it reads the row it inserted; the lock is given back in every
    case.  And for any number [n] of callers that start on an empty table,
    in whatever order the event loop resumes them: at every moment the
    number of inserts made is the number of rows, and at most one; no caller
    ever ends in an error; a caller that has returned has returned the one
    row there is, so one insert was made; the run can always be brought to
    the point where all callers have returned, and then, when there is a
    caller at all, exactly one insert was made. *)
Theorem exactly_one_default_row :
  (forall (mw : Middleware) (ds options : value) (w : World),
      let read := [ds; options] in
      let (r1, e1) := mw_call "datastore.config" read (env w) in
      let w1 := add_log (ECall "datastore.config" read r1) (set_env e1 w) in
      ConfigService._get_or_insert ds options w =
        match r1 with
        | Raise IndexError =>
            let w2 := add_log (EAcquire "get_or_insert_lock") w1 in
            let (r2, e2) := mw_call "datastore.config" read e1 in
            let w3 := add_log (ECall "datastore.config" read r2) (set_env e2 w2) in
            match r2 with
            | Raise IndexError =>
                let (r3, e3) := mw_call "datastore.insert" [ds; VDict []] e2 in
                let w4 := add_log (ECall "datastore.insert" [ds; VDict []] r3)
                            (set_env e3 w3) in
                match r3 with
                | Ok _ =>
                    let (r4, e4) := mw_call "datastore.config" read e3 in
                    (r4, add_log (ERelease "get_or_insert_lock")
                           (add_log (ECall "datastore.config" read r4) (set_env e4 w4)))
                | Raise e => (Raise e, add_log (ERelease "get_or_insert_lock") w4)
                end
            | _ => (r2, add_log (ERelease "get_or_insert_lock") w3)
            end
        | _ => (r1, w1)
        end) /\
  (forall (n : nat) (schedule : list nat),
      let s := run schedule (init n) in
      inserts s = length (table s) /\
      inserts s <= 1 /\
      (forall i e, pcs s !! i <> Some (Raised e)) /\
      (forall i row, pcs s !! i = Some (Returned row) ->
                     inserts s = 1 /\ table s = [row]) /\
      (exists rest, all_returned (run rest s) = true) /\
      (0 < n -> all_returned s = true -> inserts s = 1)).
Proof.
  split; [intros mw ds options w; apply get_or_insert_sequence|].
  intros n schedule s.
  assert (Hinv : invariant s) by apply invariant_run, invariant_init.
  assert (Hrow : forall i row, pcs s !! i = Some (Returned row) ->
                               inserts s = 1 /\ table s = [row]).
  { intros i row Hi. pose proof (returned_the_row _ Hinv i row Hi) as Ht.
    split; [|exact Ht]. now rewrite (inserts_are_rows _ Hinv), Ht. }
  split; [apply (inserts_are_rows _ Hinv)|].
  split; [rewrite (inserts_are_rows _ Hinv); apply (at_most_one_row _ Hinv)|].
  split; [apply (never_raised _ Hinv)|].
  split; [exact Hrow|].
  split; [eapply completion; eauto|].
  intros Hn Hall.
  assert (Hlen : length (pcs s) = n).
  { unfold s. rewrite run_length. simpl. apply length_replicate. }
  destruct (pcs s !! 0) as [p|] eqn:H0.
  - unfold all_returned in Hall. rewrite forallb_forall in Hall.
    assert (Hp : returned p = true).
    { apply Hall, list_elem_of_In, list_elem_of_lookup. eauto. }
    destruct p; try discriminate. now destruct (Hrow 0 row H0).
  - apply lookup_ge_None in H0. lia.
Qed.

(** Three callers, resumed in turn: each of the three sees the empty
    table, one of them inserts, and all return the same row. *)
Example three_callers :
  let s := run [0; 1; 2; 0; 1; 2; 0; 1; 2; 0; 1; 2; 0; 1; 2; 1; 2; 2; 2] (init 3) in
  pcs s = replicate 3 (Returned (VDict [("id", VInt 1)])) /\
  table s = [VDict [("id", VInt 1)]] /\ inserts s = 1 /\ lock s = None.
Proof. repeat split. Qed.
End GetOrInsertRace.

Open Scope list_scope.

(** ** The heap *)

(** Induction on trees, with the hypothesis for every element of a list and
    every value of a dictionary. *)
Lemma value_induction (P : value -> Prop) :
  P VNone -> (forall b, P (VBool b)) -> (forall z, P (VInt z)) -> (forall s, P (VStr s)) ->
  (forall xs, Forall P xs -> P (VList xs)) ->
  (forall kvs, Forall (fun kv => P (snd kv)) kvs -> P (VDict kvs)) ->
  forall v, P v.
Proof.
  intros HN HB HI HS HL HD.
  fix IH 1. intros [|b|z|s|xs|kvs].
  - exact HN.
  - apply HB.
  - apply HI.
  - apply HS.
  - apply HL. induction xs as [|x xs IHxs]; constructor; [apply IH | exact IHxs].
  - apply HD. induction kvs as [|kv kvs IHkvs]; constructor; [apply IH | exact IHkvs].
Qed.

(** The lists of [store], by name. *)
Fixpoint store_list (xs : list value) (h : list pobj) : list pobj * list pval :=
  match xs with
  | [] => (h, [])
  | x :: xs' =>
      let (h1, p) := store x h in
      let (h2, ps) := store_list xs' h1 in
      (h2, p :: ps)
  end.

Fixpoint store_items (kvs : list (string * value)) (h : list pobj)
  : list pobj * list (string * pval) :=
  match kvs with
  | [] => (h, [])
  | kv :: kvs' =>
      let (h1, p) := store (snd kv) h in
      let (h2, ps) := store_items kvs' h1 in
      (h2, (fst kv, p) :: ps)
  end.

Lemma store_VList (xs : list value) (h : list pobj) :
  store (VList xs) h =
    let (h', ps) := store_list xs h in ((h' ++ [OList ps])%list, PRef (length h')).
Proof.
  simpl. 
  assert (E : forall xs h, (fix go (xs : list value) (h : list pobj) : list pobj * list pval :=
           match xs with
           | [] => (h, [])
           | x :: xs' =>
               let (h1, p) := store x h in
               let (h2, ps) := go xs' h1 in
               (h2, p :: ps)
           end) xs h = store_list xs h).
  { clear. induction xs as [|x xs IH]; intros h; simpl; [reflexivity|].
    destruct (store x h) as [h1 p]. now rewrite IH. }
  now rewrite E.
Qed.

Lemma store_VDict (kvs : list (string * value)) (h : list pobj) :
  store (VDict kvs) h =
    let (h', ps) := store_items kvs h in ((h' ++ [ODict ps])%list, PRef (length h')).
Proof.
  simpl.
  assert (E : forall kvs h, (fix go (kvs : list (string * value)) (h : list pobj)
           : list pobj * list (string * pval) :=
           match kvs with
           | [] => (h, [])
           | kv :: kvs' =>
               let (h1, p) := store (snd kv) h in
               let (h2, ps) := go kvs' h1 in
               (h2, (fst kv, p) :: ps)
           end) kvs h = store_items kvs h).
  { clear. induction kvs as [|x xs IH]; intros h; simpl; [reflexivity|].
    destruct (store (snd x) h) as [h1 p]. now rewrite IH. }
  now rewrite E.
Qed.

(** How many references one inside the other a tree needs. *)
Fixpoint depth (t : value) : nat :=
  match t with
  | VList xs => S (list_max (map depth xs))
  | VDict kvs => S (list_max (map (fun kv => depth (snd kv)) kvs))
  | _ => 0
  end.

Lemma fmap_list_Some {A : Type} (f : list A -> value) (o : option (list A)) (t : value) :
  f <$> o = Some t -> exists ts, o = Some ts /\ t = f ts.
Proof. destruct o as [ts|]; simpl; [|discriminate]. intros [= <-]. eauto. Qed.

(** A heap [h2] that has every object of [h] where [h] has it. *)
Definition agrees (h h2 : list pobj) : Prop :=
  forall l o, h !! l = Some o -> h2 !! l = Some o.

Lemma agrees_app (h ext : list pobj) : agrees h (h ++ ext).
Proof. intros l o H. now apply lookup_app_l_Some. Qed.

Lemma agrees_trans (h1 h2 h3 : list pobj) : agrees h1 h2 -> agrees h2 h3 -> agrees h1 h3.
Proof. unfold agrees. eauto. Qed.

Lemma agrees_refl (h : list pobj) : agrees h h.
Proof. intros l o H. exact H. Qed.

(** Reading a tree needs only the objects it is made of, and no more fuel
    than it was read with. *)
Lemma load_agrees (f : nat) (h h2 : list pobj) :
  agrees h h2 ->
  forall p t f', load f h p = Some t -> f <= f' -> load f' h2 p = Some t.
Proof.
  intros Hag. induction f as [|f IH]; intros p t f' Hload Hle.
  - destruct p; simpl in *; try discriminate; destruct f'; assumption.
  - destruct p as [| | | |l]; try (destruct f'; assumption).
    destruct f' as [|f']; [lia|]. cbn [load] in *.
    destruct (h !! l) as [o|] eqn:Hl; [|discriminate].
    rewrite (Hag _ _ Hl). destruct o as [kvs|ps].
    + apply fmap_list_Some in Hload as (ts & Hts & ->).
      apply mapM_Some in Hts.
      assert (Hts' : mapM (fun kv => pair (fst kv) <$> load f' h2 (snd kv)) kvs = Some ts).
      { apply mapM_Some. eapply Forall2_impl; [exact Hts|].
        intros kv r Hr. simpl in *.
        destruct (load f h (snd kv)) as [v|] eqn:Hv; [|discriminate].
        rewrite (IH _ _ f' Hv) by lia. exact Hr. }
      now rewrite Hts'.
    + apply fmap_list_Some in Hload as (ts & Hts & ->).
      apply mapM_Some in Hts.
      assert (Hts' : mapM (load f' h2) ps = Some ts).
      { apply mapM_Some. eapply Forall2_impl; [exact Hts|].
        intros p r Hr. apply IH; [exact Hr | lia]. }
      now rewrite Hts'.
Qed.

(** What can be reached from a tree that was read is reached through the
    objects it is made of. *)
Lemma reachable_agrees (f : nat) (h h2 : list pobj) :
  agrees h h2 ->
  forall p t l, load f h p = Some t -> reachable h2 p l -> reachable h p l.
Proof.
  intros Hag. induction f as [|f IH]; intros p t l Hload Hreach.
  - destruct Hreach; discriminate.
  - destruct Hreach as [l|l ps p l' Hl Hin Hr|l kvs k p l' Hl Hin Hr]; cbn [load] in Hload.
    + constructor.
    + destruct (h !! l) as [o|] eqn:Hl0; [|discriminate].
      rewrite (Hag _ _ Hl0) in Hl. injection Hl as ->.
      apply fmap_list_Some in Hload as (ts & Hts & ->).
      apply mapM_Some in Hts.
      apply list_elem_of_lookup in Hin as [i Hi].
      destruct (Forall2_lookup_l _ _ _ _ _ Hts Hi) as (ti & _ & Hti).
      eapply reach_item; eauto. apply list_elem_of_lookup. eauto.
    + destruct (h !! l) as [o|] eqn:Hl0; [|discriminate].
      rewrite (Hag _ _ Hl0) in Hl. injection Hl as ->.
      apply fmap_list_Some in Hload as (ts & Hts & ->).
      apply mapM_Some in Hts.
      apply list_elem_of_lookup in Hin as [i Hi].
      destruct (Forall2_lookup_l _ _ _ _ _ Hts Hi) as (ti & _ & Hti). simpl in Hti.
      destruct (load f h p) as [v|] eqn:Hv; [|discriminate].
      eapply reach_value; eauto. apply list_elem_of_lookup. eauto.
Qed.

(** What is reached from a value that could be read is on the heap. *)
Lemma reachable_bound (f : nat) (h : list pobj) :
  forall p t l, load f h p = Some t -> reachable h p l -> l < length h.
Proof.
  intros p t l Hload Hreach. revert f t Hload.
  induction Hreach as [l|l ps p l' Hl Hin Hr IH|l kvs k p l' Hl Hin Hr IH];
    intros f t Hload.
  - destruct f; cbn [load] in Hload; [discriminate|].
    destruct (h !! l) eqn:Hl; [|discriminate]. now apply lookup_lt_Some in Hl.
  - destruct f; cbn [load] in Hload; [discriminate|]. rewrite Hl in Hload.
    apply fmap_list_Some in Hload as (ts & Hts & ->). apply mapM_Some in Hts.
    apply list_elem_of_lookup in Hin as [i Hi].
    destruct (Forall2_lookup_l _ _ _ _ _ Hts Hi) as (ti & _ & Hti). eauto.
  - destruct f; cbn [load] in Hload; [discriminate|]. rewrite Hl in Hload.
    apply fmap_list_Some in Hload as (ts & Hts & ->). apply mapM_Some in Hts.
    apply list_elem_of_lookup in Hin as [i Hi].
    destruct (Forall2_lookup_l _ _ _ _ _ Hts Hi) as (ti & _ & Hti). simpl in Hti.
    destruct (load f h p) as [v|] eqn:Hv; [|discriminate]. eauto.
Qed.

(** What [store] promises of a tree: it only adds objects, at least as many
    as the tree is deep; the tree can be read back from the result; and
    every object that can be reached from the result is a new one. *)
Definition stored (t : value) : Prop :=
  forall h,
    exists ext,
      fst (store t h) = (h ++ ext)%list /\
      depth t <= length ext /\
      load (depth t) (h ++ ext) (snd (store t h)) = Some t /\
      forall l, reachable (h ++ ext) (snd (store t h)) l -> length h <= l.

Lemma list_max_cons (n : nat) (ns : list nat) :
  list_max (n :: ns) = Nat.max n (list_max ns).
Proof. reflexivity. Qed.

Lemma store_list_spec (xs : list value) :
  Forall stored xs ->
  forall h,
    exists ext,
      fst (store_list xs h) = (h ++ ext)%list /\
      list_max (map depth xs) <= length ext /\
      Forall2 (fun p x => load (depth x) (h ++ ext) p = Some x)
        (snd (store_list xs h)) xs /\
      forall p l, p ∈ snd (store_list xs h) -> reachable (h ++ ext) p l -> length h <= l.
Proof.
  induction 1 as [|x xs Hx _ IH]; intros h.
  - exists []. simpl. rewrite app_nil_r. repeat split; auto.
    intros p l Hp. inversion Hp.
  - simpl store_list. destruct (Hx h) as (e1 & Hh1 & Hd1 & Hl1 & Hr1).
    destruct (store x h) as [h1 p] eqn:Hs. simpl in Hh1, Hl1, Hr1. subst h1.
    destruct (IH (h ++ e1)%list) as (e2 & Hh2 & Hd2 & Hl2 & Hr2).
    destruct (store_list xs (h ++ e1)) as [h2 ps] eqn:Hss. simpl in Hh2, Hl2, Hr2. subst h2.
    exists (e1 ++ e2)%list. simpl fst; simpl snd.
    rewrite app_assoc. split; [reflexivity|].
    split. { simpl map. rewrite list_max_cons, length_app. lia. }
    split.
    + constructor; [|exact Hl2].
      eapply load_agrees; [apply agrees_app | exact Hl1 | lia].
    + intros q l Hq Hreach. apply elem_of_cons in Hq as [->|Hq].
      * apply Hr1. eapply reachable_agrees; [apply agrees_app | exact Hl1 | exact Hreach].
      * specialize (Hr2 q l Hq Hreach). rewrite length_app in Hr2. lia.
Qed.

Lemma store_items_spec (kvs : list (string * value)) :
  Forall (fun kv => stored (snd kv)) kvs ->
  forall h,
    exists ext,
      fst (store_items kvs h) = (h ++ ext)%list /\
      list_max (map (fun kv => depth (snd kv)) kvs) <= length ext /\
      Forall2 (fun kp kv => fst kp = fst kv /\
                            load (depth (snd kv)) (h ++ ext) (snd kp) = Some (snd kv))
        (snd (store_items kvs h)) kvs /\
      forall k p l, (k, p) ∈ snd (store_items kvs h) -> reachable (h ++ ext) p l ->
                    length h <= l.
Proof.
  induction 1 as [|[k x] kvs Hx _ IH]; intros h.
  - exists []. simpl. rewrite app_nil_r. repeat split; auto.
    intros k p l Hp. inversion Hp.
  - simpl store_items. simpl in Hx. destruct (Hx h) as (e1 & Hh1 & Hd1 & Hl1 & Hr1).
    destruct (store x h) as [h1 p] eqn:Hs. simpl in Hh1, Hl1, Hr1. subst h1.
    destruct (IH (h ++ e1)%list) as (e2 & Hh2 & Hd2 & Hl2 & Hr2).
    destruct (store_items kvs (h ++ e1)) as [h2 ps] eqn:Hss.
    simpl in Hh2, Hl2, Hr2. subst h2.
    exists (e1 ++ e2)%list. simpl fst; simpl snd.
    rewrite app_assoc. split; [reflexivity|].
    split. { simpl map. rewrite list_max_cons, length_app. lia. }
    split.
    + constructor; [|exact Hl2]. split; [reflexivity|]. simpl.
      eapply load_agrees; [apply agrees_app | exact Hl1 | lia].
    + intros k' q l Hq Hreach. apply elem_of_cons in Hq as [[= -> ->]|Hq].
      * apply Hr1. eapply reachable_agrees; [apply agrees_app | exact Hl1 | exact Hreach].
      * specialize (Hr2 k' q l Hq Hreach). rewrite length_app in Hr2. lia.
Qed.

Lemma load_all_agrees (h h2 : list pobj) (m : nat) (ps : list pval) (xs : list value) :
  agrees h h2 -> list_max (map depth xs) <= m ->
  Forall2 (fun p x => load (depth x) h p = Some x) ps xs ->
  mapM (load m h2) ps = Some xs.
Proof.
  intros Hag Hm Hl. apply mapM_Some. revert Hm.
  induction Hl as [|p x ps xs Hp _ IHl]; intros Hm; constructor.
  - eapply load_agrees; [exact Hag | exact Hp|].
    simpl map in Hm. rewrite list_max_cons in Hm. lia.
  - apply IHl. simpl map in Hm. rewrite list_max_cons in Hm. lia.
Qed.

Lemma load_items_agrees (h h2 : list pobj) (m : nat) (ps : list (string * pval))
    (kvs : list (string * value)) :
  agrees h h2 -> list_max (map (fun kv => depth (snd kv)) kvs) <= m ->
  Forall2 (fun kp kv => fst kp = fst kv /\
                        load (depth (snd kv)) h (snd kp) = Some (snd kv)) ps kvs ->
  mapM (fun kv => pair (fst kv) <$> load m h2 (snd kv)) ps = Some kvs.
Proof.
  intros Hag Hm Hl. apply mapM_Some. revert Hm.
  induction Hl as [|[k p] [k' x] ps kvs [Hk Hp] _ IHl]; intros Hm; constructor.
  - simpl in *. subst k'.
    erewrite load_agrees; [reflexivity | exact Hag | exact Hp|].
    lia.
  - apply IHl. simpl map in Hm. rewrite list_max_cons in Hm. lia.
Qed.

Lemma store_stored (t : value) : stored t.
Proof.
  induction t as [|b|z|s|xs IH|kvs IH] using value_induction; intros h.
  1-4: exists []; simpl; rewrite app_nil_r; repeat split; auto;
    intros l Hl; inversion Hl.
  - rewrite store_VList.
    destruct (store_list_spec xs IH h) as (e & Hh & Hd & Hl & Hr).
    destruct (store_list xs h) as [h' ps]. simpl in Hh, Hl, Hr. subst h'.
    exists (e ++ [OList ps])%list. simpl fst; simpl snd. rewrite app_assoc.
    split; [reflexivity|].
    split. { simpl depth. rewrite length_app. simpl. lia. }
    assert (Hobj : ((h ++ e) ++ [OList ps]) !! length (h ++ e) = Some (OList ps))
      by apply list_lookup_middle, eq_refl.
    split.
    + simpl depth. cbn [load]. rewrite Hobj.
      rewrite (load_all_agrees (h ++ e) _ _ ps xs (agrees_app _ _) (Nat.le_refl _) Hl).
      reflexivity.
    + intros l Hreach. inversion Hreach as [l0|l0 ps' p l' Hl0 Hin Hr'|l0 kvs k p l' Hl0];
        subst.
      * rewrite length_app. lia.
      * rewrite Hobj in Hl0. injection Hl0 as <-.
        apply list_elem_of_lookup in Hin as [i Hi].
        destruct (Forall2_lookup_l _ _ _ _ _ Hl Hi) as (x & _ & Hx).
        apply (Hr p); [apply list_elem_of_lookup; eauto|].
        eapply reachable_agrees; [apply agrees_app | exact Hx | exact Hr'].
      * rewrite Hobj in Hl0. discriminate.
  - rewrite store_VDict.
    destruct (store_items_spec kvs IH h) as (e & Hh & Hd & Hl & Hr).
    destruct (store_items kvs h) as [h' ps]. simpl in Hh, Hl, Hr. subst h'.
    exists (e ++ [ODict ps])%list. simpl fst; simpl snd. rewrite app_assoc.
    split; [reflexivity|].
    split. { simpl depth. rewrite length_app. simpl. lia. }
    assert (Hobj : ((h ++ e) ++ [ODict ps]) !! length (h ++ e) = Some (ODict ps))
      by apply list_lookup_middle, eq_refl.
    split.
    + simpl depth. cbn [load]. rewrite Hobj.
      rewrite (load_items_agrees (h ++ e) _ _ ps kvs (agrees_app _ _) (Nat.le_refl _) Hl).
      reflexivity.
    + intros l Hreach. inversion Hreach as [l0|l0 ps' p l' Hl0|l0 kvs' k p l' Hl0 Hin Hr'];
        subst.
      * rewrite length_app. lia.
      * rewrite Hobj in Hl0. discriminate.
      * rewrite Hobj in Hl0. injection Hl0 as <-.
        apply list_elem_of_lookup in Hin as [i Hi].
        destruct (Forall2_lookup_l _ _ _ _ _ Hl Hi) as ([k' x] & _ & Hk & Hx). simpl in *.
        apply (Hr k p); [apply list_elem_of_lookup; eauto|].
        eapply reachable_agrees; [apply agrees_app | exact Hx | exact Hr'].
Qed.

Lemma denotes_agrees (h h2 : list pobj) (p : pval) (t : value) :
  agrees h h2 -> length h <= length h2 -> denotes h p t -> denotes h2 p t.
Proof. unfold denotes. intros Hag Hlen Hload. eapply load_agrees; eauto. Qed.

Lemma denotes_app (h ext : list pobj) (p : pval) (t : value) :
  denotes h p t -> denotes (h ++ ext) p t.
Proof.
  apply denotes_agrees; [apply agrees_app | rewrite length_app; lia].
Qed.

(** [bool(p)] is [bool] of the tree under [p]. *)
Lemma ptruthy_load (f : nat) (h : list pobj) (p : pval) (t : value) :
  load f h p = Some t -> ptruthy h p = truthy t.
Proof.
  intros H. destruct p as [| | | |l]; try (destruct f; injection H as <-; reflexivity).
  destruct f; cbn [load] in H; [discriminate|]. simpl.
  destruct (h !! l) as [[kvs|ps]|]; [| |discriminate];
    apply fmap_list_Some in H as (ts & Hts & ->); apply mapM_Some in Hts;
    destruct Hts; reflexivity.
Qed.

Lemma is_none_load (f : nat) (h : list pobj) (p : pval) (t : value) :
  load f h p = Some t -> is_none p = match t with VNone => true | _ => false end.
Proof.
  intros H. destruct p as [| | | |l]; try (destruct f; injection H as <-; reflexivity).
  destruct f; cbn [load] in H; [discriminate|].
  destruct (h !! l) as [[kvs|ps]|]; [| |discriminate];
    apply fmap_list_Some in H as (ts & Hts & ->); reflexivity.
Qed.

Lemma pstr_eqb_load (f : nat) (h : list pobj) (p : pval) (t : value) (s : string) :
  load f h p = Some t -> pstr_eqb p s = match t with VStr s' => String.eqb s' s | _ => false end.
Proof.
  intros H. destruct p as [| | | |l]; try (destruct f; injection H as <-; reflexivity).
  destruct f; cbn [load] in H; [discriminate|].
  destruct (h !! l) as [[kvs|ps]|]; [| |discriminate];
    apply fmap_list_Some in H as (ts & Hts & ->); reflexivity.
Qed.

Lemma dict_get_loaded (f : nat) (h : list pobj) (ps : list (string * pval))
    (ts : list (string * value)) (k : string) :
  Forall2 (fun kp kv => pair (fst kp) <$> load f h (snd kp) = Some kv) ps ts ->
  match dict_get k ts with
  | Some x => exists p, dict_get k ps = Some p /\ load f h p = Some x
  | None => dict_get k ps = None
  end.
Proof.
  induction 1 as [|[k1 p1] [k2 x2] ps ts H1 _ IH]; [reflexivity|].
  cbn [fst snd] in H1. destruct (load f h p1) as [v|] eqn:Hv; [|discriminate].
  injection H1 as <- <-. cbn [dict_get].
  destruct (String.eqb k k1); [eauto | exact IH].
Qed.

(** The value of a key of a dictionary that was read. *)
Lemma load_dict_get (f : nat) (h : list pobj) (l : nat) (kvs : list (string * value))
    (k : string) (x : value) :
  load f h (PRef l) = Some (VDict kvs) -> dict_get k kvs = Some x ->
  exists ps p, h !! l = Some (ODict ps) /\ dict_get k ps = Some p /\ load f h p = Some x.
Proof.
  intros H Hk. destruct f; cbn [load] in H; [discriminate|].
  destruct (h !! l) as [[ps|ps]|]; [| |discriminate];
    apply fmap_list_Some in H as (ts & Hts & [= <-]).
  apply mapM_Some in Hts. pose proof (dict_get_loaded _ _ _ _ k Hts) as Hg.
  rewrite Hk in Hg. destruct Hg as (p & Hp & Hl).
  exists ps, p. repeat split; [exact Hp|].
  eapply load_agrees; [apply agrees_refl | exact Hl | lia].
Qed.

Lemma load_dict_missing (f : nat) (h : list pobj) (l : nat) (kvs : list (string * value))
    (k : string) :
  load f h (PRef l) = Some (VDict kvs) -> dict_get k kvs = None ->
  exists ps, h !! l = Some (ODict ps) /\ dict_get k ps = None.
Proof.
  intros H Hk. destruct f; cbn [load] in H; [discriminate|].
  destruct (h !! l) as [[ps|ps]|]; [| |discriminate];
    apply fmap_list_Some in H as (ts & Hts & [= <-]).
  apply mapM_Some in Hts. pose proof (dict_get_loaded _ _ _ _ k Hts) as Hg.
  rewrite Hk in Hg. eauto.
Qed.

Section HeapRuns.
Context {mw : Middleware}.

(** The heap of [w'] is the heap of [w] and new objects after it. *)
Definition extends (w w' : World) : Prop :=
  exists ext, heap w' = heap w ++ ext.

(** Nothing but the heap differs. *)
Definition same_outside (w w' : World) : Prop :=
  env w' = env w /\ status w' = status w /\ last_check w' = last_check w /\
  log w' = log w.

(** Every object that can be reached from [p] was made after [w]. *)
Definition fresh_since (w w' : World) (p : pval) : Prop :=
  forall l, reachable (heap w') p l -> length (heap w) <= l.

Lemma extends_refl (w : World) : extends w w.
Proof. exists []. now rewrite app_nil_r. Qed.

Lemma extends_trans (w1 w2 w3 : World) : extends w1 w2 -> extends w2 w3 -> extends w1 w3.
Proof. intros [e1 H1] [e2 H2]. exists (e1 ++ e2). now rewrite H2, H1, app_assoc. Qed.

Lemma extends_length (w w' : World) : extends w w' -> length (heap w) <= length (heap w').
Proof. intros [e H]. rewrite H, length_app. lia. Qed.

Lemma extends_denotes (w w' : World) (p : pval) (t : value) :
  extends w w' -> denotes (heap w) p t -> denotes (heap w') p t.
Proof. intros [e H]. rewrite H. apply denotes_app. Qed.

Lemma fresh_since_extends (w0 w w' : World) (p : pval) :
  extends w0 w -> fresh_since w w' p -> fresh_since w0 w' p.
Proof.
  intros Hext Hfresh l Hl. apply extends_length in Hext. specialize (Hfresh l Hl). lia.
Qed.

Lemma store_val_spec (t : value) (w : World) :
  exists p w',
    store_val t w = (Ok p, w') /\ extends w w' /\ same_outside w w' /\
    denotes (heap w') p t /\ fresh_since w w' p.
Proof.
  unfold store_val. destruct (store_stored t (heap w)) as (ext & Hh & Hd & Hl & Hr).
  destruct (store t (heap w)) as [h' p]. simpl in *. subst h'.
  eexists _, _. split; [reflexivity|]. simpl.
  split; [now exists ext|]. split; [repeat split|].
  split; [|exact Hr].
  unfold denotes. eapply load_agrees; [apply agrees_refl | exact Hl|].
  rewrite length_app. lia.
Qed.

Lemma load_val_spec (p : pval) (t : value) (w : World) :
  denotes (heap w) p t -> load_val p w = (Ok t, w).
Proof. unfold load_val, denotes. now intros ->. Qed.

(** [copy.deepcopy]: the same tree, made of new objects only; the objects
    that were there are as they were. *)
Lemma deepcopy_spec (p : pval) (t : value) (w : World) :
  denotes (heap w) p t ->
  exists r w',
    deepcopy p w = (Ok r, w') /\ extends w w' /\ same_outside w w' /\
    denotes (heap w') r t /\ fresh_since w w' r.
Proof.
  intros Hp. unfold deepcopy. rewrite (bind_ok _ _ _ _ _ (load_val_spec _ _ _ Hp)).
  apply store_val_spec.
Qed.

(** A call whose result is kept on the heap. *)
Lemma pcall_ok (name : string) (args : list value) (w : World) (v : value) (e' : Env) :
  mw_call name args (env w) = (Ok v, e') ->
  exists p w',
    pcall name args w = (Ok p, w') /\ extends w w' /\
    env w' = e' /\ status w' = status w /\ last_check w' = last_check w /\
    log w' = log w ++ [ECall name args (Ok v)] /\
    denotes (heap w') p v /\ fresh_since w w' p.
Proof.
  intros Hcall. unfold pcall.
  assert (Hc : call name args w
               = (Ok v, add_log (ECall name args (Ok v)) (set_env e' w))).
  { unfold call. now rewrite Hcall. }
  rewrite (bind_ok _ _ _ _ _ Hc).
  destruct (store_val_spec v (add_log (ECall name args (Ok v)) (set_env e' w)))
    as (p & w' & Hs & Hext & (He & Hst & Hlc & Hlog) & Hd & Hf).
  exists p, w'. repeat split; assumption.
Qed.

Lemma pcall_raise (name : string) (args : list value) (w : World) (x : exn) (e' : Env) :
  mw_call name args (env w) = (Raise x, e') ->
  pcall name args w = (Raise x, add_log (ECall name args (Raise x)) (set_env e' w)).
Proof. intros Hcall. unfold pcall, bind, call. now rewrite Hcall. Qed.

(** [p[k]] of a dictionary that holds [k]. *)
Lemma psubscript_spec (p : pval) (kvs : list (string * value)) (k : string) (x : value)
    (w : World) :
  denotes (heap w) p (VDict kvs) -> dict_get k kvs = Some x ->
  exists q, psubscript p k w = (Ok q, w) /\ denotes (heap w) q x.
Proof.
  unfold denotes. intros Hp Hk.
  destruct p as [| | | |l]; try (destruct (length (heap w)); discriminate).
  destruct (load_dict_get _ _ _ _ _ _ Hp Hk) as (ps & q & Hl & Hq & Hx).
  exists q. unfold psubscript. now rewrite Hl, Hq.
Qed.
End HeapRuns.

(** ** Methods that only add to the heap *)

Section Grows.
Context {mw : Middleware}.

(** [m] leaves every object as it is: it can only make new ones. *)
Definition grows {A : Type} (m : M A) : Prop :=
  forall w r w', m w = (r, w') -> extends w w'.

Lemma grows_ret {A : Type} (a : A) : grows (ret a).
Proof. intros w r w' [= <- <-]. apply extends_refl. Qed.

Lemma grows_raise {A : Type} (e : exn) : grows (@raise mw A e).
Proof. intros w r w' [= <- <-]. apply extends_refl. Qed.

Lemma grows_lift_res {A : Type} (x : res A) : grows (lift_res x).
Proof. intros w r w' [= <- <-]. apply extends_refl. Qed.

Lemma grows_bind {A B : Type} (m : M A) (k : A -> M B) :
  grows m -> (forall a, grows (k a)) -> grows (bind m k).
Proof.
  intros Hm Hk w r w' H. rewrite bind_run in H.
  destruct (m w) as [[a|e] w1] eqn:Hmw.
  - eapply extends_trans; [eapply Hm | eapply Hk]; eauto.
  - injection H as <- <-. eapply Hm; eauto.
Qed.

Lemma grows_catch {A : Type} (m : M A) (h : exn -> option (M A)) :
  grows m -> (forall e k, h e = Some k -> grows k) -> grows (catch m h).
Proof.
  intros Hm Hh w r w' H. unfold catch in H.
  destruct (m w) as [[a|e] w1] eqn:Hmw.
  - injection H as <- <-. eapply Hm; eauto.
  - destruct (h e) as [k|] eqn:He.
    + eapply extends_trans; [eapply Hm | eapply Hh]; eauto.
    + injection H as <- <-. eapply Hm; eauto.
Qed.

Lemma grows_any_exception {A : Type} (m k : M A) :
  grows m -> grows k -> grows (catch m (any_exception k)).
Proof. intros Hm Hk. apply grows_catch; [exact Hm|]. now intros e k' [= <-]. Qed.

Lemma grows_only_IndexError {A : Type} (m k : M A) :
  grows m -> grows k -> grows (catch m (ConfigService.only_IndexError k)).
Proof.
  intros Hm Hk. apply grows_catch; [exact Hm|].
  intros e k' H. destruct e; try discriminate. now injection H as <-.
Qed.

Lemma extends_same_heap (w w' : World) : heap w' = heap w -> extends w w'.
Proof. intros H. exists []. now rewrite app_nil_r. Qed.

Lemma grows_emit (ev : event) : grows (emit ev).
Proof. intros w r w' [= <- <-]. now apply extends_same_heap. Qed.

Lemma grows_logger (lv : log_level) (fmt : string) (args : list value) :
  grows (logger lv fmt args).
Proof. apply grows_emit. Qed.

Lemma grows_call (name : string) (args : list value) : grows (call name args).
Proof.
  intros w r w' H. unfold call in H. destruct (mw_call name args (env w)).
  injection H as <- <-. now apply extends_same_heap.
Qed.

Lemma grows_store_val (t : value) : grows (store_val t).
Proof.
  intros w r w' H. destruct (store_val_spec t w) as (p & w1 & Hs & Hext & _).
  rewrite Hs in H. now injection H as <- <-.
Qed.

Lemma grows_load_val (p : pval) : grows (load_val p).
Proof.
  intros w r w' H. unfold load_val in H.
  destruct (load _ _ p); injection H as <- <-; apply extends_refl.
Qed.

Lemma grows_shown (p : pval) : grows (shown p).
Proof.
  intros w r w' H. unfold shown in H.
  destruct (load _ _ p); injection H as <- <-; apply extends_refl.
Qed.

Lemma grows_truthy_of (p : pval) : grows (truthy_of p).
Proof. intros w r w' [= <- <-]. apply extends_refl. Qed.

Lemma grows_psubscript (p : pval) (k : string) : grows (psubscript p k).
Proof.
  intros w r w' H. unfold psubscript in H.
  destruct p; try (injection H as <- <-; apply extends_refl).
  destruct (heap w !! l) as [[kvs|ps]|]; try (injection H as <- <-; apply extends_refl).
  destruct (dict_get k kvs); injection H as <- <-; apply extends_refl.
Qed.

Lemma grows_piter (p : pval) : grows (piter p).
Proof.
  intros w r w' H. unfold piter in H.
  destruct p; try (injection H as <- <-; apply extends_refl).
  destruct (heap w !! l) as [[kvs|ps]|]; injection H as <- <-; apply extends_refl.
Qed.

Lemma grows_alloc (o : pobj) : grows (TDBWrapCRUDService.alloc o).
Proof. intros w r w' [= <- <-]. now exists [o]. Qed.

Lemma grows_get_status : grows get_status.
Proof. intros w r w' [= <- <-]. apply extends_refl. Qed.

Lemma grows_get_last_check : grows get_last_check.
Proof. intros w r w' [= <- <-]. apply extends_refl. Qed.

Lemma grows_get_monotonic : grows get_monotonic.
Proof. intros w r w' [= <- <-]. apply extends_refl. Qed.

Lemma grows_set_status (p : pval) : grows (set_status p).
Proof. intros w r w' [= <- <-]. now apply extends_same_heap. Qed.

Lemma grows_set_last_check (t : Q) : grows (set_last_check t).
Proof. intros w r w' [= <- <-]. now apply extends_same_heap. Qed.

Lemma grows_with_lock {A : Type} (m : M A) :
  grows m -> grows (ConfigService.with_get_or_insert_lock m).
Proof.
  intros Hm w r w' H. unfold ConfigService.with_get_or_insert_lock in H.
  destruct (m _) as [r1 w1] eqn:Hmw. injection H as <- <-.
  destruct (Hm _ _ _ Hmw) as [ext Hext]. now exists ext.
Qed.
End Grows.

Create HintDb grows discriminated.
#[export] Hint Resolve grows_ret grows_raise grows_lift_res grows_emit grows_logger
  grows_call grows_store_val grows_load_val grows_shown grows_truthy_of
  grows_psubscript grows_piter grows_alloc grows_get_status grows_get_last_check
  grows_get_monotonic grows_set_status grows_set_last_check : grows.

(** Goes through a method one statement at a time. *)
Ltac grow :=
  repeat first
    [ apply grows_bind; [|intros ?]
    | apply grows_any_exception
    | apply grows_only_IndexError
    | apply grows_with_lock
    | match goal with
      | |- grows (if ?b then _ else _) => destruct b
      | |- grows (match ?x with _ => _ end) => destruct x
      | |- grows (let (_, _) := ?x in _) => destruct x
      end
    | solve [auto with grows] ].

Section GrowsMethods.
Context {mw : Middleware}.
Variable self : Config.
Variable cls : TDB.

Lemma grows_deepcopy (p : pval) : grows (deepcopy p).
Proof. unfold deepcopy. grow. Qed.

Lemma grows_pcall (name : string) (args : list value) : grows (pcall name args).
Proof. unfold pcall. grow. Qed.

Hint Resolve grows_deepcopy grows_pcall : grows.

Lemma grows_is_clustered : grows (is_clustered cls).
Proof. unfold is_clustered, _default_cluster_check. grow. Qed.

Lemma grows_cluster_healthy : grows (cluster_healthy self cls).
Proof. unfold cluster_healthy. grow. Qed.

Lemma grows_db_healthy_of (name : value) : grows (db_healthy_of self cls name).
Proof. unfold db_healthy_of. grow. Qed.

Hint Resolve grows_is_clustered grows_cluster_healthy grows_db_healthy_of : grows.

Lemma grows_unhealthy_of (name : value) : grows (unhealthy_of self cls name).
Proof. unfold unhealthy_of. grow. Qed.

Lemma grows_version_mismatch (version : pval) : grows (version_mismatch cls version).
Proof. unfold version_mismatch. grow. Qed.

Lemma grows_mismatch_logged : grows (mismatch_logged self).
Proof. unfold mismatch_logged. grow. Qed.

Hint Resolve grows_unhealthy_of grows_version_mismatch grows_mismatch_logged : grows.

Lemma grows_ConfigService_config : grows (ConfigService.config self).
Proof.
  unfold ConfigService.config, ConfigService._get_or_insert. grow.
Qed.

Lemma grows_CRUDService_query (filters options : value) :
  grows (CRUDService.query self filters options).
Proof. unfold CRUDService.query, CRUDService.get_options. grow. Qed.

Hint Resolve grows_ConfigService_config grows_CRUDService_query : grows.

(** [TDBWrapConfigService.config] never changes an object that exists:
    whatever it returns, the defaults are as they were. *)
Lemma grows_config : grows (TDBWrapConfigService.config self cls).
Proof. unfold TDBWrapConfigService.config. grow. Qed.

Lemma grows_extend_all (extend : string) (entries : list pval) :
  grows (TDBWrapCRUDService.extend_all extend entries).
Proof. induction entries as [|entry rest IH]; simpl; grow. Qed.

Lemma grows_insert_defaults : grows (TDBWrapCRUDService.insert_defaults self cls).
Proof. unfold TDBWrapCRUDService.insert_defaults. grow. Qed.

Lemma grows_pfilter_list (rows filters options : pval) :
  grows (TDBWrapCRUDService.pfilter_list rows filters options).
Proof. unfold TDBWrapCRUDService.pfilter_list. grow. Qed.

Hint Resolve grows_extend_all grows_insert_defaults grows_pfilter_list : grows.

Lemma grows_query (filters options : pval) :
  grows (TDBWrapCRUDService.query self cls filters options).
Proof. unfold TDBWrapCRUDService.query. grow. Qed.
End GrowsMethods.

(** ** The health check and its cache *)

Section HealthCache.
Context {mw : Middleware}.
Variable self : Config.
Variable cls : TDB.

Lemma cache_fresh (w : World) :
  negb (Qle_bool (last_check w + time_offset cls) (monotonic (env w))) = true <->
  (monotonic (env w) < last_check w + time_offset cls)%Q.
Proof.
  rewrite negb_true_iff. split.
  - intros H. apply Qnot_le_lt. intros Hle. apply Qle_bool_iff in Hle. congruence.
  - intros H. destruct (Qle_bool _ _) eqn:E; [|reflexivity].
    apply Qle_bool_iff in E. lra.
Qed.

Lemma cache_stale (w : World) :
  negb (Qle_bool (last_check w + time_offset cls) (monotonic (env w))) = false <->
  (last_check w + time_offset cls <= monotonic (env w))%Q.
Proof. rewrite negb_false_iff. apply Qle_bool_iff. Qed.

(** Within the interval the cached status is the answer and nothing is
    asked. *)
Lemma cluster_healthy_cached (w : World) :
  (monotonic (env w) < last_check w + time_offset cls)%Q ->
  cluster_healthy self cls w = (Ok (status w), w).
Proof.
  intros H. apply cache_fresh in H. unfold cluster_healthy, bind, get_monotonic,
    get_last_check, get_status. simpl. now rewrite H.
Qed.

(** After the interval the check is made, and recorded with the time that
    was read before it. *)
Lemma cluster_healthy_probed (w : World) (v : value) (e' : Env) :
  (last_check w + time_offset cls <= monotonic (env w))%Q ->
  mw_call (cluster_healthy_fn cls) [] (env w) = (Ok v, e') ->
  exists p w',
    cluster_healthy self cls w = (Ok p, w') /\
    status w' = p /\ last_check w' = monotonic (env w) /\ env w' = e' /\
    log w' = log w ++ [ECall (cluster_healthy_fn cls) [] (Ok v)] /\
    extends w w' /\ denotes (heap w') p v.
Proof.
  intros H Hcall. apply cache_stale in H.
  destruct (pcall_ok _ _ _ _ _ Hcall) as (p & w1 & Hp & Hext & He & Hst & Hlc & Hlog & Hd & _).
  exists p. eexists. unfold cluster_healthy, bind, get_monotonic, get_last_check, catch.
  simpl. rewrite H, Hp. simpl. split; [reflexivity|]. simpl.
  repeat split; assumption.
Qed.

(** A check that raises is recorded as unhealthy. *)
Lemma cluster_healthy_failed (w : World) (x : exn) (e' : Env) :
  (last_check w + time_offset cls <= monotonic (env w))%Q ->
  mw_call (cluster_healthy_fn cls) [] (env w) = (Raise x, e') ->
  exists w',
    cluster_healthy self cls w = (Ok (PBool false), w') /\
    status w' = PBool false /\ last_check w' = monotonic (env w) /\ env w' = e' /\
    heap w' = heap w /\
    log w' = log w ++ [ECall (cluster_healthy_fn cls) [] (Raise x);
                       ELog LWarning "%s: cluster health check [%s] failed."
                         [VStr (namespace self); VStr (cluster_healthy_fn cls)]].
Proof.
  intros H Hcall. apply cache_stale in H.
  eexists. unfold cluster_healthy, bind, get_monotonic, get_last_check, catch.
  simpl. rewrite H, (pcall_raise _ _ _ _ _ Hcall). simpl.
  split; [reflexivity|]. simpl. repeat split. now rewrite <- app_assoc.
Qed.

(** The checks this wrapper made, among what it did. *)
Definition is_probe (ev : event) : bool :=
  match ev with
  | ECall name [] _ => String.eqb name (cluster_healthy_fn cls)
  | _ => false
  end.

Definition probes (events : list event) : nat := length (List.filter is_probe events).

(** [cluster_healthy()] called when the outside is [e]. *)
Definition cluster_healthy_at (e : Env) (w : World) : World :=
  snd (cluster_healthy self cls (set_env e w)).

Fixpoint calls_at (es : list Env) (w : World) : World :=
  match es with
  | [] => w
  | e :: rest => calls_at rest (cluster_healthy_at e w)
  end.

Lemma probes_app (l1 l2 : list event) : probes (l1 ++ l2) = probes l1 + probes l2.
Proof. unfold probes. now rewrite List.filter_app, length_app. Qed.

(** One call: either the cache answers and nothing changes but the
    outside, or one check is made and its time is recorded. *)
Lemma cluster_healthy_at_cases (e : Env) (w : World) :
  let w' := cluster_healthy_at e w in
  ((monotonic e < last_check w + time_offset cls)%Q /\
   log w' = log w /\ last_check w' = last_check w /\ status w' = status w) \/
  ((last_check w + time_offset cls <= monotonic e)%Q /\
   probes (log w') = probes (log w) + 1 /\ last_check w' = monotonic e).
Proof.
  intros w'. subst w'. unfold cluster_healthy_at.
  destruct (Qlt_le_dec (monotonic e) (last_check w + time_offset cls)) as [Hlt|Hle].
  - left. split; [exact Hlt|].
    rewrite (cluster_healthy_cached (set_env e w)) by exact Hlt. now simpl.
  - right. split; [exact Hle|].
    destruct (mw_call (cluster_healthy_fn cls) [] e) as [[v|x] e'] eqn:Hcall.
    + destruct (cluster_healthy_probed (set_env e w) v e' Hle Hcall)
        as (p & w1 & -> & _ & Hlc & _ & Hlog & _).
      simpl. rewrite Hlog, probes_app. simpl.
      unfold probes at 2. simpl. now rewrite String.eqb_refl.
    + destruct (cluster_healthy_failed (set_env e w) x e' Hle Hcall)
        as (w1 & -> & _ & Hlc & _ & _ & Hlog).
      simpl. rewrite Hlog, probes_app. simpl.
      unfold probes at 2. simpl. now rewrite String.eqb_refl.
Qed.

(** Calls that all come before the cache runs out make no check. *)
Lemma no_probe_while_fresh (es : list Env) (w : World) :
  (forall e, In e es -> (monotonic e < last_check w + time_offset cls)%Q) ->
  log (calls_at es w) = log w.
Proof.
  revert w. induction es as [|e rest IH]; intros w Hall; simpl; [reflexivity|].
  destruct (cluster_healthy_at_cases e w) as [(_ & Hlog & Hlc & _)|(Hle & _)].
  - rewrite IH; [exact Hlog|]. intros e' He'. rewrite Hlc. apply Hall. now right.
  - specialize (Hall e (or_introl eq_refl)). lra.
Qed.

(** Calls that all fall within one interval make one check at most. *)
Lemma one_probe_per_interval (es : list Env) (w : World) :
  (forall e e', In e es -> In e' es -> (monotonic e' < monotonic e + time_offset cls)%Q) ->
  probes (log (calls_at es w)) <= probes (log w) + 1.
Proof.
  revert w. induction es as [|e rest IH]; intros w Hall; simpl; [lia|].
  destruct (cluster_healthy_at_cases e w) as [(_ & Hlog & _)|(_ & Hp & Hlc)].
  - rewrite <- Hlog. apply IH. intros e1 e2 H1 H2. apply Hall; now right.
  - rewrite no_probe_while_fresh; [lia|].
    intros e' He'. rewrite Hlc. apply Hall; [now left | now right].
Qed.

(** The read path asks [db_healthy] only after [cluster_healthy] said
    unhealthy: when the first check is passed, the gate is passed with the
    world as that check left it. *)
Lemma db_healthy_only_when_unhealthy (name : value) (w w1 : World) (p : pval) :
  cluster_healthy self cls w = (Ok p, w1) ->
  ptruthy (heap w1) p = true ->
  unhealthy_of self cls name w = (Ok false, w1).
Proof.
  intros Hc Hp. unfold unhealthy_of. rewrite (bind_ok _ _ _ _ _ Hc).
  unfold bind, truthy_of. now rewrite Hp.
Qed.
End HealthCache.

Section HealthCacheTheorem.
Context {mw : Middleware}.
Variable self : Config.
Variable cls : TDB.

End HealthCacheTheorem.

(** * The services on the clustered key-value store *)

(** ** Changing an object in place *)

(** The variables an object holds. *)
Definition child (o : pobj) (q : pval) : Prop :=
  match o with
  | OList ps => q ∈ ps
  | ODict kvs => exists k, (k, q) ∈ kvs
  end.

Lemma reach_child (h : list pobj) (l : nat) (o : pobj) (q : pval) (l' : nat) :
  h !! l = Some o -> child o q -> reachable h q l' -> reachable h (PRef l) l'.
Proof.
  destruct o as [kvs|ps]; simpl.
  - intros Hl [k Hk] Hr. eapply reach_value; eauto.
  - intros Hl Hq Hr. eapply reach_item; eauto.
Qed.

Lemma reachable_inv (h : list pobj) (p : pval) (l' : nat) :
  reachable h p l' ->
  exists l, p = PRef l /\
    (l' = l \/ exists o q, h !! l = Some o /\ child o q /\ reachable h q l').
Proof.
  intros [l|l ps q l2 Hl Hq Hr|l kvs k q l2 Hl Hq Hr]; exists l; split; auto.
  - right. exists (OList ps), q. auto.
  - right. exists (ODict kvs), q. simpl. eauto.
Qed.

(** What is read with fuel [S f] has its parts read with fuel [f]. *)
Lemma load_child (f : nat) (h : list pobj) (l : nat) (o : pobj) (q : pval) (t : value) :
  load (S f) h (PRef l) = Some t -> h !! l = Some o -> child o q ->
  exists tq, load f h q = Some tq.
Proof.
  intros H Hl Hq. cbn [load] in H. rewrite Hl in H.
  destruct o as [kvs|ps]; apply fmap_list_Some in H as (ts & Hts & _);
    apply mapM_Some in Hts.
  - destruct Hq as [k Hk].
    apply list_elem_of_lookup_1 in Hk as [i Hi].
    destruct (Forall2_lookup_l _ _ _ _ _ Hts Hi) as (y & _ & Hy). simpl in Hy.
    destruct (load f h q) as [tq|]; [eauto | discriminate].
  - apply list_elem_of_lookup_1 in Hq as [i Hi].
    destruct (Forall2_lookup_l _ _ _ _ _ Hts Hi) as (y & _ & Hy). eauto.
Qed.

(** Whatever is reached from a variable that was read was read on the
    way, with no more fuel. *)
Lemma load_reaches (h : list pobj) (p : pval) (l : nat) :
  reachable h p l ->
  forall f t, load f h p = Some t -> exists f' t', f' <= f /\ load f' h (PRef l) = Some t'.
Proof.
  induction 1 as [l|l ps q l' Hl Hq _ IH|l kvs k q l' Hl Hq _ IH]; intros f t Hload.
  - eauto.
  - destruct f as [|f]; [discriminate|].
    destruct (load_child f h l (OList ps) q t Hload Hl Hq) as [tq Htq].
    destruct (IH _ _ Htq) as (f' & t' & Hle & H'). exists f', t'. split; [lia | exact H'].
  - destruct f as [|f]; [discriminate|].
    destruct (load_child f h l (ODict kvs) q t Hload Hl (ex_intro _ k Hq)) as [tq Htq].
    destruct (IH _ _ Htq) as (f' & t' & Hle & H'). exists f', t'. split; [lia | exact H'].
Qed.

(** An object that can be read is not among what its parts reach. *)
Lemma load_acyclic (h : list pobj) (l : nat) (o : pobj) (q : pval) :
  h !! l = Some o -> child o q ->
  forall f t, load f h (PRef l) = Some t -> ~ reachable h q l.
Proof.
  intros Hl Hq f. induction f as [f IH] using lt_wf_ind. intros t Hload Hreach.
  destruct f as [|f]; [discriminate|].
  destruct (load_child f h l o q t Hload Hl Hq) as [tq Htq].
  destruct (load_reaches h q l Hreach f tq Htq) as (f' & t' & Hle & H').
  exact (IH f' ltac:(lia) t' H' Hreach).
Qed.

Lemma Forall2_impl_elem {A B : Type} (P Q : A -> B -> Prop) (xs : list A) (ys : list B) :
  Forall2 P xs ys -> (forall x y, x ∈ xs -> P x y -> Q x y) -> Forall2 Q xs ys.
Proof.
  induction 1 as [|x y xs ys Hxy _ IH]; intros Himp; constructor.
  - apply Himp; [left | exact Hxy].
  - apply IH. intros x' y' Hin. apply Himp. now right.
Qed.

(** Changing the object at [l] changes nothing that is read without
    reaching [l]. *)
Lemma load_insert (h : list pobj) (l : nat) (o : pobj) :
  forall f p t, load f h p = Some t -> ~ reachable h p l ->
                load f (<[l := o]> h) p = Some t.
Proof.
  induction f as [|f IH]; intros p t Hload Hfar.
  - destruct p; simpl in *; try discriminate; assumption.
  - destruct p as [| | | |l0]; try assumption.
    assert (Hne : l <> l0). { intros ->. apply Hfar. constructor. }
    cbn [load] in *. rewrite list_lookup_insert_ne by exact Hne.
    destruct (h !! l0) as [[kvs|ps]|] eqn:Hl0; [| |discriminate];
      apply fmap_list_Some in Hload as (ts & Hts & ->); apply mapM_Some in Hts.
    + assert (Hts' : mapM (fun kv => pair (fst kv) <$> load f (<[l := o]> h) (snd kv)) kvs
                     = Some ts).
      { apply mapM_Some. eapply Forall2_impl_elem; [exact Hts|].
        intros [k q] r Hin Hr. simpl in *.
        destruct (load f h q) as [v|] eqn:Hv; [|discriminate].
        rewrite (IH _ _ Hv); [exact Hr|].
        intros Hq. apply Hfar. eapply reach_value; eauto. }
      now rewrite Hts'.
    + assert (Hts' : mapM (load f (<[l := o]> h)) ps = Some ts).
      { apply mapM_Some. eapply Forall2_impl_elem; [exact Hts|].
        intros q r Hin Hr. apply IH; [exact Hr|].
        intros Hq. apply Hfar. eapply reach_item; eauto. }
      now rewrite Hts'.
Qed.

Lemma denotes_insert (h : list pobj) (l : nat) (o : pobj) (p : pval) (t : value) :
  denotes h p t -> ~ reachable h p l -> denotes (<[l := o]> h) p t.
Proof.
  unfold denotes. rewrite length_insert. apply load_insert.
Qed.

(** The relation between the items of a dictionary object and the items
    of the tree it reads as. *)
Definition item_loads (f : nat) (h : list pobj) (kp : string * pval)
    (kv : string * value) : Prop :=
  pair (fst kp) <$> load f h (snd kp) = Some kv.

Lemma dict_set_loads (f : nat) (h : list pobj) (k : string) (p : pval) (t : value)
    (ps : list (string * pval)) (ts : list (string * value)) :
  Forall2 (item_loads f h) ps ts -> load f h p = Some t ->
  Forall2 (item_loads f h) (dict_set k p ps) (dict_set k t ts).
Proof.
  intros Hall Hp. induction Hall as [|[k1 p1] [k2 t2] ps ts H1 Hrest IH].
  - constructor; [|constructor]. unfold item_loads. simpl. now rewrite Hp.
  - unfold item_loads in H1. cbn [fst snd] in H1.
    destruct (load f h p1) as [v|] eqn:Hv; [|discriminate]. injection H1 as <- <-.
    cbn [dict_set]. destruct (String.eqb k k1).
    + constructor; [|exact Hrest]. unfold item_loads. simpl. now rewrite Hp.
    + constructor; [|exact IH]. unfold item_loads. simpl. now rewrite Hv.
Qed.

Lemma dict_update_loads (f : nat) (h : list pobj)
    (qs : list (string * pval)) (us : list (string * value)) :
  Forall2 (item_loads f h) qs us ->
  forall ps ts, Forall2 (item_loads f h) ps ts ->
  Forall2 (item_loads f h) (dict_update ps qs) (dict_update ts us).
Proof.
  unfold dict_update.
  induction 1 as [|[k q] [k' u] qs us H1 _ IH]; intros ps ts Hall; [exact Hall|].
  simpl fold_left. apply IH.
  unfold item_loads in H1. cbn [fst snd] in H1.
  destruct (load f h q) as [v|] eqn:Hv; [|discriminate]. injection H1 as <- <-.
  now apply dict_set_loads.
Qed.

Lemma dict_get_elem {A : Type} (k : string) (kvs : list (string * A)) (v : A) :
  dict_get k kvs = Some v -> (k, v) ∈ kvs.
Proof.
  induction kvs as [|[k' v'] kvs IH]; simpl; [discriminate|].
  destruct (String.eqb_spec k k') as [->|Hne].
  - intros [= ->]. left.
  - intros H. right. auto.
Qed.

Lemma items_stored (kvs : list (string * value)) :
  Forall (fun kv => stored (snd kv)) kvs.
Proof. apply Forall_forall. intros kv _. apply store_stored. Qed.

(** The trees [store] builds for two keys of a dictionary share no
    object. *)
Lemma store_items_apart (kvs : list (string * value)) :
  forall h k1 k2 p1 p2 l,
    k1 <> k2 ->
    dict_get k1 (snd (store_items kvs h)) = Some p1 ->
    dict_get k2 (snd (store_items kvs h)) = Some p2 ->
    reachable (fst (store_items kvs h)) p1 l ->
    reachable (fst (store_items kvs h)) p2 l -> False.
Proof.
  induction kvs as [|[k x] kvs IH]; intros h k1 k2 p1 p2 l Hne H1 H2 Hr1 Hr2;
    [discriminate|].
  simpl store_items in *.
  destruct (store_stored x h) as (e1 & Hh1 & _ & Hl1 & _).
  destruct (store x h) as [h1 p] eqn:Hs. simpl in Hh1, Hl1. subst h1.
  destruct (store_items_spec kvs (items_stored kvs) (h ++ e1))
    as (e2 & Hh2 & _ & _ & Hfresh).
  specialize (IH (h ++ e1)).
  destruct (store_items kvs (h ++ e1)) as [h2 ps] eqn:Hss.
  simpl in Hh2, Hfresh, IH, H1, H2, Hr1, Hr2. subst h2.
  assert (Hhead : forall q l', reachable ((h ++ e1) ++ e2) p l' ->
                               (exists k', (k', q) ∈ ps) ->
                               reachable ((h ++ e1) ++ e2) q l' -> False).
  { intros q l' Hp [k' Hq] Hq'.
    assert (l' < length (h ++ e1)).
    { eapply reachable_bound; [exact Hl1|].
      eapply reachable_agrees; [apply agrees_app | exact Hl1 | exact Hp]. }
    specialize (Hfresh k' q l' Hq Hq'). lia. }
  destruct (String.eqb_spec k1 k) as [E1|N1], (String.eqb_spec k2 k) as [E2|N2].
  - congruence.
  - injection H1 as <-. eapply Hhead; [exact Hr1 | | exact Hr2].
    exists k2. now apply dict_get_elem.
  - injection H2 as <-. eapply Hhead; [exact Hr2 | | exact Hr1].
    exists k1. now apply dict_get_elem.
  - exact (IH k1 k2 p1 p2 l Hne H1 H2 Hr1 Hr2).
Qed.

Section HeapUpdates.
Context {mw : Middleware}.

(** The parts of a dictionary that a call returned share no object. *)
Lemma pcall_apart (name : string) (args : list value) (w : World)
    (payload : list (string * value)) (e' : Env) (p : pval) (w' : World) :
  mw_call name args (env w) = (Ok (VDict payload), e') ->
  pcall name args w = (Ok p, w') ->
  forall k1 k2 q1 q2 l,
    k1 <> k2 ->
    psubscript p k1 w' = (Ok q1, w') -> psubscript p k2 w' = (Ok q2, w') ->
    reachable (heap w') q1 l -> ~ reachable (heap w') q2 l.
Proof.
  intros Hcall Hp k1 k2 q1 q2 l Hne H1 H2 Hr1 Hr2.
  unfold pcall in Hp.
  assert (Hc : call name args w
               = (Ok (VDict payload),
                  add_log (ECall name args (Ok (VDict payload))) (set_env e' w))).
  { unfold call. now rewrite Hcall. }
  rewrite (bind_ok _ _ _ _ _ Hc) in Hp. unfold store_val in Hp.
  simpl heap in Hp. rewrite store_VDict in Hp.
  pose proof (store_items_apart payload (heap w) k1 k2 q1 q2 l Hne) as Hapart.
  destruct (store_items_spec payload (items_stored payload) (heap w))
    as (ext & Hh & _ & Hloads & _).
  destruct (store_items payload (heap w)) as [h' ps] eqn:Hss.
  simpl in Hh, Hloads, Hapart. subst h'.
  injection Hp as <- <-. simpl heap in *.
  unfold psubscript in H1, H2. simpl heap in H1, H2.
  rewrite list_lookup_middle in H1, H2 by reflexivity.
  destruct (dict_get k1 ps) as [x1|] eqn:Hk1; [|discriminate].
  destruct (dict_get k2 ps) as [x2|] eqn:Hk2; [|discriminate].
  injection H1 as ->. injection H2 as ->.
  assert (Hback : forall k q, dict_get k ps = Some q ->
                    reachable ((heap w ++ ext) ++ [ODict ps]) q l ->
                    reachable (heap w ++ ext) q l).
  { intros k q Hk Hr. apply dict_get_elem in Hk.
    apply list_elem_of_lookup_1 in Hk as [i Hi].
    destruct (Forall2_lookup_l _ _ _ _ _ Hloads Hi) as (y & _ & _ & Hy).
    eapply reachable_agrees; [apply agrees_app | exact Hy | exact Hr]. }
  eapply Hapart; eauto.
Qed.

(** [new.update(data)] where nothing of [data] is [new] itself: [new]
    reads as the updated dictionary, and what does not reach [new] reads
    as before. *)
Lemma pupdate_spec (l : nat) (data : pval) (ts us : list (string * value)) (w : World) :
  denotes (heap w) (PRef l) (VDict ts) -> denotes (heap w) data (VDict us) ->
  ~ reachable (heap w) data l ->
  exists o,
    let w' := set_heap (<[l := o]> (heap w)) w in
    pupdate (PRef l) data w = (Ok tt, w') /\
    denotes (heap w') (PRef l) (VDict (dict_update ts us)) /\
    forall p t, denotes (heap w) p t -> ~ reachable (heap w) p l -> denotes (heap w') p t.
Proof.
  unfold denotes. intros Hnew Hdata Hfar.
  destruct (length (heap w)) as [|f] eqn:Hlen; [discriminate|].
  assert (Hnew' := Hnew). cbn [load] in Hnew.
  destruct (heap w !! l) as [[ps|ps]|] eqn:Hl; [| |discriminate];
    apply fmap_list_Some in Hnew as (ts' & Hts & [= <-]).
  assert (Hacyclic : forall k q, (k, q) ∈ ps -> ~ reachable (heap w) q l).
  { intros k q Hin. eapply (load_acyclic (heap w) l (ODict ps)); [exact Hl | | exact Hnew'].
    now exists k. }
  clear Hnew'.
  destruct data as [| | | |l']; try discriminate.
  cbn [load] in Hdata.
  destruct (heap w !! l') as [[qs|qs]|] eqn:Hl'; [| |discriminate];
    apply fmap_list_Some in Hdata as (us' & Hus & [= <-]).
  apply mapM_Some in Hts, Hus.
  set (o := ODict (dict_update ps qs)). exists o. cbv zeta.
  split; [unfold pupdate; now rewrite Hl, Hl'|].
  simpl heap. rewrite length_insert, Hlen.
  split.
  - cbn [load]. rewrite list_lookup_insert.
    rewrite decide_True by (split; [reflexivity|]; apply lookup_lt_Some in Hl; exact Hl).
    assert (Hall : Forall2 (item_loads f (<[l := o]> (heap w)))
                     (dict_update ps qs) (dict_update ts us)).
    { apply dict_update_loads.
      - eapply Forall2_impl_elem; [exact Hus|]. intros [k q] r Hin Hr.
        unfold item_loads. simpl in *.
        destruct (load f (heap w) q) as [v|] eqn:Hv; [|discriminate].
        rewrite (load_insert _ _ _ _ _ _ Hv); [exact Hr|].
        intros Hq. apply Hfar. eapply reach_value; eauto.
      - eapply Forall2_impl_elem; [exact Hts|]. intros [k q] r Hin Hr.
        unfold item_loads. simpl in *.
        destruct (load f (heap w) q) as [v|] eqn:Hv; [|discriminate].
        rewrite (load_insert _ _ _ _ _ _ Hv); [exact Hr|].
        eapply Hacyclic; exact Hin. }
    apply mapM_Some in Hall. unfold o. simpl. fold o.
    unfold item_loads in Hall. now rewrite Hall.
  - intros p t Hp Hpfar. now apply load_insert.
Qed.
End HeapUpdates.

(** ** The wrappers: which way a call goes *)

Section Paths.
Context {mw : Middleware}.
Variable self : Config.
Variable cls : TDB.

Lemma truthy_of_run (p : pval) (w : World) :
  truthy_of p w = (Ok (ptruthy (heap w) p), w).
Proof. reflexivity. Qed.

(** Both checks said unhealthy: the gate of the read path is closed. *)
Lemma gate_closed (name : value) (w1 w2 w3 : World) (p s : pval) :
  cluster_healthy self cls w1 = (Ok p, w2) -> ptruthy (heap w2) p = false ->
  db_healthy_of self cls name w2 = (Ok s, w3) -> ptruthy (heap w3) s = false ->
  unhealthy_of self cls name w1 = (Ok true, w3).
Proof.
  intros Hp Hpt Hs Hst. unfold unhealthy_of.
  rewrite (bind_ok _ _ _ _ _ Hp), (bind_ok _ _ _ _ _ (truthy_of_run p w2)), Hpt.
  rewrite (bind_ok _ _ _ _ _ Hs), (bind_ok _ _ _ _ _ (truthy_of_run s w3)), Hst.
  reflexivity.
Qed.

Lemma config_entered (w w1 : World) (c : pval) :
  is_clustered cls w = (Ok c, w1) -> ptruthy (heap w1) c = true ->
  TDBWrapConfigService.config self cls w =
    (unhealthy <- unhealthy_of self cls (opt_value (service self));;
     if unhealthy then deepcopy (tdb_defaults cls)
     else
       tdb_config <- pcall "tdb.config" [TDBWrapConfigService.tdb_args self cls];;
       version <- psubscript tdb_config "version";;
       data <- psubscript tdb_config "data";;
       data <- (if is_none data then deepcopy (tdb_defaults cls) else ret data);;
       mismatch <- version_mismatch cls version;;
       data <- (if mismatch then mismatch_logged self;;; deepcopy (tdb_defaults cls)
                else ret data);;
       match datastore_extend self with
       | Some extend =>
           if truthy (VStr extend) then
             data <- load_val data;; pcall extend [data]
           else ret data
       | None => ret data
       end) w1.
Proof.
  intros Hc Hct. unfold TDBWrapConfigService.config.
  rewrite (bind_ok _ _ _ _ _ Hc), (bind_ok _ _ _ _ _ (truthy_of_run c w1)), Hct.
  reflexivity.
Qed.

Lemma query_entered (filters options : pval) (w w1 : World) (c : pval) :
  is_clustered cls w = (Ok c, w1) -> ptruthy (heap w1) c = true ->
  TDBWrapCRUDService.query self cls filters options w =
    (unhealthy <- unhealthy_of self cls (VStr (namespace self));;
     if unhealthy then deepcopy (tdb_defaults cls)
     else
       res <- pcall "tdb.query" [TDBWrapCRUDService.tdb_args self cls];;
       version <- psubscript res "version";;
       data <- psubscript res "data";;
       if is_none data then deepcopy (tdb_defaults cls)
       else
         mismatch <- version_mismatch cls version;;
         if mismatch then mismatch_logged self;;; deepcopy (tdb_defaults cls)
         else
           if negb (opt_truthy (datastore_extend self)) then
             TDBWrapCRUDService.pfilter_list data filters options
           else
             entries <- piter data;;
             extended <- TDBWrapCRUDService.extend_all
                           (default "" (datastore_extend self)) entries;;
             have_defaults <- truthy_of (tdb_defaults cls);;
             to_filter <- (match extended with
                           | [] =>
                               if have_defaults
                               then TDBWrapCRUDService.insert_defaults self cls;;;
                                    deepcopy (tdb_defaults cls)
                               else TDBWrapCRUDService.alloc (OList extended)
                           | _ => TDBWrapCRUDService.alloc (OList extended)
                           end);;
             TDBWrapCRUDService.pfilter_list to_filter filters options) w1.
Proof.
  intros Hc Hct. unfold TDBWrapCRUDService.query.
  rewrite (bind_ok _ _ _ _ _ Hc), (bind_ok _ _ _ _ _ (truthy_of_run c w1)), Hct.
  reflexivity.
Qed.

(** A write is turned away as soon as [cluster_healthy] says unhealthy:
    the world is as that check left it. *)
Lemma writes_blocked (w w1 w2 : World) (c p : pval) :
  is_clustered cls w = (Ok c, w1) -> ptruthy (heap w1) c = true ->
  cluster_healthy self cls w1 = (Ok p, w2) -> ptruthy (heap w2) p = false ->
  let refused := (Raise (CallError unhealthy_message None VNone), w2) in
  (forall data, TDBWrapConfigService.direct_update self cls data w = refused) /\
  (forall data, TDBWrapCRUDService.direct_create self cls data w = refused) /\
  (forall id data, TDBWrapCRUDService.direct_update self cls id data w = refused) /\
  (forall id, TDBWrapCRUDService.direct_delete self cls id w = refused).
Proof.
  intros Hc Hct Hp Hpt refused. repeat split; intros;
    unfold TDBWrapConfigService.direct_update, TDBWrapCRUDService.direct_create,
      TDBWrapCRUDService.direct_update, TDBWrapCRUDService.direct_delete;
    rewrite (bind_ok _ _ _ _ _ Hc), (bind_ok _ _ _ _ _ (truthy_of_run c w1)), Hct;
    cbn [negb];
    rewrite (bind_ok _ _ _ _ _ Hp), (bind_ok _ _ _ _ _ (truthy_of_run p w2)), Hpt;
    reflexivity.
Qed.

(** The version check, on the version that was read. *)
Lemma version_mismatch_run (version : pval) (ver : value) (w : World) :
  denotes (heap w) version ver ->
  version_mismatch cls version w =
    (Ok (truthy ver && negb (py_eqb (service_version cls) ver)), w).
Proof.
  intros Hv. unfold version_mismatch.
  rewrite (bind_ok _ _ _ _ _ (truthy_of_run version w)), (ptruthy_load _ _ _ _ Hv).
  destruct (truthy ver); [|reflexivity].
  now rewrite (bind_ok _ _ _ _ _ (load_val_spec _ _ _ Hv)).
Qed.

Definition mismatch_of (ver : value) : bool :=
  truthy ver && negb (py_eqb (service_version cls) ver).

Definition absent (data : value) : bool :=
  match data with
  | VNone => true
  | _ => false
  end.

Definition mismatch_event : event :=
  ELog LError
    ("%s: Service version mismatch. Service update migration is required. "
       +:+ "Returning default values.")
    [VStr (namespace self)].

(** [if data is None: data = copy.deepcopy(self.tdb_defaults)] *)
Lemma defaults_for_absent (w : World) (data : pval) (stored dflt : value) :
  denotes (heap w) data stored -> denotes (heap w) (tdb_defaults cls) dflt ->
  exists d w',
    (if is_none data then deepcopy (tdb_defaults cls) else ret data) w = (Ok d, w') /\
    extends w w' /\ same_outside w w' /\
    denotes (heap w') d (if absent stored then dflt else stored) /\
    (absent stored = true -> fresh_since w w' d).
Proof.
  intros Hdata Hd. rewrite (is_none_load _ _ _ _ Hdata).
  destruct stored; simpl.
  1: { destruct (deepcopy_spec _ _ _ Hd) as (r & w' & H & Hext & Hsame & Hr & Hf).
       exists r, w'. repeat split; try apply Hsame; auto. }
  all: exists data, w; repeat split; auto using extends_refl; discriminate.
Qed.

(** The version check and what follows it. *)
Lemma defaults_for_mismatch (w : World) (version data : pval) (ver stored dflt : value) :
  denotes (heap w) version ver -> denotes (heap w) data stored ->
  denotes (heap w) (tdb_defaults cls) dflt ->
  exists d w',
    (mismatch <- version_mismatch cls version;;
     if mismatch then mismatch_logged self;;; deepcopy (tdb_defaults cls)
     else ret data) w = (Ok d, w') /\
    extends w w' /\
    env w' = env w /\ status w' = status w /\ last_check w' = last_check w /\
    log w' = log w ++ (if mismatch_of ver then [mismatch_event] else []) /\
    denotes (heap w') d (if mismatch_of ver then dflt else stored) /\
    (mismatch_of ver = true -> fresh_since w w' d).
Proof.
  intros Hv Hdata Hd. rewrite (bind_ok _ _ _ _ _ (version_mismatch_run version ver w Hv)).
  fold (mismatch_of ver). destruct (mismatch_of ver).
  - unfold mismatch_logged, logger, emit. rewrite bind_run.
    destruct (deepcopy_spec (tdb_defaults cls) dflt (add_log mismatch_event w) Hd)
      as (r & w' & H & Hext & (He & Hs & Hl & Hlog) & Hr & Hf).
    exists r, w'. unfold mismatch_event in *. rewrite H.
    repeat split; auto.
  - exists data, w. rewrite app_nil_r.
    repeat split; auto using extends_refl; discriminate.
Qed.

(** What [config] does once the health gate is passed: it reads the tdb
    file, takes the defaults in place of data that is absent or of another
    version, and runs the extend method, when there is one, on what it
    took. *)
Lemma config_when_healthy (w w1 w2 : World) (c : pval) (payload : list (string * value))
    (ver data dflt : value) (e3 : Env) :
  is_clustered cls w = (Ok c, w1) -> ptruthy (heap w1) c = true ->
  unhealthy_of self cls (opt_value (service self)) w1 = (Ok false, w2) ->
  mw_call "tdb.config" [TDBWrapConfigService.tdb_args self cls] (env w2)
    = (Ok (VDict payload), e3) ->
  dict_get "version" payload = Some ver -> dict_get "data" payload = Some data ->
  denotes (heap w) (tdb_defaults cls) dflt ->
  let chosen := if absent data || mismatch_of ver then dflt else data in
  exists d w4,
    extends w w4 /\ env w4 = e3 /\
    log w4 = log w2 ++ ECall "tdb.config" [TDBWrapConfigService.tdb_args self cls]
                         (Ok (VDict payload))
                       :: (if mismatch_of ver then [mismatch_event] else []) /\
    denotes (heap w4) d chosen /\
    (absent data || mismatch_of ver = true -> fresh_since w2 w4 d) /\
    TDBWrapConfigService.config self cls w =
      match datastore_extend self with
      | Some extend => if truthy (VStr extend) then pcall extend [chosen] w4
                       else (Ok d, w4)
      | None => (Ok d, w4)
      end.
Proof.
  intros Hc Hct Hg Ht Hver Hdata Hd chosen.
  assert (Hext2 : extends w w2).
  { eapply extends_trans; [eapply grows_is_clustered | eapply grows_unhealthy_of]; eauto. }
  destruct (pcall_ok _ _ _ _ _ Ht)
    as (p0 & w3 & Hp0 & Hext3 & He3 & _ & _ & Hlog3 & Hd3 & _).
  destruct (psubscript_spec _ _ _ _ _ Hd3 Hver) as (qv & Hqv & Hdv).
  destruct (psubscript_spec _ _ _ _ _ Hd3 Hdata) as (qd & Hqd & Hdd).
  assert (Hdf3 : denotes (heap w3) (tdb_defaults cls) dflt).
  { eapply extends_denotes; [|exact Hd]. eapply extends_trans; eauto. }
  destruct (defaults_for_absent w3 qd data dflt Hdd Hdf3)
    as (d1 & w4 & Hd1 & Hext4 & (He4 & _ & _ & Hlog4) & Hden1 & Hf1).
  destruct (defaults_for_mismatch w4 qv d1 ver _ dflt
              (extends_denotes _ _ _ _ Hext4 Hdv) Hden1
              (extends_denotes _ _ _ _ Hext4 Hdf3))
    as (d2 & w5 & Hd2 & Hext5 & He5 & _ & _ & Hlog5 & Hden2 & Hf2).
  exists d2, w5.
  split.
  { eapply extends_trans; [exact Hext2|]. eapply extends_trans; [exact Hext3|].
    eapply extends_trans; [exact Hext4 | exact Hext5]. }
  split; [congruence|].
  split. { rewrite Hlog5, Hlog4, Hlog3, <- app_assoc. reflexivity. }
  assert (Hchosen : (if mismatch_of ver then dflt else if absent data then dflt else data)
                    = chosen).
  { unfold chosen. now destruct (absent data), (mismatch_of ver). }
  rewrite Hchosen in Hden2.
  split; [exact Hden2|].
  split.
  { intros Hfall. destruct (mismatch_of ver) eqn:Hm.
    - eapply fresh_since_extends; [|now apply Hf2].
      eapply extends_trans; eassumption.
    - rewrite orb_false_r in Hfall.
      assert (w5 = w4 /\ d2 = d1) as [-> ->].
      { rewrite (bind_ok _ _ _ _ _ (version_mismatch_run qv ver w4
                   (extends_denotes _ _ _ _ Hext4 Hdv))) in Hd2.
        fold (mismatch_of ver) in Hd2. rewrite Hm in Hd2.
        unfold ret in Hd2. now injection Hd2 as <- <-. }
      eapply fresh_since_extends; [exact Hext3 | now apply Hf1]. }
  rewrite (config_entered w w1 c Hc Hct), (bind_ok _ _ _ _ _ Hg).
  cbv iota. rewrite (bind_ok _ _ _ _ _ Hp0), (bind_ok _ _ _ _ _ Hqv),
    (bind_ok _ _ _ _ _ Hqd), (bind_ok _ _ _ _ _ Hd1).
  rewrite bind_run in Hd2.
  rewrite bind_run.
  destruct (version_mismatch cls qv w4) as [[m|x] w4'] eqn:Hvm; [|discriminate].
  rewrite (bind_ok _ _ _ _ _ Hd2).
  destruct (datastore_extend self) as [extend|]; [|reflexivity].
  destruct (truthy (VStr extend)); [|reflexivity].
  now rewrite (bind_ok _ _ _ _ _ (load_val_spec _ _ _ Hden2)).
Qed.

(** The same for [query], which returns the copy of the defaults at once. *)
Lemma query_when_healthy (filters options : pval) (w w1 w2 : World) (c : pval)
    (payload : list (string * value)) (ver data dflt : value) (e3 : Env) :
  is_clustered cls w = (Ok c, w1) -> ptruthy (heap w1) c = true ->
  unhealthy_of self cls (VStr (namespace self)) w1 = (Ok false, w2) ->
  mw_call "tdb.query" [TDBWrapCRUDService.tdb_args self cls] (env w2)
    = (Ok (VDict payload), e3) ->
  dict_get "version" payload = Some ver -> dict_get "data" payload = Some data ->
  denotes (heap w) (tdb_defaults cls) dflt ->
  absent data || mismatch_of ver = true ->
  exists r w',
    TDBWrapCRUDService.query self cls filters options w = (Ok r, w') /\
    extends w w' /\ env w' = e3 /\
    log w' = log w2 ++ ECall "tdb.query" [TDBWrapCRUDService.tdb_args self cls]
                         (Ok (VDict payload))
                       :: (if absent data then [] else [mismatch_event]) /\
    denotes (heap w') r dflt /\ fresh_since w2 w' r.
Proof.
  intros Hc Hct Hg Ht Hver Hdata Hd Hfall.
  assert (Hext2 : extends w w2).
  { eapply extends_trans; [eapply grows_is_clustered | eapply grows_unhealthy_of]; eauto. }
  destruct (pcall_ok _ _ _ _ _ Ht)
    as (p0 & w3 & Hp0 & Hext3 & He3 & _ & _ & Hlog3 & Hd3 & _).
  destruct (psubscript_spec _ _ _ _ _ Hd3 Hver) as (qv & Hqv & Hdv).
  destruct (psubscript_spec _ _ _ _ _ Hd3 Hdata) as (qd & Hqd & Hdd).
  assert (Hdf3 : denotes (heap w3) (tdb_defaults cls) dflt).
  { eapply extends_denotes; [|exact Hd]. eapply extends_trans; eauto. }
  rewrite (query_entered filters options w w1 c Hc Hct), (bind_ok _ _ _ _ _ Hg).
  cbv iota. rewrite (bind_ok _ _ _ _ _ Hp0), (bind_ok _ _ _ _ _ Hqv),
    (bind_ok _ _ _ _ _ Hqd), (is_none_load _ _ _ _ Hdd).
  fold (absent data). destruct (absent data).
  - destruct (deepcopy_spec _ _ _ Hdf3) as (r & w' & H & Hext & (He & _ & _ & Hlog) & Hr & Hf).
    exists r, w'. split; [exact H|].
    split. { eapply extends_trans; [exact Hext2|]. eapply extends_trans; eassumption. }
    split; [congruence|]. split; [congruence|]. split; [exact Hr|].
    eapply fresh_since_extends; eassumption.
  - simpl in Hfall.
    rewrite (bind_ok _ _ _ _ _ (version_mismatch_run qv ver w3 Hdv)).
    fold (mismatch_of ver). rewrite Hfall.
    unfold mismatch_logged, logger, emit. rewrite bind_run.
    destruct (deepcopy_spec (tdb_defaults cls) dflt (add_log mismatch_event w3) Hdf3)
      as (r & w' & H & Hext & (He & _ & _ & Hlog) & Hr & Hf).
    exists r, w'. unfold mismatch_event in *. rewrite H. split; [reflexivity|].
    split.
    { eapply extends_trans; [exact Hext2|]. eapply extends_trans; [exact Hext3|].
      destruct Hext as [ext Hext]. now exists ext. }
    split; [rewrite He; exact He3|].
    split. { rewrite Hlog. simpl. rewrite Hlog3, <- app_assoc. reflexivity. }
    split; [exact Hr|].
    eapply fresh_since_extends; [exact Hext3|]. exact Hf.
Qed.

(** The method that says whether the server is clustered. *)
Definition clustered_probe : string :=
  default "smb.get_smb_ha_mode" (is_clustered_fn cls).

(** What the two checks before a write may do outside: ask whether the
    server is clustered, ask whether the cluster is healthy, log. *)
Definition probing (ev : event) : Prop :=
  match ev with
  | ECall name [] _ => name = clustered_probe \/ name = cluster_healthy_fn cls
  | ELog _ _ _ => True
  | _ => False
  end.

Lemma pcall_log (name : string) (args : list value) (w w' : World) (r : res pval) :
  pcall name args w = (r, w') ->
  exists r', log w' = log w ++ [ECall name args r'].
Proof.
  intros H. destruct (mw_call name args (env w)) as [[v|x] e'] eqn:Hcall.
  - destruct (pcall_ok _ _ _ _ _ Hcall) as (p & w1 & Hp & _ & _ & _ & _ & Hlog & _).
    rewrite Hp in H. injection H as <- <-. eauto.
  - rewrite (pcall_raise _ _ _ _ _ Hcall) in H. injection H as <- <-. simpl. eauto.
Qed.

Lemma is_clustered_log (w w1 : World) (r : res pval) :
  is_clustered cls w = (r, w1) ->
  exists r', log w1 = log w ++ [ECall clustered_probe [] r'].
Proof.
  unfold is_clustered, clustered_probe, _default_cluster_check.
  destruct (is_clustered_fn cls) as [fn|]; simpl.
  - apply pcall_log.
  - rewrite bind_run. destruct (pcall _ _ w) as [[ha|x] w0] eqn:Hp;
      intros [= <- <-]; eapply pcall_log; eauto.
Qed.

Lemma cluster_healthy_log (w w2 : World) (r : res pval) :
  cluster_healthy self cls w = (r, w2) ->
  exists events, log w2 = log w ++ events /\ Forall probing events.
Proof.
  intros H.
  destruct (Qlt_le_dec (monotonic (env w)) (last_check w + time_offset cls)) as [Hlt|Hle].
  - rewrite (cluster_healthy_cached self cls w Hlt) in H. injection H as <- <-.
    exists []. now rewrite app_nil_r.
  - destruct (mw_call (cluster_healthy_fn cls) [] (env w)) as [[v|x] e'] eqn:Hcall.
    + destruct (cluster_healthy_probed self cls w v e' Hle Hcall)
        as (p & w' & Hp & _ & _ & _ & Hlog & _).
      rewrite Hp in H. injection H as <- <-. eexists. split; [exact Hlog|].
      constructor; [now right | constructor].
    + destruct (cluster_healthy_failed self cls w x e' Hle Hcall)
        as (w' & Hp & _ & _ & _ & _ & Hlog).
      rewrite Hp in H. injection H as <- <-. eexists. split; [exact Hlog|].
      constructor; [now right|]. constructor; [exact I | constructor].
Qed.

(** [health == 'OK'], for what [tdb.health] answered. *)
Definition healthy_answer (r : res value) : bool :=
  match r with
  | Ok (VStr s) => String.eqb s "OK"
  | _ => false
  end.

(** [db_healthy] says healthy exactly when [tdb.health] answers [OK]. *)
Lemma db_healthy_reports (name : value) (w : World) :
  let asked := [VDict [("name", name); ("tdb-options", tdb_options cls)]] in
  exists w',
    db_healthy_of self cls name w =
      (Ok (PBool (healthy_answer (fst (mw_call "tdb.health" asked (env w))))), w') /\
    env w' = snd (mw_call "tdb.health" asked (env w)).
Proof.
  intros asked. unfold db_healthy_of. fold asked.
  destruct (mw_call "tdb.health" asked (env w)) as [[v|x] e'] eqn:Hcall.
  - destruct (pcall_ok _ _ _ _ _ Hcall) as (p & w1 & Hp & _ & He & _ & _ & _ & Hd & _).
    rewrite bind_run. unfold catch. rewrite bind_run, Hp. unfold ret.
    rewrite (pstr_eqb_load _ _ _ _ "OK" Hd). simpl fst. simpl snd.
    change (match v with VStr s' => String.eqb s' "OK" | _ => false end)
      with (healthy_answer (Ok v)).
    destruct (healthy_answer (Ok v)).
    + exists w1. split; [reflexivity | exact He].
    + unfold bind, shown, logger, emit, ret.
      destruct (load _ _ p); eexists; (split; [reflexivity | exact He]).
  - rewrite bind_run. unfold catch. rewrite bind_run, (pcall_raise _ _ _ _ _ Hcall).
    unfold any_exception, bind, logger, emit, ret. simpl.
    eexists. split; reflexivity.
Qed.
End Paths.

Section Rejected.
Context {mw : Middleware}.
Variable self : Config.
Variable cls : TDB.

Lemma psubscript_reach (p : pval) (k : string) (q : pval) (w : World) (l : nat) :
  psubscript p k w = (Ok q, w) -> reachable (heap w) q l -> reachable (heap w) p l.
Proof.
  unfold psubscript. destruct p as [| | | |l0]; try discriminate.
  destruct (heap w !! l0) as [[kvs|ps]|] eqn:Hl; try discriminate.
  destruct (dict_get k kvs) as [v|] eqn:Hk; [|discriminate].
  intros [= ->] Hr. eapply reach_value; [exact Hl | | exact Hr].
  apply dict_get_elem. exact Hk.
Qed.

(** What is reached from a variable of an earlier world is an object of
    that world. *)
Lemma reachable_old (w w' : World) (p : pval) (t : value) (l : nat) :
  extends w w' -> denotes (heap w) p t -> reachable (heap w') p l -> l < length (heap w).
Proof.
  intros [ext Hext] Hp Hr. eapply reachable_bound; [exact Hp|].
  eapply reachable_agrees; [|exact Hp|]; rewrite Hext in *; [apply agrees_app | exact Hr].
Qed.

(** The argument of [tdb.config_update]. *)
Definition update_args (payload : value) : value :=
  VDict [("name", opt_value (service self));
         ("payload", VDict [("version", service_version cls); ("data", payload)]);
         ("tdb-options", tdb_options cls)].

(** The message of the error a rejected write raises. *)
Definition mismatch_message (node_major node_minor major minor : value) : string :=
  namespace self ++ ": service version mismatch. "
    ++ "Node: " ++ (py_str node_major ++ "." ++ py_str node_minor)
    ++ "cluster: " ++ py_str major ++ "." ++ py_str minor.

Lemma kept_when_present (w : World) (data : pval) (stored : value) :
  denotes (heap w) data stored -> absent stored = false ->
  (if is_none data then deepcopy (tdb_defaults cls) else ret data) w = (Ok data, w).
Proof.
  intros Hdata Hpresent. rewrite (is_none_load _ _ _ _ Hdata).
  destruct stored; [discriminate | reflexivity..].
Qed.

(** [direct_update] on a healthy cluster whose [tdb.config_update]
    raises [ValueError]: what was sent is the stored dictionary (the
    defaults where nothing is stored) updated with [data], the error
    names the version of the node and the stored one, and there is no
    call after the one that was rejected. *)
Lemma direct_update_rejected (w w1 w2 : World) (c p data : pval)
    (payload cur upd vkvs : list (string * value))
    (stored dflt node_major node_minor major minor : value) (e3 e4 : Env) :
  is_clustered cls w = (Ok c, w1) -> ptruthy (heap w1) c = true ->
  cluster_healthy self cls w1 = (Ok p, w2) -> ptruthy (heap w2) p = true ->
  mw_call "tdb.config" [TDBWrapConfigService.tdb_args self cls] (env w2)
    = (Ok (VDict payload), e3) ->
  dict_get "version" payload = Some (VDict vkvs) ->
  dict_get "data" payload = Some stored ->
  denotes (heap w) (tdb_defaults cls) dflt ->
  denotes (heap w) data (VDict upd) ->
  (if absent stored then dflt else stored) = VDict cur ->
  mw_call "tdb.config_update" [update_args (VDict (dict_update cur upd))] e3
    = (Raise ValueError, e4) ->
  getitem (service_version cls) "major" = Ok node_major ->
  getitem (service_version cls) "minor" = Ok node_minor ->
  dict_get "major" vkvs = Some major -> dict_get "minor" vkvs = Some minor ->
  exists w',
    TDBWrapConfigService.direct_update self cls data w =
      (Raise (CallError (mismatch_message node_major node_minor major minor) None VNone),
       w') /\
    env w' = e4 /\
    log w' = log w2 ++
      [ECall "tdb.config" [TDBWrapConfigService.tdb_args self cls] (Ok (VDict payload));
       ECall "tdb.config_update" [update_args (VDict (dict_update cur upd))]
         (Raise ValueError)].
Proof.
  intros Hc Hct Hp Hpt Hcfg Hver Hdata Hd Hupd Hcur Hrej HnM Hnm HvM Hvm.
  assert (Hext2 : extends w w2).
  { eapply extends_trans; [eapply grows_is_clustered | eapply grows_cluster_healthy];
      eauto. }
  destruct (pcall_ok _ _ _ _ _ Hcfg)
    as (old & w3 & Hold & Hext3 & He3 & _ & _ & Hlog3 & Hdold & Hfold).
  destruct (psubscript_spec _ _ _ _ _ Hdold Hver) as (qv & Hqv & Hdv).
  destruct (psubscript_spec _ _ _ _ _ Hdold Hdata) as (qd & Hqd & Hdd).
  assert (Hext : extends w w3) by (eapply extends_trans; eassumption).
  (* the dictionary that is updated, and the world it is in *)
  assert (Hnew : exists l w4,
    (if is_none qd then deepcopy (tdb_defaults cls) else ret qd) w3 = (Ok (PRef l), w4) /\
    extends w3 w4 /\ same_outside w3 w4 /\
    denotes (heap w4) (PRef l) (VDict cur) /\
    length (heap w2) <= l /\
    ~ reachable (heap w4) qv l).
  { destruct (absent stored) eqn:Habs.
    - destruct (defaults_for_absent cls w3 qd stored dflt Hdd
                  (extends_denotes _ _ _ _ Hext Hd))
        as (d & w4 & Hrun & Hext4 & Hsame & Hdn & Hfresh).
      rewrite Habs, Hcur in Hdn. specialize (Hfresh Habs).
      assert (exists l, d = PRef l) as [l ->].
      { unfold denotes in Hdn. destruct d; try (destruct (length (heap w4)); discriminate).
        eauto. }
      exists l, w4. repeat split; try apply Hsame; auto.
      + specialize (Hfresh l (reach_here _ _)).
        pose proof (extends_length _ _ Hext3). lia.
      + intros Hr. pose proof (reachable_old _ _ _ _ _ Hext4 Hdv Hr).
        specialize (Hfresh l (reach_here _ _)). lia.
    - rewrite Hcur in Hdd.
      assert (exists l, qd = PRef l) as [l ->].
      { unfold denotes in Hdd. destruct qd; try (destruct (length (heap w3)); discriminate).
        eauto. }
      exists l, w3. rewrite <- Hcur in Hdd.
      rewrite (kept_when_present w3 (PRef l) stored Hdd Habs). rewrite Hcur in Hdd.
      repeat split; auto using extends_refl.
      + apply Hfold. eapply psubscript_reach; [exact Hqd | constructor].
      + intros Hr.
        refine (pcall_apart _ _ _ _ _ _ _ Hcfg Hold "data" "version" (PRef l) qv l
                  _ Hqd Hqv (reach_here _ _) Hr).
        discriminate. }
  destruct Hnew as (l & w4 & Hrun & Hext4 & (He4 & _ & _ & Hlog4) & Hdn & Hl & Hvfar).
  assert (Hfar : ~ reachable (heap w4) data l).
  { intros Hr.
    assert (Hw4 : extends w w4) by (eapply extends_trans; eassumption).
    pose proof (reachable_old _ _ _ _ _ Hw4 Hupd Hr).
    pose proof (extends_length _ _ Hext2). lia. }
  destruct (pupdate_spec l data cur upd w4 Hdn
              (extends_denotes _ _ _ _ (extends_trans _ _ _ Hext Hext4) Hupd) Hfar)
    as (o & Hup & Hdnew & Hkeep).
  set (w5 := set_heap (<[l := o]> (heap w4)) w4) in *.
  assert (Hdv5 : denotes (heap w5) qv (VDict vkvs)).
  { apply Hkeep; [|exact Hvfar]. eapply extends_denotes; eassumption. }
  set (sent := [update_args (VDict (dict_update cur upd))]) in *.
  set (w6 := add_log (ECall "tdb.config_update" sent (Raise ValueError)) (set_env e4 w5)).
  destruct (psubscript_spec qv vkvs "major" major w6 Hdv5 HvM) as (qM & HqM & HdM).
  destruct (psubscript_spec qv vkvs "minor" minor w6 Hdv5 Hvm) as (qm & Hqm & Hdm).
  exists w6. split; [|split].
  - unfold TDBWrapConfigService.direct_update.
    rewrite (bind_ok _ _ _ _ _ Hc), (bind_ok _ _ _ _ _ (truthy_of_run c w1)), Hct.
    cbn [negb].
    rewrite (bind_ok _ _ _ _ _ Hp), (bind_ok _ _ _ _ _ (truthy_of_run p w2)), Hpt.
    cbn [negb].
    rewrite (bind_ok _ _ _ _ _ Hold), (bind_ok _ _ _ _ _ Hqv), (bind_ok _ _ _ _ _ Hqd).
    rewrite (bind_ok _ _ _ _ _ Hrun), (bind_ok _ _ _ _ _ Hup).
    rewrite (bind_ok _ _ _ _ _ (load_val_spec _ _ _ Hdnew)).
    apply bind_raise. unfold catch. rewrite bind_run. unfold call.
    assert (Henv : env w5 = e3) by (simpl; congruence).
    rewrite Henv. fold (update_args (VDict (dict_update cur upd))). fold sent.
    rewrite Hrej. fold w6.
    unfold node_version, lift_res, bind, ret. rewrite HnM, Hnm.
    rewrite HqM, (load_val_spec _ _ _ HdM), Hqm, (load_val_spec _ _ _ Hdm).
    reflexivity.
  - reflexivity.
  - simpl. rewrite Hlog4, Hlog3, <- app_assoc. reflexivity.
Qed.
End Rejected.

(** A clustered configuration service on the demonstration middleware:
    the defaults are a dictionary holding a list. *)
Module DemoTDB.

Definition smb_service : Config :=
  mkConfig (Some "services.cifs") "cifs_srv_" None None "id" true (Some "cifs") "smb"
    "SMB".

Definition smb_locking : Config :=
  mkConfig (Some "services.cifs") "cifs_srv_" (Some "lock.extend") None "id" true
    (Some "cifs") "smb" "SMB".

Definition smb_defaults : value :=
  VDict [("netbiosname", VStr "truenas"); ("aliases", VList [])].

(** The objects there are before a call: the empty list, which is the
    [tdb_defaults] of a CRUD service and the aliases of the defaults
    below; the defaults of the configuration service; the argument of an
    update; empty query options. *)
Definition smb_heap : list pobj :=
  [OList [];
   ODict [("netbiosname", PStr "truenas"); ("aliases", PRef 0)];
   ODict [("netbiosname", PStr "nas2")];
   ODict []].

Definition smb_tdb : TDB := base_tdb "CONFIG" (PRef 1).

Definition shares_tdb : TDB := base_tdb "CRUD" (PRef 0).

Definition new_name : pval := PRef 2.

Definition no_filters : pval := PRef 0.

Definition no_options : pval := PRef 3.

Definition nas1 : value := VDict [("netbiosname", VStr "nas1")].

Definition version_9_9 : value := VDict [("major", VInt 9); ("minor", VInt 9)].

(** No error was logged. *)
Definition no_error (events : list event) : Prop :=
  Forall (fun ev => match ev with ELog LError _ _ => False | _ => True end) events.

Definition file (version data : value) : value :=
  VDict [("version", version); ("data", data)].

(** Neither the cluster nor the local copy of the file is healthy. *)
Definition degraded : Demo.env :=
  Demo.mkEnv 100%Q [] [] [] false (Ok (VBool false)) (Ok (VStr "DEGRADED"))
    (file base_service_version nas1) false.

Definition healthy (file : value) (rejects : bool) : Demo.env :=
  Demo.mkEnv 100%Q [] [] [] false (Ok (VBool true)) (Ok (VStr "OK")) file rejects.

Definition world (e : Demo.env) : @World Demo.mw :=
  @mkWorld Demo.mw e smb_heap PNone 0%Q [].
End DemoTDB.

Lemma pair_eq {A B : Type} (x : A * B) (a : A) : fst x = a -> x = (a, snd x).
Proof. destruct x. simpl. now intros ->. Qed.

(** Runs on the demonstration middleware are evaluated a component at a
    time. *)
Ltac run := apply pair_eq; vm_compute; reflexivity.

(** ** Reads and writes on an unhealthy cluster *)

Section Unhealthy.
Context {mw : Middleware}.
Variable self : Config.
Variable cls : TDB.

(** C2. On a clustered server where [cluster_healthy] gives a false
    status and [tdb.health] does not answer [OK], [config] and [query]
    return an object that reads as the defaults and do not raise; with
    [cluster_healthy] false alone, [direct_update], [direct_create] and
    [direct_delete] raise [CallError] with the message about the unhealthy
    cluster, having called nothing but the two checks. *)
Theorem unhealthy_reads_default_writes_raise (w w1 w2 : World) (c p : pval)
    (dflt : value) :
  is_clustered cls w = (Ok c, w1) -> ptruthy (heap w1) c = true ->
  cluster_healthy self cls w1 = (Ok p, w2) -> ptruthy (heap w2) p = false ->
  denotes (heap w) (tdb_defaults cls) dflt ->
  let health name :=
    mw_call "tdb.health" [VDict [("name", name); ("tdb-options", tdb_options cls)]]
      (env w2) in
  let refused := (Raise (CallError unhealthy_message None VNone), w2) in
  (healthy_answer (fst (health (opt_value (service self)))) = false ->
   exists r w',
     TDBWrapConfigService.config self cls w = (Ok r, w') /\
     denotes (heap w') r dflt /\
     env w' = snd (health (opt_value (service self)))) /\
  (healthy_answer (fst (health (VStr (namespace self)))) = false ->
   forall filters options,
   exists r w',
     TDBWrapCRUDService.query self cls filters options w = (Ok r, w') /\
     denotes (heap w') r dflt /\
     env w' = snd (health (VStr (namespace self)))) /\
  (forall data, TDBWrapConfigService.direct_update self cls data w = refused) /\
  (forall data, TDBWrapCRUDService.direct_create self cls data w = refused) /\
  (forall id data, TDBWrapCRUDService.direct_update self cls id data w = refused) /\
  (forall id, TDBWrapCRUDService.direct_delete self cls id w = refused) /\
  exists events, log w2 = log w ++ events /\ Forall (probing cls) events.
Proof.
  intros Hc Hct Hp Hpf Hd health refused.
  assert (Hext2 : extends w w2).
  { eapply extends_trans; [eapply grows_is_clustered | eapply grows_cluster_healthy];
      eauto. }
  assert (Hread : forall name,
    healthy_answer (fst (health name)) = false ->
    exists r w',
      (unhealthy <- unhealthy_of self cls name;;
       if unhealthy then deepcopy (tdb_defaults cls) else raise TypeError) w1
        = (Ok r, w') /\
      denotes (heap w') r dflt /\ env w' = snd (health name) /\
      unhealthy_of self cls name w1 = (Ok true, snd (db_healthy_of self cls name w2))).
  { intros name Hname.
    destruct (db_healthy_reports self cls name w2) as (w3 & Hdb & He3).
    fold (health name) in Hdb, He3. rewrite Hname in Hdb.
    assert (Hg := gate_closed self cls name w1 w2 w3 p (PBool false) Hp Hpf Hdb eq_refl).
    assert (Hext3 : extends w w3).
    { eapply extends_trans; [exact Hext2|]. eapply grows_db_healthy_of. exact Hdb. }
    destruct (deepcopy_spec (tdb_defaults cls) dflt w3 (extends_denotes _ _ _ _ Hext3 Hd))
      as (r & w' & Hcopy & _ & (He & _) & Hr & _).
    exists r, w'. rewrite (bind_ok _ _ _ _ _ Hg). cbv iota.
    rewrite Hdb. repeat split; try assumption. congruence. }
  split; [|split].
  - intros Hname. destruct (Hread _ Hname) as (r & w' & Hrun & Hr & He & Hg).
    exists r, w'. split; [|split; assumption].
    rewrite (config_entered self cls w w1 c Hc Hct).
    rewrite (bind_ok _ _ _ _ _ Hg) in Hrun. rewrite (bind_ok _ _ _ _ _ Hg). exact Hrun.
  - intros Hname filters options.
    destruct (Hread _ Hname) as (r & w' & Hrun & Hr & He & Hg).
    exists r, w'. split; [|split; assumption].
    rewrite (query_entered self cls filters options w w1 c Hc Hct).
    rewrite (bind_ok _ _ _ _ _ Hg) in Hrun. rewrite (bind_ok _ _ _ _ _ Hg). exact Hrun.
  - destruct (writes_blocked self cls w w1 w2 c p Hc Hct Hp Hpf) as (H1 & H2 & H3 & H4).
    repeat (split; [assumption|]).
    destruct (is_clustered_log cls w w1 _ Hc) as (r1 & Hl1).
    destruct (cluster_healthy_log self cls w1 w2 _ Hp) as (evs & Hl2 & Hevs).
    exists (ECall (clustered_probe cls) [] r1 :: evs). split.
    + rewrite Hl2, Hl1, <- app_assoc. reflexivity.
    + constructor; [now left | exact Hevs].
Qed.
End Unhealthy.

Lemma unhealthy_reads_default_writes_raise_witness :
  (exists r w',
      @TDBWrapConfigService.config Demo.mw DemoTDB.smb_service DemoTDB.smb_tdb
        (DemoTDB.world DemoTDB.degraded) = (Ok r, w') /\
      denotes (heap w') r DemoTDB.smb_defaults) /\
  (forall data,
      fst (@TDBWrapConfigService.direct_update Demo.mw DemoTDB.smb_service
             DemoTDB.smb_tdb data (DemoTDB.world DemoTDB.degraded))
        = Raise (CallError unhealthy_message None VNone)).
Proof.
  edestruct (@unhealthy_reads_default_writes_raise Demo.mw DemoTDB.smb_service
               DemoTDB.smb_tdb (DemoTDB.world DemoTDB.degraded))
    as (Hconfig & _ & Hupdate & _);
    [run | vm_compute; reflexivity | run | vm_compute; reflexivity
    | vm_compute; reflexivity |].
  split.
  - destruct (Hconfig eq_refl) as (r & w' & Hrun & Hr & _). now exists r, w'.
  - intros data. now rewrite Hupdate.
Defined.

(** ** The defaults a read falls back to *)

Section Fallback.
Context {mw : Middleware}.
Variable self : Config.
Variable cls : TDB.

(** [w''] is [w'] after any change of the objects under [r]: every other
    object is as it was. *)
Definition mutated (r : pval) (w' w'' : World) : Prop :=
  length (heap w') <= length (heap w'') /\
  forall l o, heap w' !! l = Some o -> ~ reachable (heap w') r l ->
              heap w'' !! l = Some o.

(** Changing an object under [r] in place is such a change. *)
Lemma insert_mutated (r : pval) (w' : World) (l : nat) (o : pobj) :
  reachable (heap w') r l -> mutated r w' (set_heap (<[l := o]> (heap w')) w').
Proof.
  intros Hr. split; simpl.
  - now rewrite length_insert.
  - intros l0 o0 Hl0 Hfar. rewrite list_lookup_insert_ne; [exact Hl0|].
    intros ->. contradiction.
Qed.

(** [r.update(data)] is one. *)
Lemma pupdate_mutated (l : nat) (data : pval) (w' w'' : World) :
  pupdate (PRef l) data w' = (Ok tt, w'') -> mutated (PRef l) w' w''.
Proof.
  unfold pupdate. destruct (heap w' !! l) as [[kvs|ps]|]; try discriminate.
  destruct data as [| | | |l']; try discriminate.
  destruct (heap w' !! l') as [[kvs'|ps']|]; try discriminate.
  intros [= <-]. apply insert_mutated. constructor.
Qed.

(** What was made after [w] can be changed without changing what a
    variable of [w] reads as. *)
Lemma mutated_old (w w' w'' : World) (r p : pval) (t : value) :
  extends w w' -> fresh_since w w' r -> mutated r w' w'' ->
  denotes (heap w) p t -> denotes (heap w'') p t.
Proof.
  intros [ext Hext] Hfresh [Hlen Hsame] Hp.
  eapply denotes_agrees; [| |exact Hp].
  - intros l o Hl. apply Hsame.
    + rewrite Hext. now apply lookup_app_l_Some.
    + intros Hr. specialize (Hfresh l Hr). apply lookup_lt_Some in Hl. lia.
  - rewrite Hext, length_app in Hlen. lia.
Qed.

(** [r] is a copy of the defaults that shares nothing with them: it
    reads as the defaults do, it is made of objects that did not exist
    before the call, the defaults read as before, and they still do after
    any change of the objects under [r]. *)
Definition fresh_copy (w w' : World) (r : pval) (dflt : value) : Prop :=
  denotes (heap w') r dflt /\
  fresh_since w w' r /\
  denotes (heap w') (tdb_defaults cls) dflt /\
  forall w'', mutated r w' w'' -> denotes (heap w'') (tdb_defaults cls) dflt.

Lemma fresh_copy_intro (w w' : World) (r : pval) (dflt : value) :
  denotes (heap w) (tdb_defaults cls) dflt -> extends w w' ->
  denotes (heap w') r dflt -> fresh_since w w' r -> fresh_copy w w' r dflt.
Proof.
  intros Hd Hext Hr Hf. repeat split; auto.
  - eapply extends_denotes; eassumption.
  - intros w'' Hm. eapply mutated_old; eassumption.
Qed.

Lemma deepcopy_fresh_copy (w w3 : World) (dflt : value) :
  denotes (heap w) (tdb_defaults cls) dflt -> extends w w3 ->
  exists r w',
    deepcopy (tdb_defaults cls) w3 = (Ok r, w') /\ same_outside w3 w' /\
    fresh_copy w w' r dflt.
Proof.
  intros Hd Hext.
  destruct (deepcopy_spec _ _ w3 (extends_denotes _ _ _ _ Hext Hd))
    as (r & w' & Hrun & Hext' & Hsame & Hr & Hf).
  exists r, w'. split; [exact Hrun|]. split; [exact Hsame|].
  apply fresh_copy_intro; auto.
  - eapply extends_trans; eassumption.
  - eapply fresh_since_extends; eassumption.
Qed.

(** The stored payload is not used: there is no data, or the version
    stamp is another one. *)
Definition unusable (payload : list (string * value)) : Prop :=
  exists ver data,
    dict_get "version" payload = Some ver /\ dict_get "data" payload = Some data /\
    absent data || mismatch_of cls ver = true.

End Fallback.



(** The copy that [config] returned is updated in place; the next
    [config] returns the defaults as they were. *)
Example defaults_survive_update :
  let config := @TDBWrapConfigService.config Demo.mw DemoTDB.smb_service DemoTDB.smb_tdb in
  let first := config (DemoTDB.world DemoTDB.degraded) in
  exists r1 r2,
    fst first = Ok r1 /\
    let updated := pupdate r1 DemoTDB.new_name (snd first) in
    fst updated = Ok tt /\
    denotes (heap (snd updated)) r1
      (VDict [("netbiosname", VStr "nas2"); ("aliases", VList [])]) /\
    let second := config (snd updated) in
    fst second = Ok r2 /\
    denotes (heap (snd second)) r2 DemoTDB.smb_defaults.
Proof.
  exists (PRef 5), (PRef 7). repeat split; vm_compute; reflexivity.
Qed.

(** ** Another version in the file *)

Section Mismatch.
Context {mw : Middleware}.
Variable self : Config.
Variable cls : TDB.

(** The cluster is healthy: the gate of the read path is open. *)
Lemma gate_open (name : value) (w1 w2 : World) (p : pval) :
  cluster_healthy self cls w1 = (Ok p, w2) -> ptruthy (heap w2) p = true ->
  unhealthy_of self cls name w1 = (Ok false, w2).
Proof.
  intros Hp Hpt. unfold unhealthy_of.
  now rewrite (bind_ok _ _ _ _ _ Hp), (bind_ok _ _ _ _ _ (truthy_of_run p w2)), Hpt.
Qed.

End Mismatch.


